(** * Lecture demos of Principles of Machine Learning: a shallow embedding

    The notebooks under [lecture_demo/] contain a handful of small numerical
    routines: the threshold estimator of the statistical-learning notebook,
    the tabular Q-learning helpers of the model-free notebook, model-based
    policy iteration of the decision-trees notebook and the PCA recommender,
    together with the code around them: the Q-learning training loop, the
    coin-flip experiment and its closed-form distribution functions, the
    noise and normalisation helpers and the policy printer.

    Floating-point numbers are read as exact rationals ([Q]); NumPy arrays
    are lists with explicit bounds checks; Python exceptions are values of
    [exn]; in-place mutation is threaded through a state-and-error monad. *)

From Stdlib Require Import ZArith QArith Qround Qminmax Qpower Lqa Lia Sorted.
From stdpp Require Import base option list strings.

Local Open Scope Q_scope.

(** ** Python exceptions and the state-and-error monad *)

Inductive exn : Type :=
  | IndexError
  | KeyError
  | ValueError
  | UnboundLocalError.

(** A computation over a mutable store [St]: it ends in a value or in an
    exception, and in both cases leaves a store behind. *)
Definition M (St A : Type) : Type := St -> (exn + A) * St.

Definition ret {St A} (a : A) : M St A := fun σ => (inr a, σ).

Definition bind {St A B} (m : M St A) (k : A -> M St B) : M St B :=
  fun σ => match m σ with
           | (inr a, σ') => k a σ'
           | (inl e, σ') => (inl e, σ')
           end.

Definition raise {St A} (e : exn) : M St A := fun σ => (inl e, σ).
Definition get {St} : M St St := fun σ => (inr σ, σ).
Definition put {St} (σ' : St) : M St unit := fun _ => (inr tt, σ').

Definition lift_opt {St A} (e : exn) (o : option A) : M St A :=
  match o with Some a => ret a | None => raise e end.

Declare Scope py_scope.
Delimit Scope py_scope with py.
Notation "x <~ m ;; k" := (bind m (fun x => k))
  (at level 100, m at next level, right associativity) : py_scope.
Notation "m ;;; k" := (bind m (fun _ => k))
  (at level 100, right associativity) : py_scope.
Local Open Scope py_scope.

(** [for x in l: acc = body x acc] *)
Fixpoint for_each {St A Acc} (l : list A) (body : A -> Acc -> M St Acc) (acc : Acc)
  : M St Acc :=
  match l with
  | [] => ret acc
  | x :: rest => acc' <~ body x acc ;; for_each rest body acc'
  end.

(** [for i in range(n)] *)
Definition for_range {St Acc} (n : nat) (body : nat -> Acc -> M St Acc) (acc : Acc)
  : M St Acc :=
  for_each (seq 0 n) body acc.

(** ** NumPy helpers *)

(** An integer index into an axis of size [d]: negative indices count from
    the end, anything outside [-d, d) raises [IndexError]. *)
Definition np_index (d : nat) (i : Z) : option nat :=
  if ((0 <=? i) && (i <? Z.of_nat d))%Z then Some (Z.to_nat i)
  else if ((- Z.of_nat d <=? i) && (i <? 0))%Z then Some (Z.to_nat (i + Z.of_nat d))
  else None.

(** [x < y] and [x > y] on numbers. *)
Definition Qltb (x y : Q) : bool := negb (Qle_bool y x).
Definition Qgtb (x y : Q) : bool := Qltb y x.

(** [l[i]] and [l[i] = v] on a one-dimensional array, with a natural index. *)
Definition getitem {St A} (l : list A) (i : nat) : M St A :=
  lift_opt IndexError (l !! i).

Definition setitem {St A} (l : list A) (i : nat) (v : A) : M St (list A) :=
  if decide (i < length l)%nat then ret (<[i := v]> l) else raise IndexError.

(** [enumerate(l)] *)
Definition enumerate {A} (l : list A) : list (nat * A) :=
  zip (seq 0 (length l)) l.

(** [np.zeros(n)] *)
Definition np_zeros (n : nat) : list Q := replicate n 0.

(** ** The Q-learning notebook *)

(** [bin_size = 10] and the three bin counts, [np.ceil(_ / bin_size)]. *)
Definition bin_size : Z := 10.
Definition n_bins_dist : nat := Z.to_nat (Qceiling (350 / inject_Z bin_size)).
Definition n_bins_top : nat := Z.to_nat (Qceiling (1024 / inject_Z bin_size)).
Definition n_bins_bot : nat := Z.to_nat (Qceiling (1024 / inject_Z bin_size)).

(** The fields of [getGameState()] that the notebook reads. *)
Record game_state : Type := {
  player_y : Q;
  next_pipe_dist_to_player : Q;
  next_pipe_top_y : Q;
  next_pipe_bottom_y : Q
}.

(** A parsed state is an integer array of length three. *)
Definition state : Type := (Z * Z * Z)%type.

(** Python's [x // bin_size] followed by the store into an int array. *)
Definition floordiv (x : Q) (b : Z) : Z := Qfloor (x / inject_Z b).

Definition parse_state (g : game_state) : state :=
  (floordiv (next_pipe_dist_to_player g) bin_size,
   floordiv (next_pipe_top_y g - player_y g + 512) bin_size,
   floordiv (next_pipe_bottom_y g - player_y g + 512) bin_size).

Definition parse_reward (game_reward : Q) : Q :=
  if Qle_bool 0 game_reward then 1 else -100.

(** The action-value tensor of shape [(dim_dist, dim_top, dim_bot, 2)],
    stored like an ndarray: the shape and one row-major buffer. *)
Record QTable : Type := {
  dim_dist : nat;
  dim_top : nat;
  dim_bot : nat;
  cells : list Q
}.

Definition n_actions : nat := 2.

Definition table_size (T : QTable) : nat :=
  (dim_dist T * dim_top T * dim_bot T * n_actions)%nat.

Definition wf_table (T : QTable) : Prop := length (cells T) = table_size T.

(** [np.zeros((d0, d1, d2, 2))] *)
Definition zeros_table (d0 d1 d2 : nat) : QTable :=
  {| dim_dist := d0; dim_top := d1; dim_bot := d2;
     cells := np_zeros (d0 * d1 * d2 * n_actions) |}.

(** [Q = np.zeros((n_bins_dist, n_bins_top, n_bins_bot, 2))] *)
Definition Q_init : QTable := zeros_table n_bins_dist n_bins_top n_bins_bot.

(** Position in the buffer of entry [(i, j, k, a)]. *)
Definition flat (T : QTable) (i j k a : nat) : nat :=
  (((i * dim_top T + j) * dim_bot T + k) * n_actions + a)%nat.

(** [Q[tuple(state)]]: the start of the addressed row of two action values,
    or [IndexError]. *)
Definition row_offset (T : QTable) (s : state) : option nat :=
  let '(s0, s1, s2) := s in
  i ← np_index (dim_dist T) s0;
  j ← np_index (dim_top T) s1;
  k ← np_index (dim_bot T) s2;
  Some (flat T i j k 0).

(** [Q[tuple(state)][action]] as a buffer position. *)
Definition cell_offset (T : QTable) (s : state) (action : Z) : option nat :=
  base ← row_offset T s;
  a ← np_index n_actions action;
  Some (base + a)%nat.

(** Reading [Q[tuple(state)]], a view on two entries. *)
Definition read_row (s : state) : M QTable (Q * Q) :=
  T <~ get ;;
  base <~ lift_opt IndexError (row_offset T s) ;;
  q0 <~ lift_opt IndexError (cells T !! base) ;;
  q1 <~ lift_opt IndexError (cells T !! S base) ;;
  ret (q0, q1).

Definition read_cell (s : state) (action : Z) : M QTable Q :=
  T <~ get ;;
  p <~ lift_opt IndexError (cell_offset T s action) ;;
  lift_opt IndexError (cells T !! p).

(** [Q[tuple(state)][action] = v] *)
Definition write_cell (s : state) (action : Z) (v : Q) : M QTable unit :=
  T <~ get ;;
  p <~ lift_opt IndexError (cell_offset T s action) ;;
  if decide (p < length (cells T))%nat then
    put {| dim_dist := dim_dist T; dim_top := dim_top T; dim_bot := dim_bot T;
           cells := <[p := v]> (cells T) |}
  else raise IndexError.

(** [np.max] of a row of two entries. *)
Definition np_max2 (r : Q * Q) : Q := Qmax (fst r) (snd r).

Definition choose_action (s : state) : M QTable nat :=
  r <~ read_row s ;;
  let '(q_up, q_nothing) := r in
  ret (if Qgtb q_up q_nothing then 0%nat else 1%nat).

(** [action_dict = {0: 119, 1: None}]: the key pressed for each action. *)
Definition action_dict (action : nat) : option (option Z) :=
  match action with
  | 0%nat => Some (Some 119%Z)
  | 1%nat => Some None
  | _ => None
  end.

Definition update_Q (s next_state : state) (action : Z) (reward alpha gamma : Q)
  : M QTable unit :=
  next_row <~ read_row next_state ;;
  let Q_new := reward + gamma * np_max2 next_row in
  Q_old <~ read_cell s action ;;
  write_cell s action ((1 - alpha) * Q_old + alpha * Q_new).

(** The range of raw game states the bins are sized for: the next pipe is
    at most 350 ahead, and heights differ by less than 512 either way. *)
Definition in_play (g : game_state) : Prop :=
  (0 <= next_pipe_dist_to_player g /\ next_pipe_dist_to_player g < 350) /\
  (-512 <= next_pipe_top_y g - player_y g /\
   next_pipe_top_y g - player_y g < 512) /\
  (-512 <= next_pipe_bottom_y g - player_y g /\
   next_pipe_bottom_y g - player_y g < 512).

Definition same_shape (T U : QTable) : Prop :=
  dim_dist T = dim_dist U /\ dim_top T = dim_top U /\ dim_bot T = dim_bot U.

(** The table with its buffer replaced, and tables whose entries all lie
    in an interval. *)
Definition with_cells (T : QTable) (c : list Q) : QTable :=
  {| dim_dist := dim_dist T; dim_top := dim_top T; dim_bot := dim_bot T; cells := c |}.

Definition within (lo hi : Q) (T : QTable) : Prop :=
  Forall (fun q => lo <= q /\ q <= hi) (cells T).

(** One call of the training loop, and the loop's succession of updates. *)
Record q_call : Type := {
  c_state : state;
  c_next : state;
  c_action : Z;
  c_reward : Q
}.

Definition apply_updates (alpha gamma : Q) (calls : list q_call) : M QTable unit :=
  for_each calls
    (fun c _ => update_Q (c_state c) (c_next c) (c_action c) (c_reward c) alpha gamma)
    tt.

(** The two rewards [parse_reward] can produce. *)
Definition r_min : Q := -100.
Definition r_max : Q := 1.

(** ** The statistical-learning notebook *)

(** [np.where(x < p, ones_like(x), zeros_like(x))] *)
Definition indicator (x : list Q) (p : Q) : list Q :=
  map (fun xi => if Qltb xi p then 1 else 0) x.

(** [x[mask]] with a boolean mask: the lengths must agree. *)
Definition mask_select (x : list Q) (mask : list bool) : exn + list Q :=
  if decide (length x = length mask)
  then inr (map fst (filter (fun xm => snd xm = true) (zip x mask)))
  else inl IndexError.

(** [np.max] of a one-dimensional array. *)
Definition np_max (l : list Q) : exn + Q :=
  match l with
  | [] => inl ValueError
  | a :: rest => inr (fold_left Qmax rest a)
  end.

Definition algorithm_p_hat (x y : list Q) : exn + Q :=
  let y_heads := map (fun yi => Qeq_bool yi 1) y in
  if forallb negb y_heads then inr 0
  else match mask_select x y_heads with
       | inr heads => np_max heads
       | inl e => inl e
       end.

(** ** Model-based policy iteration (the decision-trees notebook) *)

(** An entry of [env.P[state][action]]:
    [(probability, next_state, reward, done)]. *)
Definition transition : Type := (Q * nat * Q * bool)%type.

(** The environment object: [env.nS], [env.nA] and the table [env.P],
    a dictionary over states of dictionaries over actions, here keyed by
    position. *)
Record Env : Type := {
  nS : nat;
  nA : nat;
  P : list (list (list transition))
}.

(** What an execution does, in order: entering [policy_evaluation] with a
    sweep bound, one sweep over the states, entering [policy_improvement]. *)
Inductive event : Type :=
  | EvEvaluate (max_iter : nat)
  | EvSweep
  | EvImprove.

(** The store: the environment object the functions receive by reference,
    and the record of what has run so far.  The record is bookkeeping of
    this model, kept to count rounds and sweeps; the notebook keeps none. *)
Record World : Type := {
  w_env : Env;
  w_trace : list event
}.

Definition tick (e : event) : M World unit :=
  fun w => (inr tt, {| w_env := w_env w; w_trace := w_trace w ++ [e] |}).

Definition env_nS : M World nat := w <~ get ;; ret (nS (w_env w)).
Definition env_nA : M World nat := w <~ get ;; ret (nA (w_env w)).

(** [env.P[state][action]] *)
Definition env_P (s a : nat) : M World (list transition) :=
  w <~ get ;;
  by_action <~ lift_opt KeyError (P (w_env w) !! s) ;;
  lift_opt KeyError (by_action !! a).

(** The innermost loop shared by evaluation and improvement:
    [for p, next_state, reward, _ in transitions:
       acc[slot] += p * (reward + gamma * value_function[next_state])] *)
Definition backup (gamma : Q) (value_function : list Q) (slot : nat)
    (transitions : list transition) (acc : list Q) : M World (list Q) :=
  for_each transitions
    (fun t acc =>
       let '(probablity, next_state, reward, _) := t in
       old <~ getitem acc slot ;;
       v <~ getitem value_function next_state ;;
       setitem acc slot (old + probablity * (reward + gamma * v)))
    acc.

(** One pass of the body of the evaluation loop. *)
Definition sweep (policy : list nat) (gamma : Q) (value_function : list Q)
  : M World (list Q) :=
  for_each (enumerate policy)
    (fun sa tmp =>
       let '(s, action) := sa in
       transitions <~ env_P s action ;;
       backup gamma value_function s transitions tmp)
    (np_zeros (length value_function)).

Definition policy_evaluation (policy : list nat) (gamma : Q) (max_iter : nat)
  : M World (list Q) :=
  tick (EvEvaluate max_iter) ;;;
  n <~ env_nS ;;
  for_range max_iter
    (fun _ value_function => tick EvSweep ;;; sweep policy gamma value_function)
    (np_zeros n).

Definition compute_action_value (s : nat) (value_function : list Q) (gamma : Q)
  : M World (list Q) :=
  n <~ env_nA ;;
  for_range n
    (fun action action_values =>
       transitions <~ env_P s action ;;
       backup gamma value_function action transitions action_values)
    (np_zeros n).

(** [np.argmax]: the first position of the largest entry. *)
Fixpoint argmax_from (best_i : nat) (best : Q) (i : nat) (l : list Q) : nat :=
  match l with
  | [] => best_i
  | x :: rest =>
      if Qgtb x best then argmax_from i x (S i) rest
      else argmax_from best_i best (S i) rest
  end.

Definition np_argmax (l : list Q) : option nat :=
  match l with
  | [] => None
  | a :: rest => Some (argmax_from 0 a 1 rest)
  end.

Definition policy_improvement (value_function : list Q) (gamma : Q)
  : M World (list nat) :=
  tick EvImprove ;;;
  n <~ env_nS ;;
  for_range n
    (fun s policy =>
       action_values <~ compute_action_value s value_function gamma ;;
       best <~ lift_opt ValueError (np_argmax action_values) ;;
       setitem policy s best)
    (replicate n 0%nat).

(** The variables [value_function] (unbound before the first round) and
    [policy] carried by the loop of [policy_iteration]. *)
Definition pi_vars : Type := (option (list Q) * list nat)%type.

(** The body of the loop: evaluate with [gamma = 1.0] and 100 sweeps, then
    improve. *)
Definition pi_round (vars : pi_vars) : M World pi_vars :=
  value_function <~ policy_evaluation (snd vars) 1 100 ;;
  policy <~ policy_improvement value_function 1 ;;
  ret (Some value_function, policy).

(** The loop after [n] rounds; [policy0] is the outcome of the initial
    [np.random.choice(range(env.nA), size=(env.nS))].  The copy
    [policy_prev] is never read and is left out. *)
Definition policy_iteration_loop (policy0 : list nat) (n : nat) : M World pi_vars :=
  for_range n (fun _ vars => pi_round vars) (None, policy0).

Definition policy_iteration (policy0 : list nat) (max_iter : nat)
  : M World (list Q * list nat) :=
  vars <~ policy_iteration_loop policy0 max_iter ;;
  match fst vars with
  | Some value_function => ret (value_function, snd vars)
  | None => raise UnboundLocalError
  end.

(** Running a computation on an environment, from an empty record. *)
Definition start (env : Env) : World := {| w_env := env; w_trace := [] |}.
Definition run {A} (env : Env) (m : M World A) : exn + A := fst (m (start env)).

(** What the notebook relies on from the environment: [P] has an entry for
    each of the [nS] states and [nA] actions, and every successor is a
    state. *)
Definition wf_transition (env : Env) (t : transition) : bool :=
  let '(_, next_state, _, _) := t in bool_decide (next_state < nS env)%nat.

Definition wf_env (env : Env) : bool :=
  bool_decide (length (P env) = nS env)
  && forallb (fun by_action =>
                bool_decide (length by_action = nA env)
                && forallb (forallb (wf_transition env)) by_action) (P env).

Definition nonneg_probs (env : Env) : bool :=
  forallb (forallb (forallb (fun t : transition =>
    let '(p, _, _, _) := t in Qle_bool 0 p))) (P env).

(** A policy as [np.random.choice] draws it: one action below [nA] per
    state. *)
Definition valid_policy (env : Env) (policy : list nat) : bool :=
  bool_decide (length policy = nS env)
  && forallb (fun a => bool_decide (a < nA env)%nat) policy.

(** The round of one execution that produced a given pair of consecutive
    value functions. *)
Definition consecutive_values (env : Env) (policy0 : list nat) (i : nat)
    (v v' : list Q) : Prop :=
  exists pol pol',
    run env (policy_iteration policy0 (S i)) = inr (v, pol) /\
    run env (policy_iteration policy0 (S (S i))) = inr (v', pol').

(** *** What the loops compute, in closed form *)

(** [env.P[s][a]], empty where the table has no entry. *)
Definition transitions_of (env : Env) (s a : nat) : list transition :=
  default [] (by_action ← P env !! s; by_action !! a).

(** The sum accumulated over a list of transitions, from [x0]. *)
Definition backup_val (gamma : Q) (value_function : list Q)
    (transitions : list transition) (x0 : Q) : Q :=
  fold_left
    (fun x (t : transition) =>
       let '(p, next_state, r, _) := t in
       x + p * (r + gamma * default 0 (value_function !! next_state)))
    transitions x0.

(** The action value [q(s, a)] under a value function. *)
Definition q_val (env : Env) (gamma : Q) (value_function : list Q) (s a : nat) : Q :=
  backup_val gamma value_function (transitions_of env s a) 0.

(** One sweep: the right-hand side of the Bellman equation of a policy. *)
Definition bellman (env : Env) (policy : list nat) (gamma : Q) (value_function : list Q)
  : list Q :=
  imap (fun s a => q_val env gamma value_function s a) policy.

Definition action_values (env : Env) (gamma : Q) (value_function : list Q) (s : nat)
  : list Q :=
  map (q_val env gamma value_function s) (seq 0 (nA env)).

Definition greedy (env : Env) (gamma : Q) (value_function : list Q) : list nat :=
  map (fun s => default 0%nat (np_argmax (action_values env gamma value_function s)))
      (seq 0 (nS env)).

(** The value function after [n] sweeps from zero. *)
Definition eval_iter (env : Env) (policy : list nat) (gamma : Q) (n : nat) : list Q :=
  Nat.iter n (bellman env policy gamma) (np_zeros (nS env)).

(** The store after [tr] has been recorded. *)
Definition add_trace (w : World) (tr : list event) : World :=
  {| w_env := w_env w; w_trace := w_trace w ++ tr |}.

(** One round on the loop variables, in closed form. *)
Definition pi_step (env : Env) (vars : pi_vars) : pi_vars :=
  let v := eval_iter env (snd vars) 1 100 in (Some v, greedy env 1 v).

(** A computation that consults only the environment: from any record it
    yields the same result, leaves the environment as it was and appends the
    same events. *)
Definition env_only {A} (m : M World A) : Prop :=
  forall env, exists res tr, forall tr0,
    m {| w_env := env; w_trace := tr0 |} =
    (res, {| w_env := env; w_trace := tr0 ++ tr |}).

(** The record left by one round of [policy_iteration]. *)
Definition round_trace : list event :=
  [EvEvaluate 100] ++ replicate 100 EvSweep ++ [EvImprove].

Definition pointwise_le (u w : list Q) : Prop := Forall2 Qle u w.

(** *** Two small environments *)

(** Three cells in a row: from the middle one, action 1 steps onto the goal
    (reward 1, then nothing more) and action 0 steps back to the start, from
    where either action returns to the middle. *)
Definition corridor_env : Env :=
  {| nS := 3; nA := 2;
     P := [ [ [(1, 1%nat, 0, false)]; [(1, 1%nat, 0, false)] ];
            [ [(1, 0%nat, 0, false)]; [(1, 2%nat, 1, true)] ];
            [ [(1, 2%nat, 0, true)]; [(1, 2%nat, 0, true)] ] ] |}.

(** A shortest-path problem with costs: from state 0 one reaches the
    terminal state 2 directly (cost 1) or through state 1 (cost 1, then 5). *)
Definition detour_env : Env :=
  {| nS := 3; nA := 2;
     P := [ [ [(1, 1%nat, -1, false)]; [(1, 2%nat, -1, true)] ];
            [ [(1, 2%nat, -5, true)]; [(1, 2%nat, -5, true)] ];
            [ [(1, 2%nat, 0, true)]; [(1, 2%nat, 0, true)] ] ] |}.

(** ** The PCA recommender *)

Section Recommender.

(** [np.argsort], NumPy's sorting routine. *)
Variable argsort : list Q -> list nat.

(** [np.sum((row - ref)**2)] *)
Definition sq_dist (row ref : list Q) : Q :=
  fold_left Qplus (zip_with (fun a b => (a - b) * (a - b)) row ref) 0.

(** The ids printed after "We recommend"; [latents] holds one row of
    principal-component scores per catalogue item. *)
Definition recommend (latents : list (list Q)) (bought_id num_recommendation : nat)
  : exn + list nat :=
  let scores := map (take 10) latents in
  match scores !! bought_id with
  | None => inl KeyError
  | Some ref =>
      let distances := map (fun row => sq_dist row ref) scores in
      inr (take num_recommendation (drop 1 (argsort distances)))
  end.

End Recommender.

(** What [np.argsort] promises: a rearrangement of the positions along
    which the keys ascend. *)
Definition key_at (d : list Q) (i : nat) : Q := default 0 (d !! i).

Definition ascending (d : list Q) (perm : list nat) : Prop :=
  forall a b x y, (a <= b)%nat -> perm !! a = Some x -> perm !! b = Some y ->
    key_at d x <= key_at d y.

Definition argsort_contract (argsort : list Q -> list nat) : Prop :=
  forall d, Permutation (argsort d) (seq 0 (length d)) /\ ascending d (argsort d).

(** A sorting routine that keeps equal keys in index order. *)
Fixpoint insert_sorted (d : list Q) (i : nat) (l : list nat) : list nat :=
  match l with
  | [] => [i]
  | j :: rest =>
      if Qle_bool (key_at d i) (key_at d j) then i :: l
      else j :: insert_sorted d i rest
  end.

Definition stable_argsort (d : list Q) : list nat :=
  foldr (insert_sorted d) [] (seq 0 (length d)).

(** A catalogue whose two items have the same scores. *)
Definition twin_latents : list (list Q) := [[1; 2]; [1; 2]].

(** ** Index ranges of the action-value tensor *)

(** The indices NumPy accepts on an axis of size [d], and the position a
    negative one stands for. *)
Definition index_ok (d : nat) (i : Z) : Prop :=
  (- Z.of_nat d <= i /\ i < Z.of_nat d)%Z.

Definition state_ok (T : QTable) (s : state) : Prop :=
  index_ok (dim_dist T) s.1.1 /\ index_ok (dim_top T) s.1.2 /\ index_ok (dim_bot T) s.2.

Definition wrap_index (d : nat) (i : Z) : Z :=
  if (i <? 0)%Z then (i + Z.of_nat d)%Z else i.

Definition wrap_state (T : QTable) (s : state) : state :=
  (wrap_index (dim_dist T) s.1.1, wrap_index (dim_top T) s.1.2,
   wrap_index (dim_bot T) s.2).

(** ** Stochastic tables with bounded rewards *)

(** The total probability of a list of transitions. *)
Definition prob_sum (transitions : list transition) : Q :=
  fold_right (fun (t : transition) acc => let '(p, _, _, _) := t in p + acc) 0 transitions.

(** Every [env.P[s][a]] is a distribution: non-negative weights of sum 1. *)
Definition stochastic (env : Env) : bool :=
  nonneg_probs env
  && forallb (forallb (fun trs => Qeq_bool (prob_sum trs) 1)) (P env).

(** Every reward of the table lies in [[rlo, rhi]]. *)
Definition rewards_within (rlo rhi : Q) (env : Env) : bool :=
  forallb (forallb (forallb (fun t : transition =>
    let '(_, _, r, _) := t in Qle_bool rlo r && Qle_bool r rhi))) (P env).

(** ** Printing a policy of the 4 x 4 lake *)

(** [action_map], from action numbers to arrows. *)
Definition action_map (action : nat) : option string :=
  match action with
  | 0%nat => Some "←"%string
  | 1%nat => Some "↓"%string
  | 2%nat => Some "→"%string
  | 3%nat => Some "↑"%string
  | _ => None
  end.

Definition lake_grid : list (list string) :=
  [ ["S"; "F"; "F"; "F"]; ["F"; "H"; "F"; "H"];
    ["F"; "F"; "F"; "H"]; ["H"; "F"; "F"; "G"] ]%string.

(** [[action_map[p] for p in policy]] *)
Fixpoint arrows_of (policy : list nat) : exn + list string :=
  match policy with
  | [] => inr []
  | p :: rest =>
      match action_map p with
      | None => inl KeyError
      | Some arrow =>
          match arrows_of rest with
          | inl e => inl e
          | inr arrows => inr (arrow :: arrows)
          end
      end
  end.

(** [.reshape(4, 4)] of a one-dimensional array. *)
Definition reshape_4_4 {A} (l : list A) : exn + list (list A) :=
  if decide (length l = 16%nat)
  then inr [take 4 l; take 4 (drop 4 l); take 4 (drop 8 l); take 4 (drop 12 l)]
  else inl ValueError.

(** What [visualize_policy] prints: the grid, then the directions. *)
Definition visualize_policy (policy : list nat)
  : exn + (list (list string) * list (list string)) :=
  match arrows_of policy with
  | inl e => inl e
  | inr arrows =>
      match reshape_4_4 arrows with
      | inl e => inl e
      | inr directions => inr (lake_grid, directions)
      end
  end.

(** ** The training loop of the Q-learning notebook *)

(** The game as the loop uses it: [ple_env.init()], [ple_env.game_over()],
    [ple_env.act(key)], [game_env.getGameState()], [ple_env.score()]. *)
Record Game (G : Type) : Type := {
  game_init : G -> G;
  game_over : G -> bool;
  game_act : option Z -> G -> Q * G;
  game_getGameState : G -> game_state;
  game_score : G -> Q
}.

Arguments game_init {G}.
Arguments game_over {G}.
Arguments game_act {G}.
Arguments game_getGameState {G}.
Arguments game_score {G}.

(** What the loop mutates: the game, the table [Q] and the two lists
    [scores] and [returns]. *)
Record Trainer (G : Type) : Type := {
  t_game : G;
  t_Q : QTable;
  t_scores : list Q;
  t_returns : list Q
}.

Arguments t_game {G}.
Arguments t_Q {G}.
Arguments t_scores {G}.
Arguments t_returns {G}.

(** [alpha = 0.1] and [gamma = 0.99] *)
Definition train_alpha : Q := 1 # 10.
Definition train_gamma : Q := 99 # 100.

Section Training.

Context {G : Type} (ple : Game G).

(** A table operation run on the trainer's [Q]. *)
Definition on_table {A} (m : M QTable A) : M (Trainer G) A :=
  fun σ =>
    let '(res, T) := m (t_Q σ) in
    (res, {| t_game := t_game σ; t_Q := T;
             t_scores := t_scores σ; t_returns := t_returns σ |}).

(** A call into the game that may change it. *)
Definition on_game {A} (f : G -> A * G) : M (Trainer G) A :=
  fun σ =>
    let '(a, g) := f (t_game σ) in
    (inr a, {| t_game := g; t_Q := t_Q σ;
               t_scores := t_scores σ; t_returns := t_returns σ |}).

Definition ask_game {A} (f : G -> A) : M (Trainer G) A :=
  on_game (fun g => (f g, g)).

(** The [while not ple_env.game_over()] loop.  [fuel] bounds the number
    of passes; [None] reports that it ran out before the game ended.  The
    pause [time.sleep(0.01)] at the end of a pass has no effect on the
    state and is left out. *)
Fixpoint episode_loop (fuel : nat) (s : state) (cumulative_reward : Q)
  : M (Trainer G) (option Q) :=
  over <~ ask_game (game_over ple) ;;
  if over : bool then ret (Some cumulative_reward)
  else
    match fuel with
    | O => ret None
    | S fuel' =>
        action <~ on_table (choose_action s) ;;
        key <~ lift_opt KeyError (action_dict action) ;;
        game_reward <~ on_game (game_act ple key) ;;
        let reward := parse_reward game_reward in
        g <~ ask_game (game_getGameState ple) ;;
        let next_state := parse_state g in
        on_table (update_Q s next_state (Z.of_nat action) reward train_alpha train_gamma) ;;;
        episode_loop fuel' next_state (cumulative_reward + reward)
    end.

(** The body of [for _ in tqdm(range(n_epochs))]: one game. *)
Definition episode (fuel : nat) : M (Trainer G) (option Q) :=
  on_game (fun g => (tt, game_init ple g)) ;;;
  g <~ ask_game (game_getGameState ple) ;;
  ret_opt <~ episode_loop fuel (parse_state g) 0 ;;
  match ret_opt with
  | None => ret None
  | Some cumulative_reward =>
      score <~ ask_game (game_score ple) ;;
      σ <~ get ;;
      put {| t_game := t_game σ; t_Q := t_Q σ;
             t_scores := t_scores σ ++ [score];
             t_returns := t_returns σ ++ [cumulative_reward] |} ;;;
      ret (Some cumulative_reward)
  end.

(** [n_epochs] games in a row. *)
Fixpoint train (n_epochs fuel : nat) : M (Trainer G) (option unit) :=
  match n_epochs with
  | O => ret (Some tt)
  | S n =>
      r <~ episode fuel ;;
      match r with
      | None => ret None
      | Some _ => train n fuel
      end
  end.

(** What training never disturbs: the shape and size of the table, and
    bounds on its entries. *)
Definition table_kept (lo hi : Q) (σ σ' : Trainer G) : Prop :=
  same_shape (t_Q σ') (t_Q σ) /\
  length (cells (t_Q σ')) = length (cells (t_Q σ)) /\
  (within lo hi (t_Q σ) -> within lo hi (t_Q σ')).

Definition keeps {A} (lo hi : Q) (m : M (Trainer G) A) : Prop :=
  forall σ, table_kept lo hi σ (snd (m σ)).

End Training.

(** A game that lasts as many passes as its state says, always shows the
    same view and punishes the last pass. *)
Definition countdown_game : Game nat :=
  {| game_init := fun _ => 3%nat;
     game_over := fun n => Nat.eqb n 0;
     game_act := fun _ n => (if Nat.eqb n 1 then -5 else 0, Nat.pred n);
     game_getGameState := fun _ =>
       {| player_y := 256; next_pipe_dist_to_player := 309;
          next_pipe_top_y := 53; next_pipe_bottom_y := 153 |};
     game_score := fun n => 0 |}.

(** ** Further code of the statistical-learning notebook *)

(** [flip_coin(num_flips, p)]: [draw] is the outcome of
    [np.random.uniform(size=(num_flips, ))]. *)
Definition flip_coin (draw : list Q) (p : Q) : list Q * list Q :=
  (draw, indicator draw p).

(** [p_star = 0.3141593] *)
Definition p_star : Q := 3141593 # 10000000.

(** [f_star = lambda x: indicator(x, p_star)] and
    [f_hat = lambda x: indicator(x, p_hat)] *)
Definition f_star (x : list Q) : list Q := indicator x p_star.
Definition f_hat (p_hat : Q) (x : list Q) : list Q := indicator x p_hat.

Definition R_pop (p_hat p_star : Q) : Q := p_star - p_hat.

(** [sample_p_hats(num_trials, N)]: one draw of [N] uniforms per trial. *)
Fixpoint sample_p_hats (draws : list (list Q)) : exn + list Q :=
  match draws with
  | [] => inr []
  | draw :: rest =>
      let '(x_train, y_train) := flip_coin draw p_star in
      match algorithm_p_hat x_train y_train with
      | inl e => inl e
      | inr p_hat =>
          match sample_p_hats rest with
          | inl e => inl e
          | inr p_hats => inr (p_hat :: p_hats)
          end
      end
  end.

(** [(1 - p_star + z)**N], at one point of the grid. *)
Definition p_hat_CDF (z p_star : Q) (N : nat) : Q :=
  (1 - p_star + z) ^ Z.of_nat N.

(** [np.where(z==p_star, np.ones_like(z), 1 - (1-z)**N)], at one point. *)
Definition R_pop_CDF (z p_star : Q) (N : nat) : Q :=
  if Qeq_bool z p_star then 1 else 1 - (1 - z) ^ Z.of_nat N.

(** [np.all(h(x) == y)], for predictions and labels of one length. *)
Definition consistency_check (h : list Q -> list Q) (x y : list Q) : bool :=
  let y_pred := h x in
  bool_decide (length y_pred = length y)
  && forallb (fun ab : Q * Q => Qeq_bool (fst ab) (snd ab)) (zip y_pred y).

(** ** Further code of the PCA notebook *)

(** The distance [recommend] computes between catalogue items [i] and [b]:
    the squared distance of their first ten scores. *)
Definition dist_to (latents : list (list Q)) (b i : nat) : Q :=
  sq_dist (take 10 (default [] (latents !! i))) (take 10 (default [] (latents !! b))).

(** [add_noise_and_clip(x)] on the flattened image array; [noise] is the
    outcome of [np.random.normal(size=x.shape)]. *)
Definition add_noise_and_clip (x noise : list Q) : list Q :=
  let x1 := zip_with (fun xi ni => xi + (2 # 10) * ni) x noise in
  let x2 := map (fun v => Qmax v 0) x1 in
  map (fun v => Qmin v 1) x2.

(** [np.min] of a one-dimensional array. *)
Definition np_min (l : list Q) : exn + Q :=
  match l with
  | [] => inl ValueError
  | a :: rest => inr (fold_left Qmin rest a)
  end.

(** One column of
    [(data - data.min()) / (data.max() - data.min())]. *)
Definition minmax_normalize (column : list Q) : exn + list Q :=
  match np_min column, np_max column with
  | inr lo, inr hi => inr (map (fun v => (v - lo) / (hi - lo)) column)
  | inl e, _ => inl e
  | _, inl e => inl e
  end.

(** * Properties *)

(** ** Reading and writing the action-value tensor *)

Ltac unfold_py :=
  unfold choose_action, update_Q, read_row, read_cell, write_cell, getitem,
    setitem, lift_opt, bind, ret, raise, get, put in *.

Lemma np_index_Some d i n :
  np_index d i = Some n -> (n < d)%nat.
Proof.
  unfold np_index. intros H.
  destruct ((0 <=? i) && (i <? Z.of_nat d))%Z eqn:E1.
  - apply andb_prop in E1 as [H0 H1]. inversion H; subst. lia.
  - destruct ((- Z.of_nat d <=? i) && (i <? 0))%Z eqn:E2; [|discriminate].
    apply andb_prop in E2 as [H0 H1]. inversion H; subst. lia.
Qed.

Lemma np_index_inrange d i :
  (0 <= i < Z.of_nat d)%Z -> np_index d i = Some (Z.to_nat i).
Proof.
  intros [H0 H1]. unfold np_index.
  destruct (Z.leb_spec 0 i); [|lia]. destruct (Z.ltb_spec i (Z.of_nat d)); [|lia].
  reflexivity.
Qed.

Lemma flat_lt T i j k a :
  (i < dim_dist T)%nat -> (j < dim_top T)%nat -> (k < dim_bot T)%nat ->
  (a < n_actions)%nat -> (flat T i j k a < table_size T)%nat.
Proof.
  unfold flat, table_size, n_actions. intros Hi Hj Hk Ha.
  assert ((i * dim_top T + j) * dim_bot T + k < dim_dist T * dim_top T * dim_bot T)%nat; [|lia].
  assert (i * dim_top T + j < dim_dist T * dim_top T)%nat by nia.
  nia.
Qed.

Lemma row_offset_Some T s base :
  row_offset T s = Some base ->
  exists i j k, (i < dim_dist T)%nat /\ (j < dim_top T)%nat /\ (k < dim_bot T)%nat /\
                base = flat T i j k 0.
Proof.
  destruct s as [[s0 s1] s2]. unfold row_offset. intros H.
  destruct (np_index (dim_dist T) s0) as [i|] eqn:Ei; [|discriminate].
  destruct (np_index (dim_top T) s1) as [j|] eqn:Ej; [|discriminate].
  destruct (np_index (dim_bot T) s2) as [k|] eqn:Ek; [|discriminate].
  simpl in H. inversion H; subst.
  exists i, j, k. repeat split; try reflexivity; eapply np_index_Some; eassumption.
Qed.

Lemma row_offset_lt T s base :
  row_offset T s = Some base -> (S base < table_size T)%nat.
Proof.
  intros (i & j & k & Hi & Hj & Hk & ->)%row_offset_Some.
  pose proof (flat_lt T i j k 1 Hi Hj Hk). unfold flat, n_actions in *. lia.
Qed.

Lemma cell_offset_lt T s a p :
  cell_offset T s a = Some p -> (p < table_size T)%nat.
Proof.
  unfold cell_offset. intros H.
  destruct (row_offset T s) as [base|] eqn:Eb; [|discriminate]. simpl in H.
  destruct (np_index n_actions a) as [n|] eqn:Ea; [|discriminate]. simpl in H.
  inversion H; subst. apply row_offset_lt in Eb. apply np_index_Some in Ea.
  unfold n_actions in *. lia.
Qed.

Lemma Qltb_lt x y : Qltb x y = true <-> x < y.
Proof.
  unfold Qltb. rewrite negb_true_iff. split.
  - intros H. apply Qnot_le_lt. intros Hle. apply Qle_bool_iff in Hle. congruence.
  - intros H. destruct (Qle_bool y x) eqn:E; [|reflexivity].
    apply Qle_bool_iff in E. exfalso. eapply Qlt_not_le; eassumption.
Qed.

Lemma Qltb_ge x y : Qltb x y = false <-> y <= x.
Proof.
  unfold Qltb. rewrite negb_false_iff. apply Qle_bool_iff.
Qed.

Lemma cell_offset_0 T s base :
  row_offset T s = Some base -> cell_offset T s 0 = Some base.
Proof. unfold cell_offset. intros ->. simpl. f_equal. lia. Qed.

Lemma cell_offset_1 T s base :
  row_offset T s = Some base -> cell_offset T s 1 = Some (S base).
Proof. unfold cell_offset. intros ->. simpl. f_equal. lia. Qed.

Lemma wf_lookup T p :
  wf_table T -> (p < table_size T)%nat -> exists q, cells T !! p = Some q.
Proof.
  intros Hwf Hp. apply lookup_lt_is_Some_2. rewrite Hwf. exact Hp.
Qed.

(** Reading a row never changes the table; it succeeds exactly on indices
    in range. *)
Lemma read_row_frame s T : snd (read_row s T) = T.
Proof.
  unfold_py. destruct (row_offset T s) as [base|]; [|reflexivity].
  destruct (cells T !! base); [|reflexivity].
  destruct (cells T !! S base); reflexivity.
Qed.

Lemma read_row_ok T s base :
  wf_table T -> row_offset T s = Some base ->
  exists q0 q1, cells T !! base = Some q0 /\ cells T !! S base = Some q1 /\
                read_row s T = (inr (q0, q1), T).
Proof.
  intros Hwf Hb. pose proof (row_offset_lt _ _ _ Hb) as Hlt.
  destruct (wf_lookup T base Hwf ltac:(lia)) as [q0 H0].
  destruct (wf_lookup T (S base) Hwf Hlt) as [q1 H1].
  exists q0, q1. repeat split; try assumption.
  unfold_py. rewrite Hb, H0, H1. reflexivity.
Qed.

Lemma read_cell_inv s a T q :
  fst (read_cell s a T) = inr q ->
  exists p, cell_offset T s a = Some p /\ cells T !! p = Some q.
Proof.
  unfold_py. destruct (cell_offset T s a) as [p|]; [|discriminate].
  destruct (cells T !! p) as [q'|] eqn:E; [|discriminate].
  simpl. intros [= ->]. eauto.
Qed.

Lemma cell_offset_row T s a p :
  cell_offset T s a = Some p -> exists base, row_offset T s = Some base.
Proof.
  unfold cell_offset. destruct (row_offset T s); [eauto | discriminate].
Qed.

Lemma choose_action_rows s T q0 q1 :
  fst (read_cell s 0 T) = inr q0 -> fst (read_cell s 1 T) = inr q1 ->
  choose_action s T = (inr (if Qgtb q0 q1 then 0%nat else 1%nat), T).
Proof.
  intros (p0 & Hp0 & Hq0)%read_cell_inv (p1 & Hp1 & Hq1)%read_cell_inv.
  destruct (cell_offset_row _ _ _ _ Hp0) as [base Hb].
  rewrite (cell_offset_0 _ _ _ Hb) in Hp0. rewrite (cell_offset_1 _ _ _ Hb) in Hp1.
  inversion Hp0; inversion Hp1; subst.
  unfold_py. rewrite Hb, Hq0, Hq1. reflexivity.
Qed.

Lemma zeros_lookup d0 d1 d2 p q :
  cells (zeros_table d0 d1 d2) !! p = Some q -> q = 0.
Proof.
  unfold zeros_table, np_zeros. simpl. intros H.
  apply lookup_replicate in H. tauto.
Qed.

Lemma zeros_wf d0 d1 d2 : wf_table (zeros_table d0 d1 d2).
Proof. unfold wf_table, zeros_table, np_zeros, table_size. simpl. apply length_replicate. Qed.

Lemma Q_init_wf : wf_table Q_init.
Proof. apply zeros_wf. Qed.

(** C9. [choose_action] answers 0 (jump, key 119) exactly when the value
    of jumping is strictly larger than the value of doing nothing; on a tie,
    and so on every all-zero table such as the initial one, it answers 1
    (no key). *)
Theorem choose_action_tie_break (T : QTable) (s : state) (q_up q_nothing : Q) :
  fst (read_cell s 0 T) = inr q_up ->
  fst (read_cell s 1 T) = inr q_nothing ->
  (action_dict 0 = Some (Some 119%Z) /\ action_dict 1 = Some None) /\
  (fst (choose_action s T) = inr 0%nat <-> q_nothing < q_up) /\
  (q_up == q_nothing -> fst (choose_action s T) = inr 1%nat) /\
  (forall d0 d1 d2, T = zeros_table d0 d1 d2 -> fst (choose_action s T) = inr 1%nat) /\
  (T = Q_init -> fst (choose_action s T) = inr 1%nat).
Proof.
  intros H0 H1. split; [split; reflexivity|].
  rewrite (choose_action_rows _ _ _ _ H0 H1). simpl.
  assert (Htie : q_up == q_nothing -> (if Qgtb q_up q_nothing then 0%nat else 1%nat) = 1%nat).
  { intros Heq. destruct (Qgtb q_up q_nothing) eqn:E; [|reflexivity].
    apply Qltb_lt in E. rewrite Heq in E. exfalso. eapply Qlt_irrefl; eassumption. }
  assert (Hzero : forall d0 d1 d2, T = zeros_table d0 d1 d2 ->
            @inr exn nat (if Qgtb q_up q_nothing then 0%nat else 1%nat) = inr 1%nat).
  { intros d0 d1 d2 ->. f_equal. apply Htie.
    apply read_cell_inv in H0 as (p0 & _ & Hq0). apply read_cell_inv in H1 as (p1 & _ & Hq1).
    apply zeros_lookup in Hq0, Hq1. subst. reflexivity. }
  repeat split.
  - destruct (Qgtb q_up q_nothing) eqn:E; [intros _; apply Qltb_lt; exact E | discriminate].
  - intros Hlt. apply Qltb_lt in Hlt. unfold Qgtb. rewrite Hlt. reflexivity.
  - intros Heq. f_equal. auto.
  - exact Hzero.
  - intros ->. apply (Hzero n_bins_dist n_bins_top n_bins_bot). reflexivity.
Qed.

Lemma choose_action_tie_break_witness :
  let T := {| dim_dist := 1; dim_top := 1; dim_bot := 1; cells := [3; 1] |} in
  fst (read_cell (0, 0, 0)%Z 0 T) = inr 3 /\
  fst (read_cell (0, 0, 0)%Z 1 T) = inr 1 /\
  (fst (choose_action (0, 0, 0)%Z T) = inr 0%nat <-> 1 < 3).
Proof.
  intros T. split; [reflexivity | split; [reflexivity |]].
  exact (proj1 (proj2 (choose_action_tie_break T (0, 0, 0)%Z 3 1 eq_refl eq_refl))).
Defined.

(** ** The state discretisation *)

Lemma floordiv_bounds (x : Q) (b lo hi : Z) :
  (0 < b)%Z ->
  inject_Z lo * inject_Z b <= x -> x < inject_Z hi * inject_Z b ->
  (lo <= floordiv x b < hi)%Z.
Proof.
  intros Hb Hlo Hhi. unfold floordiv.
  assert (Hb' : inject_Z 0 < inject_Z b) by (rewrite <- Zlt_Qlt; exact Hb).
  change (inject_Z 0) with 0 in Hb'.
  split.
  - rewrite <- (Qfloor_Z lo). apply Qfloor_resp_le.
    apply Qle_shift_div_l; assumption.
  - rewrite Zlt_Qlt. eapply Qle_lt_trans; [apply Qfloor_le|].
    apply Qlt_shift_div_r; assumption.
Qed.

Lemma n_bins_values :
  n_bins_dist = 35%nat /\ n_bins_top = 103%nat /\ n_bins_bot = 103%nat.
Proof. repeat split; reflexivity. Qed.

Lemma parse_state_bins g :
  in_play g ->
  let '(b0, b1, b2) := parse_state g in
  (0 <= b0 < 35)%Z /\ (0 <= b1 < 103)%Z /\ (0 <= b2 < 103)%Z.
Proof.
  intros [[Hd0 Hd1] [[Ht0 Ht1] [Hb0 Hb1]]]. unfold parse_state, bin_size.
  repeat split.
  - apply (floordiv_bounds _ 10 0 35); [lia | unfold inject_Z; lra ..].
  - apply (floordiv_bounds _ 10 0 35); [lia | unfold inject_Z; lra ..].
  - apply (floordiv_bounds _ 10 0 103); [lia | unfold inject_Z; lra ..].
  - apply (floordiv_bounds _ 10 0 103); [lia | unfold inject_Z; lra ..].
  - apply (floordiv_bounds _ 10 0 103); [lia | unfold inject_Z; lra ..].
  - apply (floordiv_bounds _ 10 0 103); [lia | unfold inject_Z; lra ..].
Qed.

(** ** The Q-learning update *)

(** Every run of [update_Q] either raises [IndexError] and leaves the table
    alone, or overwrites the one addressed position. *)
Lemma update_Q_cases s s' a r alpha gamma T :
  update_Q s s' a r alpha gamma T = (inl IndexError, T) \/
  exists base p q0 q1 q_old,
    row_offset T s' = Some base /\ cells T !! base = Some q0 /\
    cells T !! S base = Some q1 /\
    cell_offset T s a = Some p /\ cells T !! p = Some q_old /\
    update_Q s s' a r alpha gamma T =
      (inr tt, with_cells T (<[p := (1 - alpha) * q_old + alpha * (r + gamma * Qmax q0 q1)]>
                               (cells T))).
Proof.
  unfold_py.
  destruct (row_offset T s') as [base|] eqn:Eb; [|left; reflexivity].
  destruct (cells T !! base) as [q0|] eqn:E0; [|left; reflexivity].
  destruct (cells T !! S base) as [q1|] eqn:E1; [|left; reflexivity].
  destruct (cell_offset T s a) as [p|] eqn:Ep; [|left; reflexivity].
  destruct (cells T !! p) as [q_old|] eqn:Eo; [|left; reflexivity].
  rewrite Ep. destruct (decide (p < length (cells T))%nat) as [Hlt|Hge].
  - right. exists base, p, q0, q1, q_old.
    repeat split; try assumption; reflexivity.
  - exfalso. apply Hge. eapply lookup_lt_Some. eassumption.
Qed.

Lemma read_row_inv s T q0 q1 :
  fst (read_row s T) = inr (q0, q1) ->
  exists base, row_offset T s = Some base /\ cells T !! base = Some q0 /\
               cells T !! S base = Some q1.
Proof.
  unfold_py. destruct (row_offset T s) as [base|]; [|discriminate].
  destruct (cells T !! base) as [x|] eqn:E0; [|discriminate].
  destruct (cells T !! S base) as [y|] eqn:E1; [|discriminate].
  simpl. intros [= -> ->]. eauto.
Qed.

Lemma Qmax_cases x y : Qmax x y = x \/ Qmax x y = y.
Proof.
  unfold Qmax, GenericMinMax.gmax. destruct (x ?= y); auto.
Qed.

Lemma convex_between (alpha old target : Q) :
  0 < alpha -> alpha < 1 ->
  let new := (1 - alpha) * old + alpha * target in
  (old <= target -> old <= new /\ new <= target) /\
  (target <= old -> target <= new /\ new <= old).
Proof.
  intros Ha0 Ha1 new. subst new. split; intros Hle; split; nra.
Qed.

(** C2. With a step size strictly between 0 and 1, [update_Q] stores in
    [Q[s][a]] the convex combination
    [(1 - alpha) * Q_old + alpha * (r + gamma * max Q[s'])], which therefore
    lies between the old entry and the bootstrapped target. *)
Theorem update_Q_convex_combination
    (T : QTable) (s s' : state) (a : Z) (r alpha gamma q_old q0 q1 : Q) :
  0 < alpha -> alpha < 1 ->
  fst (read_cell s a T) = inr q_old ->
  fst (read_row s' T) = inr (q0, q1) ->
  let target := r + gamma * Qmax q0 q1 in
  let new := (1 - alpha) * q_old + alpha * target in
  let T' := snd (update_Q s s' a r alpha gamma T) in
  fst (update_Q s s' a r alpha gamma T) = inr tt /\
  fst (read_cell s a T') = inr new /\
  (q0 <= Qmax q0 q1 /\ q1 <= Qmax q0 q1 /\ (Qmax q0 q1 = q0 \/ Qmax q0 q1 = q1)) /\
  (q_old <= target -> q_old <= new /\ new <= target) /\
  (target <= q_old -> target <= new /\ new <= q_old).
Proof.
  intros Ha0 Ha1 Hold Hrow target new T'.
  apply read_cell_inv in Hold as (p & Hp & Hq).
  apply read_row_inv in Hrow as (base & Hb & H0 & H1).
  assert (Hrun : update_Q s s' a r alpha gamma T = (inr tt, with_cells T (<[p := new]> (cells T)))).
  { destruct (update_Q_cases s s' a r alpha gamma T) as [Hfail | Hok].
    - exfalso. revert Hfail. unfold_py. rewrite Hb, H0, H1, Hp, Hq. rewrite Hp.
      destruct (decide (p < length (cells T))%nat) as [_|Hge]; [discriminate|].
      exfalso. apply Hge. eapply lookup_lt_Some. eassumption.
    - destruct Hok as (base2 & p2 & x0 & x1 & xo & Hb2 & Hx0 & Hx1 & Hp2 & Hxo & Hrun).
      rewrite Hb in Hb2. inversion Hb2; subst base2.
      rewrite Hp in Hp2. inversion Hp2; subst p2.
      rewrite H0 in Hx0. rewrite H1 in Hx1. rewrite Hq in Hxo.
      inversion Hx0; inversion Hx1; inversion Hxo; subst. exact Hrun. }
  subst T'. rewrite Hrun. simpl. repeat split.
  - unfold read_cell, bind, get, lift_opt, ret. simpl.
    change (cell_offset (with_cells T (<[p:=new]> (cells T))) s a) with (cell_offset T s a).
    rewrite Hp. simpl. rewrite list_lookup_insert_eq; [reflexivity|].
    eapply lookup_lt_Some; eassumption.
  - apply Q.le_max_l.
  - apply Q.le_max_r.
  - apply Qmax_cases.
  - apply (convex_between alpha q_old target Ha0 Ha1); assumption.
  - apply (convex_between alpha q_old target Ha0 Ha1); assumption.
  - apply (convex_between alpha q_old target Ha0 Ha1); assumption.
  - apply (convex_between alpha q_old target Ha0 Ha1); assumption.
Qed.

Lemma update_Q_convex_combination_witness :
  let T := {| dim_dist := 1; dim_top := 1; dim_bot := 2; cells := [1; 2; 3; 4] |} in
  0 < 1 # 2 /\ 1 # 2 < 1 /\
  fst (read_cell (0, 0, 0)%Z 1 T) = inr 2 /\
  fst (read_row (0, 0, 1)%Z T) = inr (3, 4) /\
  fst (update_Q (0, 0, 0)%Z (0, 0, 1)%Z 1 1 (1 # 2) (1 # 2) T) = inr tt.
Proof.
  intros T. split; [reflexivity|]. split; [reflexivity|].
  split; [reflexivity|]. split; [reflexivity|].
  exact (proj1 (update_Q_convex_combination
                  {| dim_dist := 1; dim_top := 1; dim_bot := 2; cells := [1; 2; 3; 4] |}
                  (0, 0, 0)%Z (0, 0, 1)%Z 1 1 (1 # 2) (1 # 2) 2 3 4
                  eq_refl eq_refl eq_refl eq_refl)).
Defined.

(** Distinct index tuples in range address distinct buffer positions. *)
Lemma flat_inj T i j k a i' j' k' a' :
  (j < dim_top T)%nat -> (k < dim_bot T)%nat -> (a < n_actions)%nat ->
  (j' < dim_top T)%nat -> (k' < dim_bot T)%nat -> (a' < n_actions)%nat ->
  flat T i j k a = flat T i' j' k' a' ->
  i = i' /\ j = j' /\ k = k' /\ a = a'.
Proof.
  unfold flat. intros Hj Hk Ha Hj' Hk' Ha' H.
  destruct (Nat.div_mod_unique n_actions
              ((i * dim_top T + j) * dim_bot T + k) ((i' * dim_top T + j') * dim_bot T + k')
              a a' Ha Ha') as [H1 Ea]; [lia|].
  destruct (Nat.div_mod_unique (dim_bot T)
              (i * dim_top T + j) (i' * dim_top T + j') k k' Hk Hk') as [H2 Ek]; [lia|].
  destruct (Nat.div_mod_unique (dim_top T) i i' j j' Hj Hj') as [Ei Ej]; [lia|].
  auto.
Qed.

(** C7. A call of [update_Q] changes at most the entry [Q[s][a]]: the shape
    and the buffer length stay as they were, and so does every other
    position of the buffer, also when the call raises. *)
Theorem update_Q_frame (T : QTable) (s s' : state) (a : Z) (r alpha gamma : Q) :
  let T' := snd (update_Q s s' a r alpha gamma T) in
  same_shape T' T /\
  length (cells T') = length (cells T) /\
  (forall p, cell_offset T s a <> Some p -> cells T' !! p = cells T !! p) /\
  (forall u b, cell_offset T u b <> cell_offset T s a ->
     fst (read_cell u b T') = fst (read_cell u b T)).
Proof.
  intros T'. subst T'.
  destruct (update_Q_cases s s' a r alpha gamma T) as [Hfail | Hok].
  - rewrite Hfail. simpl. repeat split; reflexivity.
  - destruct Hok as (base & p & q0 & q1 & q_old & Hb & H0 & H1 & Hp & Hq & Hrun).
    rewrite Hrun. simpl. repeat split.
    + apply length_insert.
    + intros p' Hne. apply list_lookup_insert_ne. congruence.
    + intros u b Hne. unfold read_cell, bind, get, lift_opt, ret, raise. simpl.
      change (cell_offset (with_cells T _) u b) with (cell_offset T u b).
      destruct (cell_offset T u b) as [p'|] eqn:Eu; [|reflexivity].
      rewrite list_lookup_insert_ne by congruence.
      destruct (cells T !! p'); reflexivity.
Qed.

(** ** Boundedness of the learned values *)

Lemma parse_reward_values g : parse_reward g = r_max \/ parse_reward g = r_min.
Proof. unfold parse_reward. destruct (Qle_bool 0 g); auto. Qed.

Lemma parse_reward_range g : r_min <= parse_reward g /\ parse_reward g <= r_max.
Proof.
  destruct (parse_reward_values g) as [-> | ->]; unfold r_min, r_max; split; lra.
Qed.

Lemma discounted_bound_fix (x gamma : Q) :
  gamma < 1 -> (x / (1 - gamma)) * (1 - gamma) == x.
Proof. intros Hg. field. lra. Qed.

Lemma update_Q_within lo hi rlo rhi s s' a r alpha gamma T :
  0 < alpha -> alpha < 1 -> 0 < gamma -> gamma < 1 ->
  lo * (1 - gamma) == rlo -> hi * (1 - gamma) == rhi ->
  rlo <= r -> r <= rhi ->
  within lo hi T -> within lo hi (snd (update_Q s s' a r alpha gamma T)).
Proof.
  intros Ha0 Ha1 Hg0 Hg1 Hlo Hhi Hr0 Hr1 HT.
  destruct (update_Q_cases s s' a r alpha gamma T) as [Hfail | Hok].
  - rewrite Hfail. exact HT.
  - destruct Hok as (base & p & q0 & q1 & q_old & Hb & H0 & H1 & Hp & Hq & Hrun).
    rewrite Hrun. simpl. unfold within in *. simpl.
    pose proof (Forall_lookup_1 _ _ _ _ HT H0) as [L0 U0].
    pose proof (Forall_lookup_1 _ _ _ _ HT H1) as [L1 U1].
    pose proof (Forall_lookup_1 _ _ _ _ HT Hq) as [Lo Uo].
    apply Forall_insert; [exact HT|].
    assert (Hm : lo <= Qmax q0 q1 /\ Qmax q0 q1 <= hi).
    { destruct (Qmax_cases q0 q1) as [-> | ->]; auto. }
    destruct Hm as [Lm Um].
    set (m := Qmax q0 q1) in *.
    assert (lo <= r + gamma * m /\ r + gamma * m <= hi) as [Lt Ut] by (split; nra).
    split; nra.
Qed.

Lemma for_each_cons {St A Acc} (x : A) (rest : list A) (body : A -> Acc -> M St Acc) acc σ :
  for_each (x :: rest) body acc σ =
  match body x acc σ with
  | (inr acc', σ') => for_each rest body acc' σ'
  | (inl e, σ') => (inl e, σ')
  end.
Proof. reflexivity. Qed.

Lemma apply_updates_within lo hi rlo rhi alpha gamma calls T :
  0 < alpha -> alpha < 1 -> 0 < gamma -> gamma < 1 ->
  lo * (1 - gamma) == rlo -> hi * (1 - gamma) == rhi ->
  Forall (fun c => rlo <= c_reward c /\ c_reward c <= rhi) calls ->
  within lo hi T -> within lo hi (snd (apply_updates alpha gamma calls T)).
Proof.
  intros Ha0 Ha1 Hg0 Hg1 Hlo Hhi Hcalls. revert T.
  induction Hcalls as [|c rest [Hr0 Hr1] Hrest IH]; intros T HT.
  - exact HT.
  - unfold apply_updates in *. rewrite for_each_cons.
    pose proof (update_Q_within lo hi rlo rhi (c_state c) (c_next c) (c_action c)
                  (c_reward c) alpha gamma T Ha0 Ha1 Hg0 Hg1 Hlo Hhi Hr0 Hr1 HT) as Hstep.
    destruct (update_Q (c_state c) (c_next c) (c_action c) (c_reward c) alpha gamma T)
      as [[e|[]] T1]; simpl in Hstep.
    + exact Hstep.
    + apply IH. exact Hstep.
Qed.

Lemma zeros_within lo hi d0 d1 d2 :
  lo <= 0 -> 0 <= hi -> within lo hi (zeros_table d0 d1 d2).
Proof.
  intros Hlo Hhi. unfold within, zeros_table, np_zeros. simpl.
  apply Forall_replicate. auto.
Qed.

(** The bound for any reward interval that contains zero. *)
Lemma Q_table_bounded_interval
    (rlo rhi : Q) (d0 d1 d2 : nat) (alpha gamma : Q) (calls : list q_call) :
  rlo <= 0 -> 0 <= rhi ->
  0 < alpha -> alpha < 1 -> 0 < gamma -> gamma < 1 ->
  Forall (fun c => rlo <= c_reward c /\ c_reward c <= rhi) calls ->
  within (rlo / (1 - gamma)) (rhi / (1 - gamma))
    (snd (apply_updates alpha gamma calls (zeros_table d0 d1 d2))).
Proof.
  intros Hlo Hhi Ha0 Ha1 Hg0 Hg1 Hcalls.
  apply (apply_updates_within _ _ rlo rhi); try assumption.
  - apply discounted_bound_fix; assumption.
  - apply discounted_bound_fix; assumption.
  - apply zeros_within.
    + apply Qle_shift_div_r; lra.
    + apply Qle_shift_div_l; lra.
Qed.

(** C3. Starting from an all-zero table (of any shape, the notebook's
    [Q_init] included), after any number of updates with step size and
    discount strictly between 0 and 1 and rewards between [r_min = -100]
    and [r_max = 1], every entry lies between [r_min / (1 - gamma)] and
    [r_max / (1 - gamma)]. *)
Theorem Q_table_bounded
    (d0 d1 d2 : nat) (alpha gamma : Q) (calls : list q_call) (n : nat) :
  0 < alpha -> alpha < 1 -> 0 < gamma -> gamma < 1 ->
  Forall (fun c => r_min <= c_reward c /\ c_reward c <= r_max) calls ->
  let T := snd (apply_updates alpha gamma (take n calls) (zeros_table d0 d1 d2)) in
  Forall (fun q => r_min / (1 - gamma) <= q /\ q <= r_max / (1 - gamma)) (cells T).
Proof.
  intros Ha0 Ha1 Hg0 Hg1 Hcalls T. subst T.
  apply (Q_table_bounded_interval r_min r_max); try assumption.
  - unfold r_min. lra.
  - unfold r_max. lra.
  - apply Forall_take. exact Hcalls.
Qed.

Lemma Q_table_bounded_witness :
  let calls := [ {| c_state := (0, 0, 0)%Z; c_next := (0, 0, 1)%Z;
                    c_action := 1%Z; c_reward := 1 |};
                 {| c_state := (0, 0, 1)%Z; c_next := (0, 0, 0)%Z;
                    c_action := 0%Z; c_reward := -100 |} ] in
  (0 < 1 # 10 /\ 1 # 10 < 1 /\ 0 < 99 # 100 /\ 99 # 100 < 1) /\
  Forall (fun c => r_min <= c_reward c /\ c_reward c <= r_max) calls /\
  Forall (fun q => r_min / (1 - (99 # 100)) <= q /\ q <= r_max / (1 - (99 # 100)))
    (cells (snd (apply_updates (1 # 10) (99 # 100) (take 2 calls) (zeros_table 1 1 2)))).
Proof.
  intros calls.
  assert (Hcalls : Forall (fun c => r_min <= c_reward c /\ c_reward c <= r_max) calls).
  { repeat constructor; vm_compute; discriminate. }
  split; [repeat split; reflexivity|]. split; [exact Hcalls|].
  apply (Q_table_bounded 1 1 2 (1 # 10) (99 # 100) calls 2); try reflexivity.
  exact Hcalls.
Defined.

(** ** Index safety of the parsed state *)

Lemma update_Q_ok T s s' a r alpha gamma base p :
  wf_table T -> row_offset T s' = Some base -> cell_offset T s a = Some p ->
  fst (update_Q s s' a r alpha gamma T) = inr tt.
Proof.
  intros Hwf Hb Hp.
  destruct (read_row_ok T s' base Hwf Hb) as (q0 & q1 & H0 & H1 & _).
  destruct (wf_lookup T p Hwf (cell_offset_lt _ _ _ _ Hp)) as [q_old Hq].
  unfold_py. rewrite Hb, H0, H1, Hp, Hq. rewrite Hp.
  destruct (decide (p < length (cells T))%nat) as [_|Hge]; [reflexivity|].
  exfalso. apply Hge. eapply lookup_lt_Some. eassumption.
Qed.

Lemma row_offset_inrange T b0 b1 b2 :
  (0 <= b0 < Z.of_nat (dim_dist T))%Z ->
  (0 <= b1 < Z.of_nat (dim_top T))%Z ->
  (0 <= b2 < Z.of_nat (dim_bot T))%Z ->
  row_offset T (b0, b1, b2) = Some (flat T (Z.to_nat b0) (Z.to_nat b1) (Z.to_nat b2) 0).
Proof.
  intros H0 H1 H2. unfold row_offset.
  rewrite (np_index_inrange _ _ H0), (np_index_inrange _ _ H1), (np_index_inrange _ _ H2).
  reflexivity.
Qed.

(** C10. For a game state with the pipe distance in [0, 350) and both
    height differences in [-512, 512), the three bins computed by
    [parse_state] are valid positions of the axes of sizes 35, 103 and 103;
    on every table of the shape of [Q_init] the parsed state addresses a
    row without wrap-around, and [choose_action] and [update_Q] run without
    an index error. *)
Theorem parse_state_index_safe (g g' : game_state) :
  in_play g -> in_play g' ->
  (n_bins_dist = 35%nat /\ n_bins_top = 103%nat /\ n_bins_bot = 103%nat) /\
  (0 <= (parse_state g).1.1 < Z.of_nat n_bins_dist)%Z /\
  (0 <= (parse_state g).1.2 < Z.of_nat n_bins_top)%Z /\
  (0 <= (parse_state g).2 < Z.of_nat n_bins_bot)%Z /\
  forall T, wf_table T -> same_shape T Q_init ->
    row_offset T (parse_state g) =
      Some (flat T (Z.to_nat (parse_state g).1.1) (Z.to_nat (parse_state g).1.2)
                   (Z.to_nat (parse_state g).2) 0) /\
    (exists act, fst (choose_action (parse_state g) T) = inr act) /\
    (forall a r alpha gamma, (a = 0 \/ a = 1)%Z ->
       fst (update_Q (parse_state g) (parse_state g') a r alpha gamma T) = inr tt).
Proof.
  intros Hg Hg'.
  pose proof (parse_state_bins g Hg) as Hb.
  pose proof (parse_state_bins g' Hg') as Hb'.
  destruct (parse_state g) as [[b0 b1] b2]. destruct (parse_state g') as [[c0 c1] c2].
  destruct Hb as (B0 & B1 & B2). destruct Hb' as (C0 & C1 & C2).
  destruct n_bins_values as (E0 & E1 & E2).
  split; [auto|]. rewrite E0, E1, E2. cbn [fst snd].
  split; [lia|]. split; [lia|]. split; [lia|].
  intros T Hwf (S0 & S1 & S2).
  change (dim_dist Q_init) with n_bins_dist in S0.
  change (dim_top Q_init) with n_bins_top in S1.
  change (dim_bot Q_init) with n_bins_bot in S2.
  rewrite E0 in S0. rewrite E1 in S1. rewrite E2 in S2.
  assert (Hrow : row_offset T (b0, b1, b2) =
                 Some (flat T (Z.to_nat b0) (Z.to_nat b1) (Z.to_nat b2) 0)).
  { apply row_offset_inrange; rewrite ?S0, ?S1, ?S2; lia. }
  assert (Hrow' : row_offset T (c0, c1, c2) =
                  Some (flat T (Z.to_nat c0) (Z.to_nat c1) (Z.to_nat c2) 0)).
  { apply row_offset_inrange; rewrite ?S0, ?S1, ?S2; lia. }
  split; [exact Hrow|]. split.
  - destruct (read_row_ok T _ _ Hwf Hrow) as (q0 & q1 & _ & _ & Hrun).
    unfold choose_action, bind. rewrite Hrun. simpl. eauto.
  - intros a r alpha gamma [-> | ->].
    + eapply update_Q_ok; [exact Hwf | exact Hrow' | apply cell_offset_0; exact Hrow].
    + eapply update_Q_ok; [exact Hwf | exact Hrow' | apply cell_offset_1; exact Hrow].
Qed.

Lemma parse_state_index_safe_witness :
  let g := {| player_y := 256; next_pipe_dist_to_player := 309;
              next_pipe_top_y := 53; next_pipe_bottom_y := 153 |} in
  in_play g /\
  (0 <= (parse_state g).1.1 < Z.of_nat n_bins_dist)%Z.
Proof.
  intros g.
  assert (Hg : in_play g) by (unfold in_play, g; simpl; repeat split; lra).
  split; [exact Hg|].
  exact (proj1 (proj2 (parse_state_index_safe g g Hg Hg))).
Defined.

(** ** The threshold estimator *)

Lemma np_max_spec (a : Q) (rest : list Q) :
  fold_left Qmax rest a ∈ a :: rest /\
  (forall v, v ∈ a :: rest -> v <= fold_left Qmax rest a).
Proof.
  revert a. induction rest as [|b rest IH]; intros a; simpl.
  - split; [left|]. intros v Hv. apply list_elem_of_singleton in Hv. subst. apply Qle_refl.
  - destruct (IH (Qmax a b)) as [Hin Hub]. split.
    + apply elem_of_cons in Hin as [Heq | Hin].
      * rewrite Heq. destruct (Qmax_cases a b) as [-> | ->]; [left | right; left].
      * right; right. exact Hin.
    + intros v Hv.
      assert (Hm : Qmax a b <= fold_left Qmax rest (Qmax a b)) by (apply Hub; left).
      apply elem_of_cons in Hv as [-> | Hv].
      * eapply Qle_trans; [apply Q.le_max_l | exact Hm].
      * apply elem_of_cons in Hv as [-> | Hv].
        -- eapply Qle_trans; [apply Q.le_max_r | exact Hm].
        -- apply Hub. right. exact Hv.
Qed.

(** The entries picked by a boolean mask. *)
Lemma elem_of_masked (x : list Q) (mask : list bool) (v : Q) :
  v ∈ map fst (filter (fun xm : Q * bool => snd xm = true) (zip x mask)) <->
  exists i, x !! i = Some v /\ mask !! i = Some true.
Proof.
  change (map fst) with (fmap (M := list) (@fst Q bool)).
  rewrite list_elem_of_fmap. split.
  - intros ([v' m] & -> & Hin). apply list_elem_of_filter in Hin as [Hm Hin].
    simpl in Hm. subst m. apply list_elem_of_lookup in Hin as [i Hi].
    apply lookup_zip_with_Some in Hi as (a & b & Heq & Ha & Hb).
    inversion Heq; subst. eauto.
  - intros (i & Hx & Hm). exists (v, true). split; [reflexivity|].
    apply list_elem_of_filter. split; [reflexivity|].
    apply list_elem_of_lookup. exists i.
    apply lookup_zip_with_Some. eauto.
Qed.

Lemma no_heads_iff (y : list Q) :
  forallb negb (map (fun yi => Qeq_bool yi 1) y) = true <->
  (forall i yi, y !! i = Some yi -> ~ yi == 1).
Proof.
  induction y as [|b y IH]; simpl.
  - split; [intros _ i yi Hi; rewrite lookup_nil in Hi; discriminate | reflexivity].
  - rewrite andb_true_iff, IH, negb_true_iff. split.
    + intros [Hb Hy] [|i] yi Hi; simpl in Hi.
      * inversion Hi; subst. intros Heq. apply Qeq_bool_iff in Heq. congruence.
      * eapply Hy; eassumption.
    + intros H. split.
      * destruct (Qeq_bool b 1) eqn:E; [|reflexivity].
        exfalso. apply (H 0%nat b eq_refl). apply Qeq_bool_iff. exact E.
      * intros i yi Hi. apply (H (S i)). exact Hi.
Qed.

Lemma algorithm_p_hat_cases (x y : list Q) :
  length x = length y ->
  (algorithm_p_hat x y = inr 0 /\ (forall i yi, y !! i = Some yi -> ~ yi == 1)) \/
  (exists r, algorithm_p_hat x y = inr r /\
     (exists i yi, x !! i = Some r /\ y !! i = Some yi /\ yi == 1) /\
     (forall i xi yi, x !! i = Some xi -> y !! i = Some yi -> yi == 1 -> xi <= r)).
Proof.
  intros Hlen. unfold algorithm_p_hat.
  destruct (forallb negb (map (fun yi => Qeq_bool yi 1) y)) eqn:Eall.
  - left. split; [reflexivity|]. apply no_heads_iff. exact Eall.
  - right. unfold mask_select.
    destruct (decide (length x = length (map (fun yi => Qeq_bool yi 1) y))) as [_|Hne];
      [|exfalso; apply Hne; rewrite length_map; exact Hlen].
    set (mask := map (fun yi => Qeq_bool yi 1) y) in *.
    set (heads := map fst (filter (fun xm : Q * bool => snd xm = true) (zip x mask))).
    assert (Hmask : forall i, mask !! i = Some true <-> exists yi, y !! i = Some yi /\ yi == 1).
    { intros i. unfold mask.
      change (map (fun yi => Qeq_bool yi 1) y) with ((fun yi => Qeq_bool yi 1) <$> y).
      rewrite list_lookup_fmap. destruct (y !! i) as [yi|]; simpl.
      - split.
        + intros [= E]. exists yi. split; [reflexivity | apply Qeq_bool_iff; exact E].
        + intros (yi' & [= <-] & E). f_equal. apply Qeq_bool_iff. exact E.
      - split; [discriminate | intros (? & ? & _); discriminate]. }
    destruct heads as [|a rest] eqn:Eheads.
    + exfalso.
      assert (Hnone : forallb negb mask = true).
      { apply no_heads_iff. intros i yi Hi Heq.
        assert (Hx : exists xi, x !! i = Some xi).
        { apply lookup_lt_is_Some_2. rewrite Hlen. eapply lookup_lt_Some. exact Hi. }
        destruct Hx as [xi Hx].
        assert (Hin : xi ∈ heads).
        { apply elem_of_masked. exists i. split; [exact Hx|]. apply Hmask. eauto. }
        rewrite Eheads in Hin. apply not_elem_of_nil in Hin. exact Hin. }
      congruence.
    + simpl. exists (fold_left Qmax rest a).
      destruct (np_max_spec a rest) as [Hin Hub].
      split; [reflexivity|]. split.
      * rewrite <- Eheads in Hin. apply elem_of_masked in Hin as (i & Hx & Hm).
        apply Hmask in Hm as (yi & Hy & Heq). eauto.
      * intros i xi yi Hx Hy Heq. apply Hub. rewrite <- Eheads.
        apply elem_of_masked. exists i. split; [exact Hx|]. apply Hmask. eauto.
Qed.

(** C4. On arrays of equal length, [algorithm_p_hat] returns the largest
    entry of [x] among the positions where [y] is 1 when there is such a
    position, and the sentinel 0 when there is none; empty arrays fall in
    the second case and raise nothing. *)
Theorem algorithm_p_hat_max_or_sentinel (x y : list Q) :
  length x = length y ->
  ((exists i yi, y !! i = Some yi /\ yi == 1) ->
     exists r, algorithm_p_hat x y = inr r /\
       (exists i yi, x !! i = Some r /\ y !! i = Some yi /\ yi == 1) /\
       (forall i xi yi, x !! i = Some xi -> y !! i = Some yi -> yi == 1 -> xi <= r)) /\
  ((forall i yi, y !! i = Some yi -> ~ yi == 1) -> algorithm_p_hat x y = inr 0) /\
  algorithm_p_hat [] [] = inr 0.
Proof.
  intros Hlen. destruct (algorithm_p_hat_cases x y Hlen) as [[H0 Hnone] | Hsome].
  - repeat split.
    + intros (i & yi & Hy & Heq). exfalso. eapply Hnone; eassumption.
    + intros _. exact H0.
  - destruct Hsome as (r & Hr & (i & yi & Hx & Hy & Heq) & Hub). repeat split.
    + intros _. exists r. split; [exact Hr|]. split; [eauto | exact Hub].
    + intros Hnone. exfalso. eapply Hnone; eassumption.
Qed.

Lemma algorithm_p_hat_max_or_sentinel_witness :
  length [1 # 2; 1 # 3; 3 # 4] = length [1; 1; 0] /\
  exists r, algorithm_p_hat [1 # 2; 1 # 3; 3 # 4] [1; 1; 0] = inr r /\
    (forall i xi yi, [1 # 2; 1 # 3; 3 # 4] !! i = Some xi ->
       [1; 1; 0] !! i = Some yi -> yi == 1 -> xi <= r).
Proof.
  split; [reflexivity|].
  destruct (proj1 (algorithm_p_hat_max_or_sentinel [1 # 2; 1 # 3; 3 # 4] [1; 1; 0] eq_refl))
    as (r & Hr & _ & Hub).
  - exists 0%nat, 1. split; reflexivity.
  - exists r. split; assumption.
Defined.

Lemma indicator_lookup (x : list Q) (p : Q) (i : nat) (yi : Q) :
  indicator x p !! i = Some yi ->
  exists xi, x !! i = Some xi /\ yi = (if Qltb xi p then 1 else 0).
Proof.
  unfold indicator. change (map ?f x) with (f <$> x). rewrite list_lookup_fmap.
  destruct (x !! i) as [xi|]; simpl; [|discriminate].
  intros [= <-]. eauto.
Qed.

(** C5. When the labels come from the labelling rule [indicator x p_star]
    with a threshold [p_star >= 0], the estimate of [algorithm_p_hat] never
    exceeds [p_star]. *)
Theorem algorithm_p_hat_one_sided (x : list Q) (p_star : Q) :
  0 <= p_star ->
  exists p_hat, algorithm_p_hat x (indicator x p_star) = inr p_hat /\ p_hat <= p_star.
Proof.
  intros Hp.
  assert (Hlen : length x = length (indicator x p_star))
    by (unfold indicator; rewrite length_map; reflexivity).
  destruct (algorithm_p_hat_cases x (indicator x p_star) Hlen) as [[H0 _] | Hsome].
  - exists 0. split; assumption.
  - destruct Hsome as (r & Hr & (i & yi & Hx & Hy & Heq) & _).
    exists r. split; [exact Hr|].
    apply indicator_lookup in Hy as (xi & Hx' & ->).
    rewrite Hx in Hx'. inversion Hx'; subst xi.
    destruct (Qltb r p_star) eqn:E.
    + apply Qltb_lt in E. apply Qlt_le_weak. exact E.
    + exfalso. revert Heq. clear. intros H. discriminate H.
Qed.

Lemma algorithm_p_hat_one_sided_witness :
  0 <= 3 # 10 /\
  exists p_hat,
    algorithm_p_hat [1 # 2; 1 # 4; 1 # 5] (indicator [1 # 2; 1 # 4; 1 # 5] (3 # 10)) = inr p_hat /\
    p_hat <= 3 # 10.
Proof.
  assert (H : 0 <= 3 # 10) by (vm_compute; discriminate).
  split; [exact H|].
  exact (algorithm_p_hat_one_sided [1 # 2; 1 # 4; 1 # 5] (3 # 10) H).
Defined.

(** ** Loops in the monad *)

Lemma bind_ok {St A B} (m : M St A) (k : A -> M St B) σ a σ' :
  m σ = (inr a, σ') -> bind m k σ = k a σ'.
Proof. unfold bind. intros ->. reflexivity. Qed.

(** A loop whose body keeps an invariant indexed by the number of
    elements already visited runs to the end and establishes the invariant
    for the whole list. *)
Lemma for_each_inv {St A Acc} (Inv : nat -> Acc -> St -> Prop)
    (l : list A) (body : A -> Acc -> M St Acc) (acc : Acc) (σ : St) :
  Inv 0%nat acc σ ->
  (forall i x acc σ, l !! i = Some x -> Inv i acc σ ->
     exists acc' σ', body x acc σ = (inr acc', σ') /\ Inv (S i) acc' σ') ->
  exists acc' σ', for_each l body acc σ = (inr acc', σ') /\ Inv (length l) acc' σ'.
Proof.
  revert Inv acc σ. induction l as [|x l IH]; intros Inv acc σ H0 Hstep.
  - exists acc, σ. split; [reflexivity | exact H0].
  - destruct (Hstep 0%nat x acc σ eq_refl H0) as (acc1 & σ1 & Hrun & H1).
    destruct (IH (fun i => Inv (S i)) acc1 σ1 H1) as (acc' & σ' & Hrest & Hend).
    + intros i y a s Hi HI. apply (Hstep (S i) y a s Hi HI).
    + exists acc', σ'. split; [|exact Hend].
      rewrite for_each_cons, Hrun. exact Hrest.
Qed.

Lemma for_each_app {St A Acc} (l1 l2 : list A) (body : A -> Acc -> M St Acc) acc σ :
  for_each (l1 ++ l2) body acc σ =
  bind (for_each l1 body acc) (fun acc' => for_each l2 body acc') σ.
Proof.
  revert acc σ. induction l1 as [|x l1 IH]; intros acc σ.
  - reflexivity.
  - simpl app. rewrite for_each_cons. unfold bind at 1. rewrite for_each_cons.
    destruct (body x acc σ) as [[e|acc1] σ1]; [reflexivity|].
    rewrite IH. reflexivity.
Qed.

Lemma for_range_S {St Acc} (n : nat) (body : nat -> Acc -> M St Acc) acc σ :
  for_range (S n) body acc σ =
  bind (for_range n body acc) (fun acc' => body n acc') σ.
Proof.
  unfold for_range. rewrite seq_S, for_each_app.
  unfold bind. destruct (for_each (seq 0 n) body acc σ) as [[e|acc1] σ1]; [reflexivity|].
  simpl. unfold bind, ret. destruct (body n acc1 σ1) as [[e|acc2] σ2]; reflexivity.
Qed.

(** ** Policy iteration: what each function returns *)

Lemma wf_env_lookup env s a :
  wf_env env = true -> (s < nS env)%nat -> (a < nA env)%nat ->
  exists row trs, P env !! s = Some row /\ row !! a = Some trs /\
                  Forall (fun t => wf_transition env t = true) trs.
Proof.
  unfold wf_env. rewrite andb_true_iff, bool_decide_eq_true. intros [Hlen Hall] Hs Ha.
  destruct (lookup_lt_is_Some_2 (P env) s) as [row Hrow]; [lia|].
  rewrite forallb_forall in Hall.
  assert (Hin : In row (P env)).
  { apply list_elem_of_In. eapply list_elem_of_lookup_2. exact Hrow. }
  apply Hall in Hin. rewrite andb_true_iff, bool_decide_eq_true in Hin.
  destruct Hin as [Hl Htr].
  destruct (lookup_lt_is_Some_2 row a) as [trs Htrs]; [lia|].
  exists row, trs. repeat split; try assumption.
  rewrite forallb_forall in Htr.
  assert (Hin : In trs row).
  { apply list_elem_of_In. eapply list_elem_of_lookup_2. exact Htrs. }
  apply Htr in Hin. rewrite forallb_forall in Hin.
  apply Forall_forall. intros t Ht. apply Hin. apply list_elem_of_In. exact Ht.
Qed.

Lemma env_P_ok w s a row trs :
  P (w_env w) !! s = Some row -> row !! a = Some trs ->
  env_P s a w = (inr trs, w) /\ transitions_of (w_env w) s a = trs.
Proof.
  intros Hrow Htrs. unfold env_P, transitions_of, bind, get, lift_opt, ret.
  rewrite Hrow. simpl. rewrite Htrs. split; reflexivity.
Qed.

Lemma backup_spec (w : World) gamma vf slot trs acc x0 :
  acc !! slot = Some x0 ->
  Forall (fun t => wf_transition (w_env w) t = true) trs ->
  length vf = nS (w_env w) ->
  backup gamma vf slot trs acc w =
    (inr (<[slot := backup_val gamma vf trs x0]> acc), w).
Proof.
  intros Hacc Htrs Hlen. revert acc x0 Hacc.
  induction Htrs as [|t trs Ht Htrs IH]; intros acc x0 Hacc.
  - simpl. unfold ret. rewrite list_insert_id by exact Hacc. reflexivity.
  - destruct t as [[[p ns] r] d]. unfold backup in *. rewrite for_each_cons.
    simpl in Ht. apply bool_decide_eq_true in Ht.
    destruct (lookup_lt_is_Some_2 vf ns) as [v Hv]; [lia|].
    unfold getitem, setitem, lift_opt, bind, ret. rewrite Hacc, Hv.
    destruct (decide (slot < length acc)%nat) as [Hlt|Hge];
      [|exfalso; apply Hge; eapply lookup_lt_Some; exact Hacc].
    rewrite (IH (<[slot := x0 + p * (r + gamma * v)]> acc) (x0 + p * (r + gamma * v)));
      [|apply list_lookup_insert_eq; exact Hlt].
    rewrite list_insert_insert_eq. simpl. rewrite Hv. reflexivity.
Qed.

Lemma enumerate_lookup {A} (l : list A) i x :
  enumerate l !! i = Some x <-> exists a, x = (i, a) /\ l !! i = Some a.
Proof.
  unfold enumerate. split.
  - intros H. apply lookup_zip_with_Some in H as (j & a & -> & Hj & Ha).
    apply lookup_seq in Hj as [-> _]. eauto.
  - intros (a & -> & Ha). apply lookup_zip_with_Some. exists i, a.
    repeat split; [|exact Ha].
    apply lookup_seq. split; [reflexivity|]. eapply lookup_lt_Some. exact Ha.
Qed.

Lemma enumerate_length {A} (l : list A) : length (enumerate l) = length l.
Proof. unfold enumerate. rewrite length_zip_with, length_seq. lia. Qed.

Lemma valid_policy_inv env policy :
  valid_policy env policy = true ->
  length policy = nS env /\ forall s a, policy !! s = Some a -> (a < nA env)%nat.
Proof.
  unfold valid_policy. rewrite andb_true_iff, bool_decide_eq_true. intros [Hlen Hall].
  split; [exact Hlen|]. intros s a Hs. rewrite forallb_forall in Hall.
  assert (Hin : In a policy) by (apply list_elem_of_In; eapply list_elem_of_lookup_2; exact Hs).
  apply Hall in Hin. apply bool_decide_eq_true in Hin. exact Hin.
Qed.

Lemma valid_policy_intro env policy :
  length policy = nS env -> (forall s a, policy !! s = Some a -> (a < nA env)%nat) ->
  valid_policy env policy = true.
Proof.
  intros Hlen Hall. unfold valid_policy. rewrite andb_true_iff, bool_decide_eq_true.
  split; [exact Hlen|]. apply forallb_forall. intros a Hin.
  apply list_elem_of_In, list_elem_of_lookup in Hin as [s Hs].
  apply bool_decide_eq_true. eapply Hall. exact Hs.
Qed.

(** A sweep computes the Bellman right-hand side and touches nothing. *)
Lemma sweep_spec (w : World) policy gamma vf :
  wf_env (w_env w) = true -> valid_policy (w_env w) policy = true ->
  length vf = nS (w_env w) ->
  sweep policy gamma vf w = (inr (bellman (w_env w) policy gamma vf), w).
Proof.
  intros Hwf Hpol Hlen. apply valid_policy_inv in Hpol as [Hplen Hact].
  destruct (for_each_inv
    (fun i tmp σ => σ = w /\ length tmp = nS (w_env w) /\
       (forall j, (j < i)%nat -> tmp !! j = bellman (w_env w) policy gamma vf !! j) /\
       (forall j, (i <= j)%nat -> (j < nS (w_env w))%nat -> tmp !! j = Some 0))
    (enumerate policy)
    (fun sa tmp => let '(s, action) := sa in
       transitions <~ env_P s action ;; backup gamma vf s transitions tmp)
    (np_zeros (length vf)) w) as (tmp & σ & Hrun & -> & Htlen & Hdone & _).
  - repeat split.
    + unfold np_zeros. rewrite length_replicate. exact Hlen.
    + intros j Hj. lia.
    + intros j _ Hj. unfold np_zeros. apply lookup_replicate_2. lia.
  - intros i [s b] tmp σ Hi (-> & Htlen & Hdone & Htodo).
    apply enumerate_lookup in Hi as (a & [= -> ->] & Ha).
    assert (Hs : (i < nS (w_env w))%nat) by (rewrite <- Hplen; eapply lookup_lt_Some; exact Ha).
    destruct (wf_env_lookup (w_env w) i a Hwf Hs (Hact _ _ Ha)) as (row & trs & Hrow & Htrs & Hwt).
    destruct (env_P_ok w i a row trs Hrow Htrs) as [HP Htr].
    eexists _, w. split.
    + rewrite (bind_ok _ _ _ _ _ HP).
      apply (backup_spec w gamma vf i trs tmp 0); [apply Htodo; lia | exact Hwt | exact Hlen].
    + repeat split.
      * rewrite length_insert. exact Htlen.
      * intros j Hj. destruct (decide (j = i)) as [-> | Hne].
        -- rewrite list_lookup_insert_eq by lia.
           unfold bellman. rewrite list_lookup_imap, Ha. simpl.
           unfold q_val. rewrite Htr. reflexivity.
        -- rewrite list_lookup_insert_ne by congruence. apply Hdone. lia.
      * intros j Hj Hjn. rewrite list_lookup_insert_ne by lia. apply Htodo; lia.
  - unfold sweep. rewrite Hrun. f_equal. f_equal. apply list_eq. intros j.
    rewrite enumerate_length in Hdone.
    destruct (decide (j < length policy)%nat) as [Hj | Hj].
    + apply Hdone. exact Hj.
    + rewrite !lookup_ge_None_2; [reflexivity | |].
      * unfold bellman. rewrite length_imap. lia.
      * lia.
Qed.

Lemma bellman_length env policy gamma vf :
  length (bellman env policy gamma vf) = length policy.
Proof. unfold bellman. apply length_imap. Qed.

Lemma add_trace_app w tr1 tr2 : add_trace (add_trace w tr1) tr2 = add_trace w (tr1 ++ tr2).
Proof. unfold add_trace. simpl. rewrite <- app_assoc. reflexivity. Qed.

Lemma add_trace_nil w : add_trace w [] = w.
Proof. destruct w. unfold add_trace. simpl. rewrite app_nil_r. reflexivity. Qed.

Lemma tick_run e w : tick e w = (inr tt, add_trace w [e]).
Proof. reflexivity. Qed.

Lemma env_nS_run w : env_nS w = (inr (nS (w_env w)), w).
Proof. reflexivity. Qed.

Lemma env_nA_run w : env_nA w = (inr (nA (w_env w)), w).
Proof. reflexivity. Qed.

Lemma eval_iter_length env policy gamma n :
  length policy = nS env -> length (eval_iter env policy gamma n) = nS env.
Proof.
  intros Hlen. unfold eval_iter. destruct n as [|n]; simpl.
  - unfold np_zeros. apply length_replicate.
  - rewrite bellman_length. exact Hlen.
Qed.

(** [policy_evaluation] performs exactly [max_iter] sweeps from the zero
    vector. *)
Lemma policy_evaluation_spec (w : World) policy gamma n :
  wf_env (w_env w) = true -> valid_policy (w_env w) policy = true ->
  policy_evaluation policy gamma n w =
    (inr (eval_iter (w_env w) policy gamma n),
     add_trace w (EvEvaluate n :: replicate n EvSweep)).
Proof.
  intros Hwf Hpol. pose proof (valid_policy_inv _ _ Hpol) as [Hplen _].
  unfold policy_evaluation. rewrite (bind_ok _ _ _ _ _ (tick_run _ _)).
  rewrite (bind_ok _ _ _ _ _ (env_nS_run _)).
  change (w_env (add_trace w [EvEvaluate n])) with (w_env w).
  destruct (for_each_inv
    (fun i vf σ => vf = eval_iter (w_env w) policy gamma i /\
                   σ = add_trace w (EvEvaluate n :: replicate i EvSweep))
    (seq 0 n)
    (fun (_ : nat) value_function => tick EvSweep ;;; sweep policy gamma value_function)
    (np_zeros (nS (w_env w))) (add_trace w [EvEvaluate n]))
    as (vf & σ & Hrun & -> & ->).
  - split; reflexivity.
  - intros i x vf σ _ [-> ->].
    eexists _, _. split.
    + rewrite (bind_ok _ _ _ _ _ (tick_run _ _)).
      apply sweep_spec; [exact Hwf | exact Hpol |].
      apply eval_iter_length. exact Hplen.
    + split; [reflexivity|].
      rewrite add_trace_app, replicate_S_end. reflexivity.
  - unfold for_range. rewrite Hrun, length_seq. reflexivity.
Qed.

Lemma action_values_lookup env gamma vf s a :
  (a < nA env)%nat -> action_values env gamma vf s !! a = Some (q_val env gamma vf s a).
Proof.
  intros Ha. unfold action_values.
  change (map ?f ?l) with (f <$> l). rewrite list_lookup_fmap, lookup_seq_lt by exact Ha.
  reflexivity.
Qed.

Lemma action_values_length env gamma vf s :
  length (action_values env gamma vf s) = nA env.
Proof. unfold action_values. rewrite length_map, length_seq. reflexivity. Qed.

Lemma compute_action_value_spec (w : World) s vf gamma :
  wf_env (w_env w) = true -> (s < nS (w_env w))%nat -> length vf = nS (w_env w) ->
  compute_action_value s vf gamma w = (inr (action_values (w_env w) gamma vf s), w).
Proof.
  intros Hwf Hs Hlen. unfold compute_action_value.
  rewrite (bind_ok _ _ _ _ _ (env_nA_run _)).
  destruct (for_each_inv
    (fun i av σ => σ = w /\ length av = nA (w_env w) /\
       (forall j, (j < i)%nat -> av !! j = action_values (w_env w) gamma vf s !! j) /\
       (forall j, (i <= j)%nat -> (j < nA (w_env w))%nat -> av !! j = Some 0))
    (seq 0 (nA (w_env w)))
    (fun action av =>
       transitions <~ env_P s action ;; backup gamma vf action transitions av)
    (np_zeros (nA (w_env w))) w) as (av & σ & Hrun & -> & Hlenav & Hdone & _).
  - repeat split.
    + unfold np_zeros. apply length_replicate.
    + intros j Hj. lia.
    + intros j _ Hj. unfold np_zeros. apply lookup_replicate_2. exact Hj.
  - intros i a av σ Hi (-> & Hlenav & Hdone & Htodo).
    apply lookup_seq in Hi as [-> Hi]. simpl.
    destruct (wf_env_lookup (w_env w) s i Hwf Hs Hi) as (row & trs & Hrow & Htrs & Hwt).
    destruct (env_P_ok w s i row trs Hrow Htrs) as [HP Htr].
    eexists _, w. split.
    + rewrite (bind_ok _ _ _ _ _ HP).
      apply (backup_spec w gamma vf i trs av 0); [apply Htodo; lia | exact Hwt | exact Hlen].
    + repeat split.
      * rewrite length_insert. exact Hlenav.
      * intros j Hj. destruct (decide (j = i)) as [-> | Hne].
        -- rewrite list_lookup_insert_eq by lia.
           rewrite action_values_lookup by exact Hi.
           unfold q_val. rewrite Htr. reflexivity.
        -- rewrite list_lookup_insert_ne by congruence. apply Hdone. lia.
      * intros j Hj Hjn. rewrite list_lookup_insert_ne by lia. apply Htodo; lia.
  - unfold for_range. rewrite Hrun. f_equal. f_equal. apply list_eq. intros j.
    rewrite length_seq in Hdone.
    destruct (decide (j < nA (w_env w))%nat) as [Hj | Hj].
    + apply Hdone. exact Hj.
    + rewrite !lookup_ge_None_2; [reflexivity | |].
      * rewrite action_values_length. lia.
      * lia.
Qed.

(** [np.argmax] returns a position holding a largest entry. *)
Lemma argmax_from_spec (l pre : list Q) (bi : nat) (b : Q) :
  pre !! bi = Some b -> (forall x, x ∈ pre -> x <= b) ->
  exists v, (pre ++ l) !! argmax_from bi b (length pre) l = Some v /\
            (forall x, x ∈ pre ++ l -> x <= v).
Proof.
  revert pre bi b. induction l as [|x l IH]; intros pre bi b Hb Hub; simpl.
  - exists b. rewrite app_nil_r. split; assumption.
  - assert (Hlen : S (length pre) = length (pre ++ [x])) by (rewrite length_app; simpl; lia).
    rewrite cons_middle, app_assoc, Hlen.
    destruct (Qgtb x b) eqn:E.
    + apply Qltb_lt in E. apply IH.
      * rewrite lookup_app_r by lia. replace (length pre - length pre)%nat with 0%nat by lia.
        reflexivity.
      * intros y Hy. apply elem_of_app in Hy as [Hy | Hy].
        -- apply Qlt_le_weak. eapply Qle_lt_trans; [apply Hub; exact Hy | exact E].
        -- apply list_elem_of_singleton in Hy. subst. apply Qle_refl.
    + apply Qltb_ge in E. apply IH.
      * rewrite lookup_app_l by (eapply lookup_lt_Some; exact Hb). exact Hb.
      * intros y Hy. apply elem_of_app in Hy as [Hy | Hy].
        -- apply Hub. exact Hy.
        -- apply list_elem_of_singleton in Hy. subst. exact E.
Qed.

Lemma np_argmax_spec (l : list Q) :
  l <> [] ->
  exists i v, np_argmax l = Some i /\ l !! i = Some v /\ (forall x, x ∈ l -> x <= v).
Proof.
  destruct l as [|a rest]; [congruence|]. intros _.
  destruct (argmax_from_spec rest [a] 0 a eq_refl) as (v & Hv & Hub).
  - intros x Hx. apply list_elem_of_singleton in Hx. subst. apply Qle_refl.
  - exists (argmax_from 0 a 1 rest), v. repeat split; assumption.
Qed.

Lemma greedy_length env gamma vf : length (greedy env gamma vf) = nS env.
Proof. unfold greedy. rewrite length_map, length_seq. reflexivity. Qed.

Lemma greedy_lookup env gamma vf s :
  (s < nS env)%nat ->
  greedy env gamma vf !! s =
    Some (default 0%nat (np_argmax (action_values env gamma vf s))).
Proof.
  intros Hs. unfold greedy. change (map ?f ?l) with (f <$> l).
  rewrite list_lookup_fmap, lookup_seq_lt by exact Hs. reflexivity.
Qed.

Lemma action_values_nonempty env gamma vf s :
  (0 < nA env)%nat -> action_values env gamma vf s <> [].
Proof.
  intros HnA Hnil. pose proof (action_values_length env gamma vf s) as Hl.
  rewrite Hnil in Hl. simpl in Hl. lia.
Qed.

(** The improved policy picks, in every state, an action of largest value. *)
Lemma greedy_optimal env gamma vf s :
  (s < nS env)%nat -> (0 < nA env)%nat ->
  exists a, greedy env gamma vf !! s = Some a /\ (a < nA env)%nat /\
            forall b, (b < nA env)%nat -> q_val env gamma vf s b <= q_val env gamma vf s a.
Proof.
  intros Hs HnA.
  destruct (np_argmax_spec (action_values env gamma vf s)
              (action_values_nonempty env gamma vf s HnA)) as (a & v & Harg & Hv & Hub).
  assert (Ha : (a < nA env)%nat).
  { rewrite <- (action_values_length env gamma vf s). eapply lookup_lt_Some. exact Hv. }
  exists a. rewrite greedy_lookup by exact Hs. rewrite Harg. split; [reflexivity|].
  split; [exact Ha|]. intros b Hb.
  rewrite action_values_lookup in Hv by exact Ha. inversion Hv; subst v.
  apply Hub. eapply list_elem_of_lookup_2. apply action_values_lookup. exact Hb.
Qed.

Lemma greedy_valid env gamma vf :
  (0 < nS env -> 0 < nA env)%nat -> valid_policy env (greedy env gamma vf) = true.
Proof.
  intros HnA. apply valid_policy_intro; [apply greedy_length|].
  intros s a Hs.
  assert (Hlt : (s < nS env)%nat).
  { rewrite <- (greedy_length env gamma vf). eapply lookup_lt_Some. exact Hs. }
  destruct (greedy_optimal env gamma vf s Hlt (HnA ltac:(lia))) as (a' & Ha' & Hlt' & _).
  rewrite Hs in Ha'. inversion Ha'; subst. exact Hlt'.
Qed.

Lemma policy_improvement_spec (w : World) vf gamma :
  wf_env (w_env w) = true -> length vf = nS (w_env w) ->
  (0 < nS (w_env w) -> 0 < nA (w_env w))%nat ->
  policy_improvement vf gamma w =
    (inr (greedy (w_env w) gamma vf), add_trace w [EvImprove]).
Proof.
  intros Hwf Hlen HnA. unfold policy_improvement.
  rewrite (bind_ok _ _ _ _ _ (tick_run _ _)).
  rewrite (bind_ok _ _ _ _ _ (env_nS_run _)).
  change (w_env (add_trace w [EvImprove])) with (w_env w).
  destruct (for_each_inv
    (fun i (pol : list nat) σ => σ = add_trace w [EvImprove] /\
       length pol = nS (w_env w) /\
       (forall j, (j < i)%nat -> pol !! j = greedy (w_env w) gamma vf !! j))
    (seq 0 (nS (w_env w)))
    (fun s pol =>
       action_values <~ compute_action_value s vf gamma ;;
       best <~ lift_opt ValueError (np_argmax action_values) ;;
       setitem pol s best)
    (replicate (nS (w_env w)) 0%nat) (add_trace w [EvImprove]))
    as (pol & σ & Hrun & -> & Hplen & Hdone).
  - repeat split.
    + apply length_replicate.
    + intros j Hj. lia.
  - intros i s pol σ Hi (-> & Hplen & Hdone).
    apply lookup_seq in Hi as [-> Hi]. simpl.
    destruct (greedy_optimal (w_env w) gamma vf i Hi (HnA ltac:(lia))) as (a & Ha & _ & _).
    rewrite greedy_lookup in Ha by exact Hi.
    destruct (np_argmax (action_values (w_env w) gamma vf i)) as [a'|] eqn:Earg.
    2:{ exfalso. destruct (np_argmax_spec (action_values (w_env w) gamma vf i)
                  (action_values_nonempty _ _ _ _ (HnA ltac:(lia)))) as (? & ? & Hx & _).
        congruence. }
    simpl in Ha. inversion Ha; subst a'.
    eexists _, _. split.
    + rewrite (bind_ok _ _ _ _ _
                 (compute_action_value_spec (add_trace w [EvImprove]) i vf gamma Hwf Hi Hlen)).
      change (w_env (add_trace w [EvImprove])) with (w_env w). rewrite Earg. simpl.
      unfold bind, ret, setitem.
      destruct (decide (i < length pol)%nat) as [_|Hge]; [reflexivity | lia].
    + repeat split.
      * rewrite length_insert. exact Hplen.
      * intros j Hj. destruct (decide (j = i)) as [-> | Hne].
        -- rewrite list_lookup_insert_eq by lia. rewrite greedy_lookup by exact Hi.
           rewrite Earg. reflexivity.
        -- rewrite list_lookup_insert_ne by congruence. apply Hdone. lia.
  - unfold for_range. rewrite Hrun. f_equal. f_equal. apply list_eq. intros j.
    rewrite length_seq in Hdone.
    destruct (decide (j < nS (w_env w))%nat) as [Hj | Hj].
    + apply Hdone. exact Hj.
    + rewrite !lookup_ge_None_2; [reflexivity | |].
      * rewrite greedy_length. lia.
      * lia.
Qed.

Lemma valid_policy_actions env policy :
  valid_policy env policy = true -> (0 < nS env -> 0 < nA env)%nat.
Proof.
  intros [Hlen Hact]%valid_policy_inv HnS.
  destruct (lookup_lt_is_Some_2 policy 0%nat) as [a Ha]; [lia|].
  apply Hact in Ha. lia.
Qed.

Lemma pi_round_spec (w : World) (vars : pi_vars) :
  wf_env (w_env w) = true -> valid_policy (w_env w) (snd vars) = true ->
  pi_round vars w = (inr (pi_step (w_env w) vars), add_trace w round_trace).
Proof.
  intros Hwf Hpol. unfold pi_round.
  rewrite (bind_ok _ _ _ _ _ (policy_evaluation_spec w (snd vars) 1 100 Hwf Hpol)).
  pose proof (valid_policy_inv _ _ Hpol) as [Hplen _].
  rewrite (bind_ok _ _ _ _ _
             (policy_improvement_spec (add_trace w (EvEvaluate 100 :: replicate 100 EvSweep))
                (eval_iter (w_env w) (snd vars) 1 100) 1 Hwf
                (eval_iter_length _ _ _ _ Hplen) (valid_policy_actions _ _ Hpol))).
  unfold ret, pi_step. rewrite add_trace_app. reflexivity.
Qed.

Lemma pi_step_valid env vars :
  valid_policy env (snd vars) = true -> valid_policy env (snd (pi_step env vars)) = true.
Proof.
  intros Hpol. unfold pi_step. simpl. apply greedy_valid.
  eapply valid_policy_actions. exact Hpol.
Qed.

Lemma pi_iter_valid env policy0 n :
  valid_policy env policy0 = true ->
  valid_policy env (snd (Nat.iter n (pi_step env) (None, policy0))) = true.
Proof.
  intros Hpol. induction n as [|n IH]; simpl; [exact Hpol|].
  apply greedy_valid. eapply valid_policy_actions. exact Hpol.
Qed.

Lemma policy_iteration_loop_spec (w : World) policy0 n :
  wf_env (w_env w) = true -> valid_policy (w_env w) policy0 = true ->
  policy_iteration_loop policy0 n w =
    (inr (Nat.iter n (pi_step (w_env w)) (None, policy0)),
     add_trace w (concat (replicate n round_trace))).
Proof.
  intros Hwf Hpol. unfold policy_iteration_loop. induction n as [|n IH].
  - unfold for_range. simpl. unfold ret. rewrite add_trace_nil. reflexivity.
  - rewrite for_range_S. rewrite (bind_ok _ _ _ _ _ IH).
    rewrite pi_round_spec; [| exact Hwf | apply pi_iter_valid; exact Hpol].
    rewrite add_trace_app. f_equal. f_equal.
    rewrite replicate_S_end, concat_app.
    change (concat [round_trace]) with (round_trace ++ []).
    rewrite app_nil_r. reflexivity.
Qed.

(** ** Nothing but the environment is consulted, and it is never written *)

Section EnvOnly.

Lemma env_only_ret {A} (a : A) : env_only (ret a).
Proof. intros env. exists (inr a), []. intros tr0. unfold ret. rewrite app_nil_r. reflexivity. Qed.

Lemma env_only_raise {A} (e : exn) : env_only (@raise World A e).
Proof. intros env. exists (inl e), []. intros tr0. unfold raise. rewrite app_nil_r. reflexivity. Qed.

Lemma env_only_bind {A B} (m : M World A) (k : A -> M World B) :
  env_only m -> (forall a, env_only (k a)) -> env_only (bind m k).
Proof.
  intros Hm Hk env. destruct (Hm env) as (res & tr & Hrun).
  destruct res as [e|a].
  - exists (inl e), tr. intros tr0. unfold bind. rewrite Hrun. reflexivity.
  - destruct (Hk a env) as (res2 & tr2 & Hrun2).
    exists res2, (tr ++ tr2). intros tr0. unfold bind. rewrite Hrun, Hrun2, app_assoc.
    reflexivity.
Qed.

Lemma env_only_tick (e : event) : env_only (tick e).
Proof. intros env. exists (inr tt), [e]. intros tr0. reflexivity. Qed.

Lemma env_only_lift_opt {A} (e : exn) (o : option A) : env_only (lift_opt e o).
Proof. destruct o; [apply env_only_ret | apply env_only_raise]. Qed.

Lemma env_only_getitem {A} (l : list A) (i : nat) : env_only (getitem l i).
Proof. apply env_only_lift_opt. Qed.

Lemma env_only_setitem {A} (l : list A) (i : nat) (v : A) : env_only (setitem l i v).
Proof. unfold setitem. destruct (decide _); [apply env_only_ret | apply env_only_raise]. Qed.

Lemma env_only_read {A} (f : Env -> M World A) :
  (forall env, env_only (f env)) -> env_only (w <~ get ;; f (w_env w)).
Proof.
  intros Hf env. destruct (Hf env env) as (res & tr & Hrun).
  exists res, tr. intros tr0. unfold bind, get. simpl. apply Hrun.
Qed.

Lemma env_only_nS : env_only env_nS.
Proof. apply (env_only_read (fun env => ret (nS env))). intros env. apply env_only_ret. Qed.

Lemma env_only_nA : env_only env_nA.
Proof. apply (env_only_read (fun env => ret (nA env))). intros env. apply env_only_ret. Qed.

Lemma env_only_P (s a : nat) : env_only (env_P s a).
Proof.
  apply (env_only_read (fun env =>
    by_action <~ lift_opt KeyError (P env !! s) ;; lift_opt KeyError (by_action !! a))).
  intros env. apply env_only_bind; [apply env_only_lift_opt|].
  intros row. apply env_only_lift_opt.
Qed.

Lemma env_only_for_each {A Acc} (l : list A) (body : A -> Acc -> M World Acc) :
  (forall x acc, env_only (body x acc)) -> forall acc, env_only (for_each l body acc).
Proof.
  intros Hbody. induction l as [|x l IH]; intros acc.
  - apply env_only_ret.
  - simpl. apply env_only_bind; [apply Hbody | exact IH].
Qed.

Lemma env_only_backup gamma vf slot trs acc : env_only (backup gamma vf slot trs acc).
Proof.
  apply env_only_for_each. intros [[[p ns] r] d] acc'.
  apply env_only_bind; [apply env_only_getitem|]. intros old.
  apply env_only_bind; [apply env_only_getitem|]. intros v.
  apply env_only_setitem.
Qed.

Lemma env_only_sweep policy gamma vf : env_only (sweep policy gamma vf).
Proof.
  apply env_only_for_each. intros [s a] tmp.
  apply env_only_bind; [apply env_only_P|]. intros trs. apply env_only_backup.
Qed.

Lemma env_only_policy_evaluation policy gamma n :
  env_only (policy_evaluation policy gamma n).
Proof.
  apply env_only_bind; [apply env_only_tick|]. intros _.
  apply env_only_bind; [apply env_only_nS|]. intros k.
  apply env_only_for_each. intros _ vf.
  apply env_only_bind; [apply env_only_tick|]. intros _. apply env_only_sweep.
Qed.

Lemma env_only_compute_action_value s vf gamma :
  env_only (compute_action_value s vf gamma).
Proof.
  apply env_only_bind; [apply env_only_nA|]. intros k.
  apply env_only_for_each. intros a av.
  apply env_only_bind; [apply env_only_P|]. intros trs. apply env_only_backup.
Qed.

Lemma env_only_policy_improvement vf gamma : env_only (policy_improvement vf gamma).
Proof.
  apply env_only_bind; [apply env_only_tick|]. intros _.
  apply env_only_bind; [apply env_only_nS|]. intros k.
  apply env_only_for_each. intros s pol.
  apply env_only_bind; [apply env_only_compute_action_value|]. intros av.
  apply env_only_bind; [apply env_only_lift_opt|]. intros best.
  apply env_only_setitem.
Qed.

Lemma env_only_policy_iteration policy0 max_iter :
  env_only (policy_iteration policy0 max_iter).
Proof.
  apply env_only_bind.
  - apply env_only_for_each. intros _ vars.
    apply env_only_bind; [apply env_only_policy_evaluation|]. intros vf.
    apply env_only_bind; [apply env_only_policy_improvement|]. intros pol.
    apply env_only_ret.
  - intros [[vf|] pol]; [apply env_only_ret | apply env_only_raise].
Qed.

Lemma env_only_frame {A} (m : M World A) (w : World) :
  env_only m -> w_env (snd (m w)) = w_env w.
Proof.
  intros Hm. destruct w as [env tr0]. destruct (Hm env) as (res & tr & Hrun).
  rewrite Hrun. reflexivity.
Qed.

Lemma env_only_deterministic {A} (m : M World A) (w1 w2 : World) :
  env_only m -> w_env w1 = w_env w2 -> fst (m w1) = fst (m w2).
Proof.
  intros Hm Heq. destruct w1 as [env tr1], w2 as [env2 tr2]. simpl in Heq. subst env2.
  destruct (Hm env) as (res & tr & Hrun). rewrite !Hrun. reflexivity.
Qed.

End EnvOnly.

Lemma policy_iteration_run (w : World) policy0 max_iter :
  wf_env (w_env w) = true -> valid_policy (w_env w) policy0 = true ->
  policy_iteration policy0 max_iter w =
    (match max_iter with
     | O => inl UnboundLocalError
     | S n =>
         let pol := snd (Nat.iter n (pi_step (w_env w)) (None, policy0)) in
         let v := eval_iter (w_env w) pol 1 100 in
         inr (v, greedy (w_env w) 1 v)
     end,
     add_trace w (concat (replicate max_iter round_trace))).
Proof.
  intros Hwf Hpol. unfold policy_iteration.
  rewrite (bind_ok _ _ _ _ _ (policy_iteration_loop_spec w policy0 max_iter Hwf Hpol)).
  destruct max_iter as [|n]; reflexivity.
Qed.

(** C6. On a well-formed transition table, [policy_iteration] ends after
    exactly [max_iter] rounds, each made of one call of [policy_evaluation]
    with bound 100, its 100 sweeps and one call of [policy_improvement];
    nothing ends the loop earlier.  After zero rounds the closing [return]
    finds [value_function] unbound; otherwise a value function and a policy
    are returned.  Evaluation and improvement consult nothing but the
    environment and their arguments, and leave the environment as it was. *)
Theorem policy_iteration_runs_max_iter_rounds
    (env : Env) (policy0 : list nat) (max_iter : nat) (tr0 : list event) :
  wf_env env = true -> valid_policy env policy0 = true ->
  let w := {| w_env := env; w_trace := tr0 |} in
  (w_env (snd (policy_iteration policy0 max_iter w)) = env /\
   w_trace (snd (policy_iteration policy0 max_iter w)) =
     tr0 ++ concat (replicate max_iter round_trace)) /\
  (max_iter = 0%nat -> fst (policy_iteration policy0 max_iter w) = inl UnboundLocalError) /\
  ((0 < max_iter)%nat ->
     exists v pol, fst (policy_iteration policy0 max_iter w) = inr (v, pol) /\
                   length v = nS env /\ valid_policy env pol = true) /\
  (forall pol gamma n, valid_policy env pol = true ->
     exists v, policy_evaluation pol gamma n w =
                 (inr v, add_trace w (EvEvaluate n :: replicate n EvSweep)) /\
               length v = nS env) /\
  (forall pol gamma n, env_only (policy_evaluation pol gamma n)) /\
  (forall vf gamma, env_only (policy_improvement vf gamma)).
Proof.
  intros Hwf Hpol w.
  rewrite (policy_iteration_run w policy0 max_iter Hwf Hpol).
  split; [split; reflexivity|]. split; [|split; [|split; [|split]]].
  - intros ->. reflexivity.
  - intros Hpos. destruct max_iter as [|n]; [lia|]. cbn [fst].
    eexists _, _. split; [reflexivity|]. split.
    + apply eval_iter_length.
      apply (valid_policy_inv env _ (pi_iter_valid env policy0 n Hpol)).
    + apply greedy_valid. eapply valid_policy_actions. exact Hpol.
  - intros pol gamma n Hv. eexists. split.
    + apply (policy_evaluation_spec w pol gamma n Hwf Hv).
    + apply eval_iter_length. apply (valid_policy_inv env _ Hv).
  - intros pol gamma n. apply env_only_policy_evaluation.
  - intros vf gamma. apply env_only_policy_improvement.
Qed.

(** ** Monotonicity of the Bellman operator and of greedy improvement *)

Lemma pointwise_le_refl u : pointwise_le u u.
Proof. unfold pointwise_le. induction u; constructor; [apply Qle_refl | assumption]. Qed.

Lemma pointwise_le_trans u v w :
  pointwise_le u v -> pointwise_le v w -> pointwise_le u w.
Proof.
  unfold pointwise_le. intros Huv. revert w.
  induction Huv as [|x y u v Hxy Huv IH]; intros w Hvw; inversion Hvw; subst; constructor.
  - eapply Qle_trans; eassumption.
  - apply IH. assumption.
Qed.

Lemma pointwise_le_default u w ns :
  pointwise_le u w -> default 0 (u !! ns) <= default 0 (w !! ns).
Proof.
  intros H. destruct (u !! ns) as [x|] eqn:Eu.
  - destruct (Forall2_lookup_l _ _ _ _ _ H Eu) as (y & Ew & Hxy). rewrite Ew. exact Hxy.
  - apply lookup_ge_None in Eu. rewrite (Forall2_length _ _ _ H) in Eu.
    apply lookup_ge_None in Eu. rewrite Eu. apply Qle_refl.
Qed.

Lemma backup_val_mono gamma u w trs x y :
  0 <= gamma ->
  Forall (fun t : transition => let '(p, _, _, _) := t in 0 <= p) trs ->
  pointwise_le u w -> x <= y ->
  backup_val gamma u trs x <= backup_val gamma w trs y.
Proof.
  intros Hg Htrs Huw. revert x y.
  induction Htrs as [|[[[p ns] r] d] trs Hp Htrs IH]; intros x y Hxy; simpl.
  - exact Hxy.
  - apply IH. pose proof (pointwise_le_default u w ns Huw) as Hd.
    set (a := default 0 (u !! ns)) in *. set (b := default 0 (w !! ns)) in *.
    simpl in Hp.
    assert (H1 : gamma * a <= gamma * b) by nra.
    assert (H2 : p * (r + gamma * a) <= p * (r + gamma * b)) by nra.
    lra.
Qed.

Lemma nonneg_probs_transitions env s a :
  nonneg_probs env = true ->
  Forall (fun t : transition => let '(p, _, _, _) := t in 0 <= p) (transitions_of env s a).
Proof.
  unfold nonneg_probs, transitions_of. intros Hall.
  destruct (P env !! s) as [row|] eqn:Erow; simpl; [|constructor].
  destruct (row !! a) as [trs|] eqn:Etrs; simpl; [|constructor].
  rewrite forallb_forall in Hall.
  assert (Hrow : In row (P env)) by (apply list_elem_of_In; eapply list_elem_of_lookup_2; eauto).
  apply Hall in Hrow. rewrite forallb_forall in Hrow.
  assert (Htrs : In trs row) by (apply list_elem_of_In; eapply list_elem_of_lookup_2; eauto).
  apply Hrow in Htrs. rewrite forallb_forall in Htrs.
  apply Forall_forall. intros [[[p ns] r] d] Ht.
  apply list_elem_of_In in Ht. apply Htrs in Ht. apply Qle_bool_iff. exact Ht.
Qed.

Lemma q_val_mono env gamma u w s a :
  0 <= gamma -> nonneg_probs env = true -> pointwise_le u w ->
  q_val env gamma u s a <= q_val env gamma w s a.
Proof.
  intros Hg Hp Huw. unfold q_val.
  apply backup_val_mono; [exact Hg | apply nonneg_probs_transitions; exact Hp | exact Huw |].
  apply Qle_refl.
Qed.

Lemma bellman_lookup env policy gamma vf s a :
  policy !! s = Some a -> bellman env policy gamma vf !! s = Some (q_val env gamma vf s a).
Proof. intros Ha. unfold bellman. rewrite list_lookup_imap, Ha. reflexivity. Qed.

Lemma bellman_lookup_inv env policy gamma vf s x :
  bellman env policy gamma vf !! s = Some x ->
  exists a, policy !! s = Some a /\ x = q_val env gamma vf s a.
Proof.
  unfold bellman. rewrite list_lookup_imap.
  destruct (policy !! s) as [a|]; simpl; [|discriminate]. intros [= <-]. eauto.
Qed.

Lemma bellman_mono env policy gamma u w :
  0 <= gamma -> nonneg_probs env = true -> pointwise_le u w ->
  pointwise_le (bellman env policy gamma u) (bellman env policy gamma w).
Proof.
  intros Hg Hp Huw. apply Forall2_same_length_lookup_2.
  - rewrite !bellman_length. reflexivity.
  - intros s x y Hx Hy.
    apply bellman_lookup_inv in Hx as (a & Ha & ->).
    apply bellman_lookup_inv in Hy as (a' & Ha' & ->).
    rewrite Ha in Ha'. inversion Ha'; subst a'.
    apply q_val_mono; assumption.
Qed.

(** The greedy policy's sweep dominates the sweep of the policy it
    replaces. *)
Lemma greedy_improves env policy gamma v :
  valid_policy env policy = true ->
  pointwise_le (bellman env policy gamma v) (bellman env (greedy env gamma v) gamma v).
Proof.
  intros Hpol. pose proof (valid_policy_inv _ _ Hpol) as [Hlen Hact].
  apply Forall2_same_length_lookup_2.
  - rewrite !bellman_length, greedy_length. exact Hlen.
  - intros s x y Hx Hy.
    apply bellman_lookup_inv in Hx as (a & Ha & ->).
    apply bellman_lookup_inv in Hy as (g & Hg & ->).
    assert (Hs : (s < nS env)%nat) by (rewrite <- Hlen; eapply lookup_lt_Some; exact Ha).
    destruct (greedy_optimal env gamma v s Hs) as (g' & Hg' & _ & Hbest).
    + apply (valid_policy_actions env policy Hpol). lia.
    + rewrite Hg in Hg'. inversion Hg'; subst g'. apply Hbest. eapply Hact. exact Ha.
Qed.

Lemma iter_bellman_above env policy gamma v n :
  0 <= gamma -> nonneg_probs env = true ->
  pointwise_le v (bellman env policy gamma v) ->
  pointwise_le v (Nat.iter n (bellman env policy gamma) v).
Proof.
  intros Hg Hp Hstep. induction n as [|n IH]; simpl.
  - apply pointwise_le_refl.
  - eapply pointwise_le_trans; [exact Hstep|].
    apply bellman_mono; assumption.
Qed.

Lemma iter_bellman_mono env policy gamma u w n :
  0 <= gamma -> nonneg_probs env = true -> pointwise_le u w ->
  pointwise_le (Nat.iter n (bellman env policy gamma) u)
               (Nat.iter n (bellman env policy gamma) w).
Proof.
  intros Hg Hp Huw. induction n as [|n IH]; simpl; [exact Huw|].
  apply bellman_mono; assumption.
Qed.

Lemma nonpositive_below_zeros v :
  Forall (fun x => x <= 0) v -> pointwise_le v (np_zeros (length v)).
Proof.
  intros H. unfold pointwise_le, np_zeros.
  induction H as [|x v Hx Hv IH]; simpl; constructor; assumption.
Qed.

(** One round does not lower a value function that is nowhere positive and
    that a further sweep of its own policy would not lower. *)
Lemma round_monotone env policy v :
  nonneg_probs env = true -> valid_policy env policy = true ->
  length v = nS env ->
  Forall (fun x => x <= 0) v ->
  pointwise_le v (bellman env policy 1 v) ->
  pointwise_le v (eval_iter env (greedy env 1 v) 1 100).
Proof.
  intros Hp Hpol Hlen Hneg Hsettled.
  assert (Hg : 0 <= 1) by lra.
  eapply pointwise_le_trans;
    [apply (iter_bellman_above env (greedy env 1 v) 1 v 100 Hg Hp)|].
  - eapply pointwise_le_trans; [exact Hsettled | apply greedy_improves; exact Hpol].
  - unfold eval_iter. apply iter_bellman_mono; [exact Hg | exact Hp |].
    rewrite <- Hlen. apply nonpositive_below_zeros. exact Hneg.
Qed.

Lemma policy_iteration_runs_max_iter_rounds_witness :
  wf_env corridor_env = true /\ valid_policy corridor_env [0; 1; 0]%nat = true /\
  w_trace (snd (policy_iteration [0; 1; 0]%nat 2 {| w_env := corridor_env; w_trace := [] |}))
    = [] ++ concat (replicate 2 round_trace).
Proof.
  split; [reflexivity|]. split; [reflexivity|].
  exact (proj2 (proj1 (policy_iteration_runs_max_iter_rounds
                         corridor_env [0; 1; 0]%nat 2 [] eq_refl eq_refl))).
Defined.

(** ** Successive rounds of policy iteration *)

Lemma run_loop_inv env policy0 n vars :
  wf_env env = true -> valid_policy env policy0 = true ->
  run env (policy_iteration_loop policy0 n) = inr vars ->
  vars = Nat.iter n (pi_step env) (None, policy0).
Proof.
  intros Hwf Hpol. unfold run.
  rewrite (policy_iteration_loop_spec (start env) policy0 n Hwf Hpol).
  simpl. congruence.
Qed.

Lemma run_policy_iteration_S env policy0 n :
  wf_env env = true -> valid_policy env policy0 = true ->
  run env (policy_iteration policy0 (S n)) =
    inr (eval_iter env (snd (Nat.iter n (pi_step env) (None, policy0))) 1 100,
         greedy env 1 (eval_iter env (snd (Nat.iter n (pi_step env) (None, policy0))) 1 100)).
Proof.
  intros Hwf Hpol. unfold run.
  rewrite (policy_iteration_run (start env) policy0 (S n) Hwf Hpol). reflexivity.
Qed.

(** C1 (amended). On a well-formed table with non-negative probabilities,
    if the value function of round [i] is nowhere positive and one further
    sweep of the policy it evaluates would not lower it anywhere, then round
    [i + 1] exists and its value function is pointwise at least that of
    round [i]. *)
Theorem policy_iteration_monotone_when_settled
    (env : Env) (policy0 : list nat) (i : nat)
    (vprev : option (list Q)) (pol pol' : list nat) (v v1 : list Q) :
  wf_env env = true -> nonneg_probs env = true -> valid_policy env policy0 = true ->
  run env (policy_iteration_loop policy0 i) = inr (vprev, pol) ->
  run env (policy_iteration policy0 (S i)) = inr (v, pol') ->
  run env (policy_evaluation pol 1 101) = inr v1 ->
  Forall (fun x => x <= 0) v ->
  pointwise_le v v1 ->
  exists v', consecutive_values env policy0 i v v' /\ pointwise_le v v'.
Proof.
  intros Hwf Hp Hpol0 Hloop Hrun Hmore Hneg Hsettled.
  apply (run_loop_inv env policy0 i _ Hwf Hpol0) in Hloop.
  assert (Hpol : valid_policy env pol = true).
  { replace pol with (snd (Nat.iter i (pi_step env) (None, policy0)))
      by (rewrite <- Hloop; reflexivity).
    apply pi_iter_valid. exact Hpol0. }
  rewrite (run_policy_iteration_S env policy0 i Hwf Hpol0) in Hrun.
  rewrite <- Hloop in Hrun. cbn [snd] in Hrun.
  assert (Hv : v = eval_iter env pol 1 100) by congruence.
  assert (Hpol' : pol' = greedy env 1 v) by congruence.
  unfold run in Hmore.
  rewrite (policy_evaluation_spec (start env) pol 1 101 Hwf Hpol) in Hmore.
  cbn [fst start w_env] in Hmore.
  assert (Hv1 : v1 = bellman env pol 1 v).
  { rewrite Hv. unfold eval_iter in *. inversion Hmore. reflexivity. }
  exists (eval_iter env (greedy env 1 v) 1 100). split.
  - exists pol', (greedy env 1 (eval_iter env (greedy env 1 v) 1 100)). split.
    + rewrite (run_policy_iteration_S env policy0 i Hwf Hpol0).
      rewrite <- Hloop. cbn [snd]. rewrite <- Hv, <- Hpol'. reflexivity.
    + rewrite (run_policy_iteration_S env policy0 (S i) Hwf Hpol0).
      change (Nat.iter (S i) (pi_step env) (None, policy0))
        with (pi_step env (Nat.iter i (pi_step env) (None, policy0))).
      rewrite <- Hloop. unfold pi_step. cbn [snd]. rewrite <- Hv. reflexivity.
  - apply (round_monotone env pol v Hp Hpol); [| exact Hneg | rewrite <- Hv1; exact Hsettled].
    rewrite Hv. apply eval_iter_length. apply (valid_policy_inv env pol Hpol).
Qed.

Ltac qcompare :=
  vm_compute;
  first [reflexivity | discriminate | let H := fresh in intro H; discriminate H].

Lemma policy_iteration_monotone_when_settled_witness :
  (wf_env detour_env = true /\ nonneg_probs detour_env = true /\
   valid_policy detour_env [0; 0; 0]%nat = true) /\
  (run detour_env (policy_iteration_loop [0; 0; 0]%nat 0) = inr (None, [0; 0; 0]%nat) /\
   run detour_env (policy_iteration [0; 0; 0]%nat 1) = inr ([-6; -5; 0], [1; 0; 0]%nat) /\
   run detour_env (policy_evaluation [0; 0; 0]%nat 1 101) = inr [-6; -5; 0]) /\
  (Forall (fun x => x <= 0) [-6; -5; 0] /\ pointwise_le [-6; -5; 0] [-6; -5; 0]) /\
  exists v', consecutive_values detour_env [0; 0; 0]%nat 0 [-6; -5; 0] v' /\
             pointwise_le [-6; -5; 0] v'.
Proof.
  assert (Hneg : Forall (fun x => x <= 0) [-6; -5; 0]) by (repeat constructor; qcompare).
  assert (Hle : pointwise_le [-6; -5; 0] [-6; -5; 0])
    by (unfold pointwise_le; repeat constructor; qcompare).
  split; [repeat split; reflexivity|]. split; [repeat split; vm_compute; reflexivity|].
  split; [split; assumption|].
  apply (policy_iteration_monotone_when_settled detour_env [0; 0; 0]%nat 0
           None [0; 0; 0]%nat [1; 0; 0]%nat [-6; -5; 0] [-6; -5; 0]);
    try (vm_compute; reflexivity); assumption.
Defined.

(** In the corridor the second round undoes the first: the greedy step
    breaks the tie in the middle cell towards the start, and the next
    evaluation finds value 0 where the previous one found 1. *)
Lemma policy_iteration_monotone_counterexample :
  (wf_env corridor_env = true /\ nonneg_probs corridor_env = true /\
   valid_policy corridor_env [0; 1; 0]%nat = true) /\
  consecutive_values corridor_env [0; 1; 0]%nat 0 [1; 1; 0] [0; 0; 0] /\
  ~ pointwise_le [1; 1; 0] [0; 0; 0].
Proof.
  split; [repeat split; reflexivity|]. split.
  - exists [0; 0; 0]%nat, [0; 1; 0]%nat. split; vm_compute; reflexivity.
  - intros H. inversion H as [|x y u w Hxy _]; subst. apply Hxy. reflexivity.
Qed.

(** Whatever the first draw, the corridor sees a round that lowers the
    value function. *)
Lemma corridor_never_monotone (policy0 : list nat) :
  valid_policy corridor_env policy0 = true ->
  exists i, consecutive_values corridor_env policy0 i [1; 1; 0] [0; 0; 0].
Proof.
  intros Hpol. pose proof (valid_policy_inv _ _ Hpol) as [Hlen Hact].
  destruct policy0 as [|a [|b [|c [|]]]]; try discriminate Hlen.
  assert (Ha : (a < 2)%nat) by (apply (Hact 0%nat); reflexivity).
  assert (Hb : (b < 2)%nat) by (apply (Hact 1%nat); reflexivity).
  assert (Hc : (c < 2)%nat) by (apply (Hact 2%nat); reflexivity).
  assert (Ea : a = 0%nat \/ a = 1%nat) by lia.
  assert (Eb : b = 0%nat \/ b = 1%nat) by lia.
  assert (Ec : c = 0%nat \/ c = 1%nat) by lia.
  destruct Eb as [-> | ->].
  - exists 1%nat. destruct Ea as [-> | ->], Ec as [-> | ->];
      (exists [0; 0; 0]%nat, [0; 1; 0]%nat; split; vm_compute; reflexivity).
  - exists 0%nat. destruct Ea as [-> | ->], Ec as [-> | ->];
      (exists [0; 0; 0]%nat, [0; 1; 0]%nat; split; vm_compute; reflexivity).
Qed.

(** ** The recommender *)

(** Only the first ten components of the scores are looked at. *)
Lemma recommend_truncates argsort latents bought_id n :
  recommend argsort latents bought_id n =
  recommend argsort (map (take 10) latents) bought_id n.
Proof.
  unfold recommend. rewrite map_map.
  assert (E : map (fun x => take 10 (take 10 x)) latents = map (take 10) latents).
  { apply map_ext. intros row. rewrite take_take. f_equal. }
  rewrite E. reflexivity.
Qed.

Lemma insert_sorted_perm d i l : Permutation (insert_sorted d i l) (i :: l).
Proof.
  induction l as [|j l IH]; simpl; [reflexivity|].
  destruct (Qle_bool (key_at d i) (key_at d j)); [reflexivity|].
  rewrite IH. apply perm_swap.
Qed.

Lemma insert_sorted_sorted d i l :
  StronglySorted (fun x y => key_at d x <= key_at d y) l ->
  StronglySorted (fun x y => key_at d x <= key_at d y) (insert_sorted d i l).
Proof.
  induction 1 as [|j l Hl IH Hj]; simpl.
  - repeat constructor.
  - destruct (Qle_bool (key_at d i) (key_at d j)) eqn:E.
    + apply Qle_bool_iff in E. constructor; [constructor; assumption|].
      constructor; [exact E|].
      eapply Forall_impl; [exact Hj|]. intros k Hk. simpl in Hk.
      eapply Qle_trans; eassumption.
    + constructor; [exact IH|].
      assert (Hji : key_at d j <= key_at d i).
      { apply Qlt_le_weak. apply Qltb_lt. unfold Qltb. rewrite E. reflexivity. }
      rewrite insert_sorted_perm. constructor; assumption.
Qed.

Lemma sorted_ascending d perm :
  StronglySorted (fun x y => key_at d x <= key_at d y) perm -> ascending d perm.
Proof.
  induction 1 as [|j l Hl IH Hj]; intros a b x y Hab Ha Hb.
  - rewrite lookup_nil in Ha. discriminate.
  - destruct a as [|a], b as [|b]; simpl in Ha, Hb.
    + inversion Ha; inversion Hb; subst. apply Qle_refl.
    + inversion Ha; subst. rewrite Forall_forall in Hj. apply Hj.
      eapply list_elem_of_lookup_2. exact Hb.
    + lia.
    + apply (IH a b); [lia | assumption | assumption].
Qed.

(** The index-order-preserving sort meets the contract of [np.argsort]. *)
Lemma stable_argsort_contract : argsort_contract stable_argsort.
Proof.
  intros d. unfold stable_argsort. generalize (seq 0 (length d)) as l.
  intros l. split.
  - induction l as [|i l IH]; simpl; [reflexivity|].
    rewrite insert_sorted_perm, IH. reflexivity.
  - apply sorted_ascending. induction l as [|i l IH]; simpl; [constructor|].
    apply insert_sorted_sorted. exact IH.
Qed.

(** C8 (defect). With two catalogue items of equal scores, asking for one
    recommendation after buying item 1 returns item 1 itself: both
    distances are zero, the sort keeps item 0 first, and the slice that
    skips position 0 keeps the bought item. *)
Theorem recommend_returns_bought_item :
  recommend stable_argsort twin_latents 1 1 = inr [1%nat].
Proof. vm_compute. reflexivity. Qed.

(** No order of the tie avoids it: under any sort meeting the contract, one
    of the two twins is recommended to its own buyer. *)
Lemma recommend_twin_any_order (argsort : list Q -> list nat) :
  argsort_contract argsort ->
  recommend argsort twin_latents 0 1 = inr [0%nat] \/
  recommend argsort twin_latents 1 1 = inr [1%nat].
Proof.
  intros Hc. destruct (Hc [0 + (1 - 1) * (1 - 1) + (2 - 2) * (2 - 2);
                           0 + (1 - 1) * (1 - 1) + (2 - 2) * (2 - 2)]) as [Hperm _].
  simpl in Hperm. symmetry in Hperm.
  apply Permutation_length_2_inv in Hperm.
  unfold recommend, twin_latents, sq_dist. simpl.
  destruct Hperm as [-> | ->]; [right | left]; reflexivity.
Qed.

Lemma fold_zeros (l : list Q) (acc : Q) :
  Forall (fun x => x == 0) l -> fold_left Qplus l acc == acc.
Proof.
  intros H. revert acc. induction H as [|x l Hx Hl IH]; intros acc; simpl.
  - reflexivity.
  - rewrite IH, Hx. ring.
Qed.

Lemma sq_dist_self (row : list Q) : sq_dist row row == 0.
Proof.
  unfold sq_dist. apply fold_zeros.
  induction row as [|a row IH]; simpl; constructor; [ring | exact IH].
Qed.

(** X9. Where the slice does what it is there for: when every other item
    is at a positive distance, the bought item sorts first and is not among
    the recommendations. *)
Lemma recommend_excludes_bought_without_ties
    (argsort : list Q -> list nat) (latents : list (list Q)) (b n : nat) (ref : list Q) :
  argsort_contract argsort ->
  map (take 10) latents !! b = Some ref ->
  (forall j row, j <> b -> map (take 10) latents !! j = Some row -> 0 < sq_dist row ref) ->
  exists ids, recommend argsort latents b n = inr ids /\ b ∉ ids.
Proof.
  intros Hc Hb Hpos. unfold recommend. rewrite Hb.
  set (d := map (fun row => sq_dist row ref) (map (take 10) latents)).
  destruct (Hc d) as [Hperm Hasc].
  eexists. split; [reflexivity|].
  assert (Hnodup : NoDup (argsort d)) by (rewrite Hperm; apply NoDup_seq).
  assert (Hkey_b : key_at d b == 0).
  { unfold key_at, d. change (map ?f ?l) with (f <$> l) at 1.
    rewrite list_lookup_fmap, Hb. simpl. apply sq_dist_self. }
  assert (Hkey_pos : forall j, j <> b -> j ∈ argsort d -> 0 < key_at d j).
  { intros j Hne Hin. rewrite Hperm in Hin. apply elem_of_seq in Hin as [_ Hj].
    simpl in Hj. unfold d in Hj. rewrite length_map in Hj.
    destruct (lookup_lt_is_Some_2 (map (take 10) latents) j Hj) as [row Hrow].
    unfold key_at, d. change (map ?f ?l) with (f <$> l) at 1.
    rewrite list_lookup_fmap, Hrow. simpl. apply (Hpos j row Hne Hrow). }
  assert (Hfirst : argsort d !! 0%nat = Some b).
  { assert (Hin : b ∈ argsort d).
    { rewrite Hperm. apply elem_of_seq. split; [lia|]. simpl. unfold d.
      rewrite length_map. eapply lookup_lt_Some. exact Hb. }
    apply list_elem_of_lookup in Hin as [k Hk].
    destruct k as [|k]; [exact Hk|]. exfalso.
    destruct (lookup_lt_is_Some_2 (argsort d) 0%nat) as [j Hj].
    { apply lookup_lt_Some in Hk. lia. }
    assert (Hne : j <> b).
    { intros ->. pose proof (NoDup_lookup _ _ _ _ Hnodup Hj Hk). discriminate. }
    pose proof (Hkey_pos j Hne (list_elem_of_lookup_2 _ _ _ Hj)) as Hjpos.
    pose proof (Hasc 0%nat (S k) j b ltac:(lia) Hj Hk) as Hle.
    rewrite Hkey_b in Hle. eapply Qlt_not_le; eassumption. }
  intros Hin. apply list_elem_of_lookup in Hin as [i Hi].
  apply lookup_take_Some in Hi as [Hi _]. rewrite lookup_drop in Hi.
  pose proof (NoDup_lookup _ _ _ _ Hnodup Hfirst Hi). discriminate.
Qed.

(** * Further properties *)

(** ** The coin-flip experiment *)

Lemma algorithm_p_hat_indicator_cases (x : list Q) (p : Q) :
  (algorithm_p_hat x (indicator x p) = inr 0 /\ Forall (fun xi => p <= xi) x) \/
  (exists r i, algorithm_p_hat x (indicator x p) = inr r /\ x !! i = Some r /\ r < p /\
               Forall (fun xi => xi < p -> xi <= r) x).
Proof.
  assert (Hlen : length x = length (indicator x p))
    by (unfold indicator; rewrite length_map; reflexivity).
  destruct (algorithm_p_hat_cases x (indicator x p) Hlen) as [[H0 Hnone] | Hsome].
  - left. split; [exact H0|]. apply Forall_lookup. intros i xi Hx.
    destruct (Qltb xi p) eqn:E; [|apply Qltb_ge; exact E]. exfalso.
    apply (Hnone i 1); [|reflexivity].
    unfold indicator. change (map ?f x) with (f <$> x).
    rewrite list_lookup_fmap, Hx. simpl. rewrite E. reflexivity.
  - right. destruct Hsome as (r & Hr & (i & yi & Hx & Hy & Heq) & Hub).
    exists r, i. split; [exact Hr|]. split; [exact Hx|].
    apply indicator_lookup in Hy as (xi & Hx' & ->).
    rewrite Hx in Hx'. inversion Hx'; subst xi. split.
    + destruct (Qltb r p) eqn:E; [apply Qltb_lt; exact E|]. exfalso. discriminate Heq.
    + apply Forall_lookup. intros j xj Hxj Hlt. apply (Hub j xj 1 Hxj); [|reflexivity].
      unfold indicator. change (map ?f x) with (f <$> x).
      rewrite list_lookup_fmap, Hxj. simpl.
      apply Qltb_lt in Hlt. rewrite Hlt. reflexivity.
Qed.

Lemma p_hat_below_threshold (draw : list Q) (p : Q) :
  0 < p ->
  exists p_hat,
    algorithm_p_hat draw (indicator draw p) = inr p_hat /\ p_hat < p /\
    (Forall (fun xi => 0 <= xi) draw -> 0 <= p_hat).
Proof.
  intros Hp.
  destruct (algorithm_p_hat_indicator_cases draw p) as [[H0 _] | (r & i & Hr & Hx & Hlt & _)].
  - exists 0. split; [exact H0|]. split; [exact Hp|]. intros _. lra.
  - exists r. split; [exact Hr|]. split; [exact Hlt|].
    intros Hpos. exact (Forall_lookup_1 _ _ _ _ Hpos Hx).
Qed.

(** X1. On a sample labelled by [flip_coin] with a positive threshold, the
    estimate is strictly below the threshold, so the population risk
    [R_pop] is strictly positive; when the draws are non-negative the
    estimate is non-negative and the risk is at most the threshold. *)
Theorem R_pop_positive_and_bounded (draw : list Q) (p : Q) :
  0 < p ->
  exists p_hat,
    algorithm_p_hat (fst (flip_coin draw p)) (snd (flip_coin draw p)) = inr p_hat /\
    p_hat < p /\ 0 < R_pop p_hat p /\
    (Forall (fun xi => 0 <= xi) draw -> 0 <= p_hat /\ R_pop p_hat p <= p).
Proof.
  intros Hp. unfold flip_coin, R_pop. cbn [fst snd].
  destruct (p_hat_below_threshold draw p Hp) as (p_hat & Hr & Hlt & Hpos).
  exists p_hat. split; [exact Hr|]. split; [exact Hlt|]. split; [lra|].
  intros Hall. specialize (Hpos Hall). split; lra.
Qed.

Lemma R_pop_positive_and_bounded_witness :
  0 < 3 # 10 /\
  exists p_hat,
    algorithm_p_hat (fst (flip_coin [1 # 2; 1 # 4; 1 # 5] (3 # 10)))
                    (snd (flip_coin [1 # 2; 1 # 4; 1 # 5] (3 # 10))) = inr p_hat /\
    p_hat < 3 # 10.
Proof.
  assert (H : 0 < 3 # 10) by reflexivity.
  split; [exact H|].
  destruct (R_pop_positive_and_bounded [1 # 2; 1 # 4; 1 # 5] (3 # 10) H)
    as (p_hat & Hrun & Hlt & _).
  exists p_hat. split; assumption.
Defined.

Lemma indicator_differs (t a b : Q) :
  a <= b ->
  ((if Qltb t a then 1 else 0) == (if Qltb t b then 1 else 0) <-> ~ (a <= t /\ t < b)).
Proof.
  intros Hab. destruct (Qltb t a) eqn:Ea, (Qltb t b) eqn:Eb.
  - apply Qltb_lt in Ea. split; [intros _ [H1 _]; lra | reflexivity].
  - apply Qltb_lt in Ea. apply Qltb_ge in Eb. exfalso. lra.
  - apply Qltb_ge in Ea. apply Qltb_lt in Eb. split.
    + intros H. discriminate H.
    + intros H. exfalso. apply H. split; assumption.
  - apply Qltb_ge in Eb. split; [intros _ [_ H2]; lra | reflexivity].
Qed.

(** X2. The learned classifier [f_hat] and the labelling rule [f_star]
    answer differently at a point exactly when the point lies in
    [[p_hat, p_star)], the interval whose length is [R_pop]. *)
Theorem f_hat_errs_between_thresholds (p_hat : Q) (x : list Q) (i : nat) (t : Q) :
  p_hat <= p_star -> x !! i = Some t ->
  exists a b, f_hat p_hat x !! i = Some a /\ f_star x !! i = Some b /\
    (~ a == b <-> p_hat <= t /\ t < p_star) /\
    (p_star - R_pop p_hat p_star == p_hat).
Proof.
  intros Hle Hx. unfold f_hat, f_star, indicator.
  change (map ?f x) with (f <$> x). rewrite !list_lookup_fmap, Hx. simpl.
  eexists _, _. split; [reflexivity|]. split; [reflexivity|]. split.
  - pose proof (indicator_differs t p_hat p_star Hle) as H. split.
    + intros Hne. destruct (Qlt_le_dec t p_hat) as [H1|H1];
        [exfalso; apply Hne, H; intros [H2 _]; lra|].
      destruct (Qlt_le_dec t p_star) as [H2|H2]; [split; assumption|].
      exfalso. apply Hne, H. intros [_ H3]. lra.
    + intros Hin Heq. apply H in Heq. contradiction.
  - unfold R_pop. ring.
Qed.

Lemma f_hat_errs_between_thresholds_witness :
  1 # 4 <= p_star /\ [1 # 10; 3 # 10] !! 1%nat = Some (3 # 10) /\
  exists a b, f_hat (1 # 4) [1 # 10; 3 # 10] !! 1%nat = Some a /\
              f_star [1 # 10; 3 # 10] !! 1%nat = Some b /\
              (~ a == b <-> 1 # 4 <= 3 # 10 /\ 3 # 10 < p_star).
Proof.
  assert (H : 1 # 4 <= p_star) by (vm_compute; intro Hc; discriminate Hc).
  split; [exact H|]. split; [reflexivity|].
  destruct (f_hat_errs_between_thresholds (1 # 4) [1 # 10; 3 # 10] 1 (3 # 10) H eq_refl)
    as (a & b & Ha & Hb & Hiff & _).
  exists a, b. repeat split; try assumption; apply Hiff.
Defined.

Lemma consistency_check_true (h : list Q -> list Q) (x y : list Q) :
  length (h x) = length y ->
  (consistency_check h x y = true <->
   forall i a b, h x !! i = Some a -> y !! i = Some b -> a == b).
Proof.
  intros Hlen. unfold consistency_check. rewrite andb_true_iff, bool_decide_eq_true.
  rewrite forallb_forall. split.
  - intros [_ Hall] i a b Ha Hb. apply Qeq_bool_iff.
    apply (Hall (a, b)). apply list_elem_of_In. apply list_elem_of_lookup. exists i.
    apply lookup_zip_with_Some. eauto.
  - intros Hall. split; [exact Hlen|]. intros [a b] Hin.
    apply list_elem_of_In, list_elem_of_lookup in Hin as [i Hi].
    apply lookup_zip_with_Some in Hi as (a' & b' & [= -> ->] & Ha & Hb).
    apply Qeq_bool_iff. eapply Hall; eassumption.
Qed.

(** X3. The classifier learned from a sample reproduces the labels of that
    very sample only when no label is 1: otherwise the largest positively
    labelled point sits on the learned threshold, where the strict
    comparison of [indicator] answers 0. *)
Theorem f_hat_consistent_iff_no_heads (x : list Q) (p : Q) :
  0 <= p ->
  exists p_hat,
    algorithm_p_hat x (indicator x p) = inr p_hat /\
    (consistency_check (f_hat p_hat) x (indicator x p) = true <->
     Forall (fun xi => p <= xi) x).
Proof.
  intros Hp.
  assert (Hlen : forall q, length (f_hat q x) = length (indicator x p))
    by (intros q; unfold f_hat, indicator; rewrite !length_map; reflexivity).
  destruct (algorithm_p_hat_indicator_cases x p)
    as [[H0 Hnone] | (r & i & Hr & Hx & Hlt & Hub)].
  - exists 0. split; [exact H0|]. split; [intros _; exact Hnone|]. intros _.
    apply consistency_check_true; [apply Hlen|].
    intros j a b Ha Hb. apply indicator_lookup in Ha as (xj & Hxj & ->).
    apply indicator_lookup in Hb as (xj' & Hxj' & ->).
    rewrite Hxj in Hxj'. inversion Hxj'; subst xj'.
    pose proof (Forall_lookup_1 _ _ _ _ Hnone Hxj) as Hge. simpl in Hge.
    assert (E1 : Qltb xj 0 = false) by (apply Qltb_ge; lra).
    assert (E2 : Qltb xj p = false) by (apply Qltb_ge; exact Hge).
    rewrite E1, E2. reflexivity.
  - exists r. split; [exact Hr|]. split.
    + intros Hc. exfalso.
      pose proof (proj1 (consistency_check_true _ _ _ (Hlen r)) Hc i 0 1) as Hc'.
      clear Hc. revert Hc'.
      unfold f_hat, indicator. change (map ?f x) with (f <$> x).
      rewrite !list_lookup_fmap, Hx. simpl.
      assert (E1 : Qltb r r = false) by (apply Qltb_ge; apply Qle_refl).
      assert (E2 : Qltb r p = true) by (apply Qltb_lt; exact Hlt).
      rewrite E1, E2. intros Hc. specialize (Hc eq_refl eq_refl). discriminate Hc.
    + intros Hnone. exfalso.
      pose proof (Forall_lookup_1 _ _ _ _ Hnone Hx) as Hge. simpl in Hge. lra.
Qed.

Lemma f_hat_consistent_iff_no_heads_witness :
  0 <= 3 # 10 /\
  exists p_hat,
    algorithm_p_hat [1 # 2; 1 # 4] (indicator [1 # 2; 1 # 4] (3 # 10)) = inr p_hat /\
    (consistency_check (f_hat p_hat) [1 # 2; 1 # 4] (indicator [1 # 2; 1 # 4] (3 # 10)) = true
     <-> Forall (fun xi => 3 # 10 <= xi) [1 # 2; 1 # 4]).
Proof.
  assert (H : 0 <= 3 # 10) by (vm_compute; intro Hc; discriminate Hc).
  split; [exact H|].
  exact (f_hat_consistent_iff_no_heads [1 # 2; 1 # 4] (3 # 10) H).
Defined.

(** X4. [sample_p_hats] never raises: it returns one estimate per trial,
    each strictly below [p_star], and non-negative when the draws are. *)
Theorem sample_p_hats_estimates (draws : list (list Q)) :
  exists p_hats,
    sample_p_hats draws = inr p_hats /\
    length p_hats = length draws /\
    Forall (fun p_hat => p_hat < p_star) p_hats /\
    (Forall (Forall (fun xi => 0 <= xi)) draws -> Forall (fun p_hat => 0 <= p_hat) p_hats).
Proof.
  assert (Hp : 0 < p_star) by reflexivity.
  induction draws as [|draw rest (ps & Hrun & Hlen & Hlt & Hpos)].
  - exists []. repeat split; constructor.
  - destruct (p_hat_below_threshold draw p_star Hp) as (p_hat & Hr & Hlt1 & Hpos1).
    exists (p_hat :: ps). split.
    + simpl. rewrite Hr, Hrun. reflexivity.
    + split; [simpl; congruence|]. split; [constructor; assumption|].
      intros Hall. inversion Hall; subst. constructor; [apply Hpos1; assumption|].
      apply Hpos. assumption.
Qed.

(** ** The closed-form distribution functions *)

Lemma Qpower_succ (x : Q) (n : nat) : x ^ Z.of_nat (S n) == x * x ^ Z.of_nat n.
Proof.
  rewrite Nat2Z.inj_succ. unfold Z.succ. rewrite Z.add_comm.
  rewrite Qpower_plus' by lia. rewrite Qpower_1_r. reflexivity.
Qed.

Lemma Qpower_base_mono (a b : Q) (n : nat) :
  0 <= a -> a <= b -> a ^ Z.of_nat n <= b ^ Z.of_nat n.
Proof.
  intros Ha Hab. induction n as [|n IH].
  - simpl. apply Qle_refl.
  - rewrite !Qpower_succ.
    apply Qmult_le_compat_nonneg; split; try assumption.
    apply Qpower_0_le. exact Ha.
Qed.

Lemma Qpower_le_one (a : Q) (n : nat) : 0 <= a -> a <= 1 -> a ^ Z.of_nat n <= 1.
Proof.
  intros H0 H1. rewrite <- (Qpower_1 (Z.of_nat n)). apply Qpower_base_mono; assumption.
Qed.

(** X5. For a threshold in [0, 1] and any sample size, [p_hat_CDF] is a
    distribution function on [[0, p_star]]: it is non-decreasing there,
    stays between 0 and 1, and reaches 1 at [z = p_star]. *)
Theorem p_hat_CDF_distribution (z z' p : Q) (N : nat) :
  0 <= p -> p <= 1 -> 0 <= z -> z <= z' -> z' <= p ->
  0 <= p_hat_CDF z p N /\
  p_hat_CDF z p N <= p_hat_CDF z' p N /\
  p_hat_CDF z' p N <= 1 /\
  p_hat_CDF p p N == 1.
Proof.
  intros Hp0 Hp1 Hz Hzz Hzp. unfold p_hat_CDF. repeat split.
  - apply Qpower_0_le. lra.
  - apply Qpower_base_mono; lra.
  - apply Qpower_le_one; lra.
  - assert (E : 1 - p + p == 1) by ring. rewrite E. apply Qpower_1.
Qed.

Lemma p_hat_CDF_distribution_witness :
  (0 <= p_star /\ p_star <= 1 /\ 0 <= 1 # 10 /\ 1 # 10 <= 2 # 10 /\ 2 # 10 <= p_star) /\
  p_hat_CDF (1 # 10) p_star 5 <= p_hat_CDF (2 # 10) p_star 5.
Proof.
  assert (H1 : 0 <= p_star) by (vm_compute; intro Hc; discriminate Hc).
  assert (H2 : p_star <= 1) by (vm_compute; intro Hc; discriminate Hc).
  assert (H3 : 0 <= 1 # 10) by (vm_compute; intro Hc; discriminate Hc).
  assert (H4 : 1 # 10 <= 2 # 10) by (vm_compute; intro Hc; discriminate Hc).
  assert (H5 : 2 # 10 <= p_star) by (vm_compute; intro Hc; discriminate Hc).
  split; [repeat split; assumption|].
  exact (proj1 (proj2 (p_hat_CDF_distribution (1 # 10) (2 # 10) p_star 5 H1 H2 H3 H4 H5))).
Defined.

(** X6. Away from [z = p_star], [R_pop_CDF] is [1 - p_hat_CDF] at the
    mirrored point [p_star - z]; on [[0, p_star]] it is non-decreasing, stays
    between 0 and 1, and takes the value 1 at [z = p_star]. *)
Theorem R_pop_CDF_mirrors_p_hat_CDF (z z' p : Q) (N : nat) :
  0 <= z -> z <= z' -> z' <= p -> p <= 1 ->
  (~ z == p -> R_pop_CDF z p N == 1 - p_hat_CDF (p - z) p N) /\
  0 <= R_pop_CDF z p N /\
  R_pop_CDF z p N <= R_pop_CDF z' p N /\
  R_pop_CDF z' p N <= 1 /\
  R_pop_CDF p p N = 1.
Proof.
  intros Hz Hzz Hzp Hp1.
  assert (Hhi : forall w, w <= 1 -> 1 - (1 - w) ^ Z.of_nat N <= 1).
  { intros w H1. pose proof (Qpower_0_le (1 - w) (Z.of_nat N) ltac:(lra)). lra. }
  assert (Hlo : forall w, 0 <= w -> w <= 1 -> 0 <= 1 - (1 - w) ^ Z.of_nat N).
  { intros w H0 H1. pose proof (Qpower_le_one (1 - w) N ltac:(lra) ltac:(lra)). lra. }
  unfold R_pop_CDF, p_hat_CDF. split; [|split; [|split; [|split]]].
  - intros Hne. destruct (Qeq_bool z p) eqn:E; [apply Qeq_bool_iff in E; contradiction|].
    assert (E' : 1 - p + (p - z) == 1 - z) by ring. rewrite E'. reflexivity.
  - destruct (Qeq_bool z p); [lra | apply Hlo; lra].
  - destruct (Qeq_bool z' p) eqn:E'.
    + destruct (Qeq_bool z p); [lra | apply Hhi; lra].
    + destruct (Qeq_bool z p) eqn:E.
      * exfalso. apply Qeq_bool_iff in E.
        assert (Hne : ~ z' == p) by (intros H; apply Qeq_bool_iff in H; congruence).
        apply Hne. lra.
      * pose proof (Qpower_base_mono (1 - z') (1 - z) N ltac:(lra) ltac:(lra)) as Hm. lra.
  - destruct (Qeq_bool z' p); [lra | apply Hhi; lra].
  - rewrite Qeq_bool_refl. reflexivity.
Qed.

Lemma R_pop_CDF_mirrors_p_hat_CDF_witness :
  (0 <= 1 # 10 /\ 1 # 10 <= 2 # 10 /\ 2 # 10 <= p_star /\ p_star <= 1) /\
  R_pop_CDF (1 # 10) p_star 5 <= R_pop_CDF (2 # 10) p_star 5.
Proof.
  assert (H1 : 0 <= 1 # 10) by (vm_compute; intro Hc; discriminate Hc).
  assert (H2 : 1 # 10 <= 2 # 10) by (vm_compute; intro Hc; discriminate Hc).
  assert (H3 : 2 # 10 <= p_star) by (vm_compute; intro Hc; discriminate Hc).
  assert (H4 : p_star <= 1) by (vm_compute; intro Hc; discriminate Hc).
  split; [repeat split; assumption|].
  exact (proj1 (proj2 (proj2
           (R_pop_CDF_mirrors_p_hat_CDF (1 # 10) (2 # 10) p_star 5 H1 H2 H3 H4)))).
Defined.

(** ** More on the recommender *)

Lemma key_at_distances (latents : list (list Q)) (b i : nat) (ref : list Q) :
  map (take 10) latents !! b = Some ref -> (i < length latents)%nat ->
  key_at (map (fun row => sq_dist row ref) (map (take 10) latents)) i = dist_to latents b i.
Proof.
  intros Hb Hi. unfold key_at, dist_to.
  change (map ?f ?l) with (f <$> l) in *.
  rewrite !list_lookup_fmap in *.
  destruct (lookup_lt_is_Some_2 latents i Hi) as [row Hrow]. rewrite Hrow. simpl.
  destruct (latents !! b) as [rb|]; simpl in Hb; [|discriminate].
  inversion Hb; subst. reflexivity.
Qed.

Lemma recommend_run (argsort : list Q -> list nat) (latents : list (list Q)) (b n : nat) :
  (b < length latents)%nat ->
  exists ref, map (take 10) latents !! b = Some ref /\
    recommend argsort latents b n =
      inr (take n (drop 1 (argsort (map (fun row => sq_dist row ref)
                                        (map (take 10) latents))))).
Proof.
  intros Hb.
  destruct (lookup_lt_is_Some_2 (map (take 10) latents) b) as [ref Href];
    [rewrite length_map; exact Hb|].
  exists ref. split; [exact Href|]. unfold recommend. rewrite Href. reflexivity.
Qed.

(** X7. For a valid item, [recommend] returns [min(num, n - 1)] ids, where
    [n] is the catalogue size: all are valid ids, no id occurs twice, and
    asking for more than the catalogue holds raises nothing. *)
Theorem recommend_ids_valid_distinct
    (argsort : list Q -> list nat) (latents : list (list Q)) (b n : nat) :
  argsort_contract argsort -> (b < length latents)%nat ->
  exists ids, recommend argsort latents b n = inr ids /\
    length ids = Nat.min n (length latents - 1) /\
    NoDup ids /\
    Forall (fun i => (i < length latents)%nat) ids.
Proof.
  intros Hc Hb. destruct (recommend_run argsort latents b n Hb) as (ref & Href & Hrun).
  set (d := map (fun row => sq_dist row ref) (map (take 10) latents)) in *.
  destruct (Hc d) as [Hperm _].
  assert (Hd : length d = length latents) by (unfold d; rewrite !length_map; reflexivity).
  eexists. split; [exact Hrun|]. split; [|split].
  - rewrite length_take, length_drop, (Permutation_length Hperm), length_seq, Hd. lia.
  - assert (Hnd : NoDup (argsort d)) by (rewrite Hperm; apply NoDup_seq).
    apply (sublist_NoDup _ (argsort d)); [exact Hnd|].
    etransitivity; [apply sublist_take | apply sublist_drop].
  - apply Forall_forall. intros i Hi.
    assert (Hin : i ∈ argsort d).
    { apply elem_of_take in Hi as (k & Hk & _). rewrite lookup_drop in Hk.
      eapply list_elem_of_lookup_2. exact Hk. }
    rewrite Hperm in Hin. apply elem_of_seq in Hin. lia.
Qed.

Lemma recommend_ids_valid_distinct_witness :
  argsort_contract stable_argsort /\ (1 < length [[1; 2]; [1; 3]; [5; 5]])%nat /\
  exists ids, recommend stable_argsort [[1; 2]; [1; 3]; [5; 5]] 1 7 = inr ids /\
              length ids = Nat.min 7 (length [[1; 2]; [1; 3]; [5; 5]] - 1).
Proof.
  split; [exact stable_argsort_contract|]. split; [simpl; lia|].
  destruct (recommend_ids_valid_distinct stable_argsort [[1; 2]; [1; 3]; [5; 5]] 1 7
              stable_argsort_contract ltac:(simpl; lia)) as (ids & Hrun & Hlen & _).
  exists ids. split; assumption.
Defined.

(** X8. The recommendations come in order of ascending distance to the
    bought item, and apart from the item the sort puts first, no item left
    out is closer than a recommended one. *)
Theorem recommend_nearest_first
    (argsort : list Q -> list nat) (latents : list (list Q)) (b n : nat) :
  argsort_contract argsort -> (b < length latents)%nat ->
  exists ids first, recommend argsort latents b n = inr ids /\
    (forall k k' x y, (k <= k')%nat -> ids !! k = Some x -> ids !! k' = Some y ->
       dist_to latents b x <= dist_to latents b y) /\
    (forall x, x ∈ ids -> dist_to latents b first <= dist_to latents b x) /\
    (forall x j, x ∈ ids -> (j < length latents)%nat -> j ∉ ids -> j <> first ->
       dist_to latents b x <= dist_to latents b j).
Proof.
  intros Hc Hb. destruct (recommend_run argsort latents b n Hb) as (ref & Href & Hrun).
  set (d := map (fun row => sq_dist row ref) (map (take 10) latents)) in *.
  destruct (Hc d) as [Hperm Hasc].
  assert (Hd : length d = length latents) by (unfold d; rewrite !length_map; reflexivity).
  assert (Hvalid : forall i, i ∈ argsort d -> (i < length latents)%nat).
  { intros i Hi. rewrite Hperm in Hi. apply elem_of_seq in Hi. lia. }
  assert (Hkey : forall i, i ∈ argsort d -> key_at d i = dist_to latents b i).
  { intros i Hi. apply key_at_distances; [exact Href | apply Hvalid; exact Hi]. }
  assert (Hpos : forall k x, take n (drop 1 (argsort d)) !! k = Some x ->
                             argsort d !! S k = Some x /\ (k < n)%nat).
  { intros k x Hk. apply lookup_take_Some in Hk as [Hk Hlt]. rewrite lookup_drop in Hk.
    split; assumption. }
  destruct (lookup_lt_is_Some_2 (argsort d) 0%nat) as [first Hfirst].
  { rewrite (Permutation_length Hperm), length_seq, Hd. lia. }
  eexists _, first. split; [exact Hrun|]. split; [|split].
  - intros k k' x y Hkk Hx Hy.
    apply Hpos in Hx as [Hx _]. apply Hpos in Hy as [Hy _].
    rewrite <- !Hkey by (eapply list_elem_of_lookup_2; eassumption).
    apply (Hasc (S k) (S k')); [lia | assumption | assumption].
  - intros x Hx. apply list_elem_of_lookup in Hx as [k Hk]. apply Hpos in Hk as [Hk _].
    rewrite <- !Hkey by (eapply list_elem_of_lookup_2; eassumption).
    apply (Hasc 0%nat (S k)); [lia | assumption | assumption].
  - intros x j Hx Hj Hnot Hne.
    apply list_elem_of_lookup in Hx as [k Hk]. apply Hpos in Hk as [Hk Hkn].
    assert (Hin : j ∈ argsort d).
    { rewrite Hperm. apply elem_of_seq. lia. }
    apply list_elem_of_lookup in Hin as [m Hm].
    rewrite <- !Hkey by (eapply list_elem_of_lookup_2; eassumption).
    destruct m as [|m]; [rewrite Hfirst in Hm; inversion Hm; congruence|].
    destruct (decide (m < n)%nat) as [Hlt|Hge].
    + exfalso. apply Hnot. apply list_elem_of_lookup. exists m.
      apply lookup_take_Some. split; [|exact Hlt]. rewrite lookup_drop. exact Hm.
    + apply (Hasc (S k) (S m)); [lia | assumption | assumption].
Qed.

Lemma recommend_nearest_first_witness :
  argsort_contract stable_argsort /\ (0 < length [[1; 2]; [1; 3]; [5; 5]])%nat /\
  exists ids, recommend stable_argsort [[1; 2]; [1; 3]; [5; 5]] 0 1 = inr ids.
Proof.
  split; [exact stable_argsort_contract|]. split; [simpl; lia|].
  destruct (recommend_nearest_first stable_argsort [[1; 2]; [1; 3]; [5; 5]] 0 1
              stable_argsort_contract ltac:(simpl; lia)) as (ids & first & Hrun & _).
  exists ids. exact Hrun.
Defined.

Lemma recommend_excludes_bought_without_ties_witness :
  argsort_contract stable_argsort /\
  map (take 10) [[1; 2]; [1; 3]; [5; 5]] !! 0%nat = Some [1; 2] /\
  exists ids, recommend stable_argsort [[1; 2]; [1; 3]; [5; 5]] 0 2 = inr ids /\ 0%nat ∉ ids.
Proof.
  split; [exact stable_argsort_contract|]. split; [reflexivity|].
  apply (recommend_excludes_bought_without_ties stable_argsort
           [[1; 2]; [1; 3]; [5; 5]] 0 2 [1; 2] stable_argsort_contract eq_refl).
  intros j row Hne Hrow. destruct j as [|[|[|j]]]; [congruence | | |discriminate Hrow];
    inversion Hrow; subst; reflexivity.
Defined.

(** ** Noise and normalisation *)

Lemma clip_unit (v : Q) :
  (v <= 0 -> Qmin (Qmax v 0) 1 == 0) /\
  (0 <= v -> v <= 1 -> Qmin (Qmax v 0) 1 == v) /\
  (1 <= v -> Qmin (Qmax v 0) 1 == 1).
Proof.
  destruct (Q.max_spec v 0) as [[H1 E1] | [H1 E1]];
    destruct (Q.min_spec (Qmax v 0) 1) as [[H2 E2] | [H2 E2]];
    rewrite E2; rewrite ?E1 in *; repeat split; intros; lra.
Qed.

Lemma clip_unit_range (v : Q) : 0 <= Qmin (Qmax v 0) 1 /\ Qmin (Qmax v 0) 1 <= 1.
Proof.
  destruct (clip_unit v) as (Hlo & Hmid & Hhi).
  destruct (Qlt_le_dec v 0) as [H0|H0]; [rewrite Hlo by lra; lra|].
  destruct (Qlt_le_dec v 1) as [H1|H1]; [rewrite Hmid by lra; lra|].
  rewrite Hhi by lra. lra.
Qed.

(** X10. Whatever the noise, every pixel returned by [add_noise_and_clip]
    lies in [[0, 1]] and the array keeps its size; a pixel that was in
    [[0, 1]] ends between its old value and its noisy value, so zero noise
    leaves it unchanged. *)
Theorem add_noise_and_clip_unit_range (x noise : list Q) :
  length noise = length x ->
  length (add_noise_and_clip x noise) = length x /\
  Forall (fun v => 0 <= v /\ v <= 1) (add_noise_and_clip x noise) /\
  (forall i xi ni, x !! i = Some xi -> noise !! i = Some ni -> 0 <= xi -> xi <= 1 ->
     exists v, add_noise_and_clip x noise !! i = Some v /\
       (0 <= ni -> xi <= v /\ v <= xi + (2 # 10) * ni) /\
       (ni <= 0 -> xi + (2 # 10) * ni <= v /\ v <= xi) /\
       (ni == 0 -> v == xi)).
Proof.
  intros Hlen. unfold add_noise_and_clip. split; [|split].
  - rewrite !length_map, length_zip_with. lia.
  - apply Forall_forall. intros v Hv.
    change (map ?f ?l) with (f <$> l) in Hv.
    apply list_elem_of_fmap in Hv as (w & -> & Hw).
    apply list_elem_of_fmap in Hw as (u & -> & _).
    apply clip_unit_range.
  - intros i xi ni Hx Hn H0 H1.
    change (map ?f ?l) with (f <$> l). rewrite !list_lookup_fmap.
    rewrite lookup_zip_with, Hx, Hn. simpl.
    exists (Qmin (Qmax (xi + (2 # 10) * ni) 0) 1). split; [reflexivity|].
    destruct (clip_unit (xi + (2 # 10) * ni)) as (Clo & Cmid & Chi).
    set (u := xi + (2 # 10) * ni) in *.
    assert (Hc : (u <= 0 /\ Qmin (Qmax u 0) 1 == 0) \/
                 (0 <= u /\ u <= 1 /\ Qmin (Qmax u 0) 1 == u) \/
                 (1 <= u /\ Qmin (Qmax u 0) 1 == 1)).
    { destruct (Qlt_le_dec u 0) as [Hu|Hu]; [left; split; [lra | apply Clo; lra]|].
      destruct (Qlt_le_dec u 1) as [Hu'|Hu'];
        [right; left; repeat split; [lra | lra | apply Cmid; lra]|].
      right; right. split; [lra | apply Chi; lra]. }
    assert (Hu : u == xi + (2 # 10) * ni) by reflexivity.
    split; [|split]; intros Hni; [split | split |];
      destruct Hc as [[Hc E] | [(Hc & Hc' & E) | [Hc E]]]; rewrite E; try lra.
    all: rewrite Hni in Hu; lra.
Qed.

Lemma add_noise_and_clip_unit_range_witness :
  length [3; -4] = length [9 # 10; 1 # 2] /\
  Forall (fun v => 0 <= v /\ v <= 1) (add_noise_and_clip [9 # 10; 1 # 2] [3; -4]).
Proof.
  split; [reflexivity|].
  exact (proj1 (proj2 (add_noise_and_clip_unit_range [9 # 10; 1 # 2] [3; -4] eq_refl))).
Defined.

Lemma np_min_spec (a : Q) (rest : list Q) :
  fold_left Qmin rest a ∈ a :: rest /\
  (forall v, v ∈ a :: rest -> fold_left Qmin rest a <= v).
Proof.
  revert a. induction rest as [|b rest IH]; intros a; simpl.
  - split; [left|]. intros v Hv. apply list_elem_of_singleton in Hv. subst. apply Qle_refl.
  - destruct (IH (Qmin a b)) as [Hin Hlb]. split.
    + apply elem_of_cons in Hin as [Heq | Hin].
      * rewrite Heq. unfold Qmin, GenericMinMax.gmin.
        destruct (a ?= b); [left | left | right; left].
      * right; right. exact Hin.
    + intros v Hv.
      assert (Hm : fold_left Qmin rest (Qmin a b) <= Qmin a b) by (apply Hlb; left).
      apply elem_of_cons in Hv as [-> | Hv].
      * eapply Qle_trans; [exact Hm | apply Q.le_min_l].
      * apply elem_of_cons in Hv as [-> | Hv].
        -- eapply Qle_trans; [exact Hm | apply Q.le_min_r].
        -- apply Hlb. right. exact Hv.
Qed.

(** X11. On a column that is not constant, min-max normalisation returns a
    column of the same length with every entry in [[0, 1]], the smallest
    entries at 0 and the largest at 1, and the order of entries kept. *)
Theorem minmax_normalize_unit_range (column : list Q) (lo hi : Q) :
  np_min column = inr lo -> np_max column = inr hi -> lo < hi ->
  exists out, minmax_normalize column = inr out /\
    length out = length column /\
    Forall (fun v => 0 <= v /\ v <= 1) out /\
    (forall i v, column !! i = Some v ->
       exists w, out !! i = Some w /\ (v == lo -> w == 0) /\ (v == hi -> w == 1)) /\
    (forall i j v v' w w', column !! i = Some v -> column !! j = Some v' ->
       out !! i = Some w -> out !! j = Some w' -> v <= v' -> w <= w').
Proof.
  intros Hmin Hmax Hlt. unfold minmax_normalize. rewrite Hmin, Hmax.
  eexists. split; [reflexivity|].
  assert (Hbounds : forall v, v ∈ column -> lo <= v /\ v <= hi).
  { intros v Hv. destruct column as [|a rest]; [discriminate Hmin|].
    simpl in Hmin, Hmax. inversion Hmin; inversion Hmax; subst.
    split; [apply np_min_spec | apply np_max_spec]; exact Hv. }
  assert (Hd : 0 < hi - lo) by lra.
  split; [apply length_map|]. split; [|split].
  - apply Forall_forall. intros w Hw.
    change (map ?f ?l) with (f <$> l) in Hw.
    apply list_elem_of_fmap in Hw as (v & -> & Hv).
    destruct (Hbounds v Hv) as [H1 H2]. split.
    + apply Qle_shift_div_l; [exact Hd | lra].
    + apply Qle_shift_div_r; [exact Hd | lra].
  - intros i v Hv. change (map ?f ?l) with (f <$> l).
    rewrite list_lookup_fmap, Hv. simpl. eexists. split; [reflexivity|]. split.
    + intros E. rewrite E. field. lra.
    + intros E. rewrite E. field. lra.
  - intros i j v v' w w' Hv Hv' Hw Hw' Hle.
    change (map ?f ?l) with (f <$> l) in Hw, Hw'.
    rewrite list_lookup_fmap, Hv in Hw. rewrite list_lookup_fmap, Hv' in Hw'.
    simpl in Hw, Hw'. inversion Hw; inversion Hw'; subst.
    unfold Qdiv. apply Qmult_le_compat_r; [lra|].
    apply Qlt_le_weak, Qinv_lt_0_compat. exact Hd.
Qed.

Lemma minmax_normalize_unit_range_witness :
  np_min [3; 1; 2] = inr 1 /\ np_max [3; 1; 2] = inr 3 /\ 1 < 3 /\
  exists out, minmax_normalize [3; 1; 2] = inr out /\ length out = length [3; 1; 2].
Proof.
  split; [reflexivity|]. split; [reflexivity|]. split; [reflexivity|].
  destruct (minmax_normalize_unit_range [3; 1; 2] 1 3 eq_refl eq_refl eq_refl)
    as (out & Hrun & Hlen & _).
  exists out. split; assumption.
Defined.

(** ** Index errors and wrap-around of the Q table *)

Lemma np_index_ok d i : index_ok d i <-> exists n, np_index d i = Some n.
Proof.
  unfold index_ok, np_index. split.
  - intros [H0 H1]. destruct (Z.leb_spec 0 i), (Z.ltb_spec i (Z.of_nat d)); simpl;
      try (eexists; reflexivity); try lia.
    destruct (Z.leb_spec (- Z.of_nat d) i), (Z.ltb_spec i 0); simpl;
      try (eexists; reflexivity); lia.
  - intros [n H].
    destruct (Z.leb_spec 0 i), (Z.ltb_spec i (Z.of_nat d)); simpl in H; try lia;
      destruct (Z.leb_spec (- Z.of_nat d) i), (Z.ltb_spec i 0); simpl in H;
      try discriminate; lia.
Qed.

Lemma np_index_eq d i :
  index_ok d i -> np_index d i = Some (Z.to_nat (wrap_index d i)).
Proof.
  unfold index_ok, np_index, wrap_index. intros [H0 H1].
  destruct (Z.leb_spec 0 i) as [Hp|Hn].
  - destruct (Z.ltb_spec i (Z.of_nat d)); [|lia]. simpl.
    destruct (Z.ltb_spec i 0); [lia | reflexivity].
  - simpl. destruct (Z.leb_spec (- Z.of_nat d) i); [|lia].
    destruct (Z.ltb_spec i 0); [reflexivity | lia].
Qed.

Lemma np_index_wrap d i : index_ok d i -> np_index d (wrap_index d i) = np_index d i.
Proof.
  intros Hi. rewrite (np_index_eq d i Hi).
  assert (Hr : (0 <= wrap_index d i < Z.of_nat d)%Z).
  { unfold index_ok, wrap_index in *. destruct (Z.ltb_spec i 0); lia. }
  apply np_index_inrange. exact Hr.
Qed.

Lemma wrap_index_range d i :
  index_ok d i -> (0 <= wrap_index d i < Z.of_nat d)%Z.
Proof.
  unfold index_ok, wrap_index. intros [H0 H1]. destruct (Z.ltb_spec i 0); lia.
Qed.

Lemma row_offset_ok T s : state_ok T s <-> exists base, row_offset T s = Some base.
Proof.
  destruct s as [[s0 s1] s2]. unfold state_ok, row_offset. cbn [fst snd].
  rewrite !np_index_ok. split.
  - intros ([i Hi] & [j Hj] & [k Hk]). rewrite Hi, Hj, Hk. simpl. eauto.
  - intros [base H].
    destruct (np_index (dim_dist T) s0) as [i|]; [|discriminate].
    destruct (np_index (dim_top T) s1) as [j|]; [|discriminate].
    destruct (np_index (dim_bot T) s2) as [k|]; [|discriminate].
    repeat split; eexists; reflexivity.
Qed.

Lemma row_offset_wrap T s : state_ok T s -> row_offset T (wrap_state T s) = row_offset T s.
Proof.
  destruct s as [[s0 s1] s2]. intros (H0 & H1 & H2). unfold wrap_state, row_offset.
  cbn [fst snd] in *. rewrite !np_index_wrap by assumption. reflexivity.
Qed.

Lemma cell_offset_ok T s a :
  state_ok T s /\ index_ok n_actions a <-> exists p, cell_offset T s a = Some p.
Proof.
  unfold cell_offset. rewrite row_offset_ok, np_index_ok. split.
  - intros [[base Hb] [n Hn]]. rewrite Hb, Hn. simpl. eauto.
  - intros [p H]. destruct (row_offset T s) as [base|]; [|discriminate].
    destruct (np_index n_actions a) as [n|]; [|discriminate].
    split; eexists; reflexivity.
Qed.

(** X12. On a well-formed table [update_Q] succeeds exactly when every
    component of [state] and [next_state] and the action lie in
    [[-d, d)] for their axis; otherwise it raises [IndexError], never
    another exception, and the table is left as it was. *)
Theorem update_Q_raises_iff_out_of_range
    (T : QTable) (s s' : state) (a : Z) (r alpha gamma : Q) :
  wf_table T ->
  (fst (update_Q s s' a r alpha gamma T) = inr tt <->
   state_ok T s /\ state_ok T s' /\ index_ok n_actions a) /\
  (fst (update_Q s s' a r alpha gamma T) <> inr tt ->
   update_Q s s' a r alpha gamma T = (inl IndexError, T)).
Proof.
  intros Hwf. split.
  - split.
    + intros Hok. destruct (update_Q_cases s s' a r alpha gamma T) as [Hfail | Hrun].
      * rewrite Hfail in Hok. discriminate.
      * destruct Hrun as (base & p & q0 & q1 & qo & Hb & _ & _ & Hp & _).
        assert (Hs' : state_ok T s') by (apply row_offset_ok; eauto).
        assert (Hs : state_ok T s /\ index_ok n_actions a) by (apply cell_offset_ok; eauto).
        tauto.
    + intros (Hs & Hs' & Ha).
      apply row_offset_ok in Hs' as [base Hb].
      destruct (proj1 (cell_offset_ok T s a) (conj Hs Ha)) as [p Hp].
      eapply update_Q_ok; eassumption.
  - intros Hne. destruct (update_Q_cases s s' a r alpha gamma T) as [Hfail | Hrun].
    + exact Hfail.
    + destruct Hrun as (base & p & q0 & q1 & qo & _ & _ & _ & _ & _ & Hrun).
      rewrite Hrun in Hne. contradiction.
Qed.

Lemma update_Q_raises_iff_out_of_range_witness :
  wf_table (zeros_table 1 1 2) /\
  update_Q (0, 0, 2)%Z (0, 0, 0)%Z 0 1 (1 # 2) (1 # 2) (zeros_table 1 1 2)
    = (inl IndexError, zeros_table 1 1 2).
Proof.
  split; [apply zeros_wf|].
  apply (proj2 (update_Q_raises_iff_out_of_range (zeros_table 1 1 2)
                  (0, 0, 2)%Z (0, 0, 0)%Z 0 1 (1 # 2) (1 # 2) (zeros_wf 1 1 2))).
  vm_compute. discriminate.
Defined.

Lemma cell_offset_wrap T s a :
  state_ok T s -> index_ok n_actions a ->
  cell_offset T (wrap_state T s) (wrap_index n_actions a) = cell_offset T s a.
Proof.
  intros Hs Ha. unfold cell_offset.
  rewrite (row_offset_wrap T s Hs), (np_index_wrap _ _ Ha). reflexivity.
Qed.

(** X13. Negative indices alias: a state with components in [[-d, 0)] is
    treated by [choose_action] and [update_Q] exactly as the state with [d]
    added to those components, without any error. *)
Theorem negative_indices_alias
    (T : QTable) (s s' : state) (a : Z) (r alpha gamma : Q) :
  state_ok T s -> state_ok T s' -> index_ok n_actions a ->
  choose_action s T = choose_action (wrap_state T s) T /\
  update_Q s s' a r alpha gamma T =
    update_Q (wrap_state T s) (wrap_state T s') (wrap_index n_actions a) r alpha gamma T /\
  ((0 <= (wrap_state T s).1.1 < Z.of_nat (dim_dist T))%Z /\
   (0 <= (wrap_state T s).1.2 < Z.of_nat (dim_top T))%Z /\
   (0 <= (wrap_state T s).2 < Z.of_nat (dim_bot T))%Z).
Proof.
  intros Hs Hs' Ha. split; [|split].
  - unfold choose_action, read_row, bind, get, lift_opt.
    rewrite (row_offset_wrap T s Hs). reflexivity.
  - pose proof (cell_offset_wrap T s a Hs Ha) as Hcell.
    unfold update_Q, read_row, read_cell, write_cell, bind, get, lift_opt, ret, raise.
    rewrite (row_offset_wrap T s' Hs').
    destruct (row_offset T s') as [base|]; [|reflexivity].
    destruct (cells T !! base); [|reflexivity].
    destruct (cells T !! S base); [|reflexivity].
    rewrite Hcell.
    destruct (cell_offset T s a) as [p|] eqn:Ep; [|reflexivity].
    destruct (cells T !! p); [|reflexivity].
    rewrite Hcell, Ep. reflexivity.
  - destruct s as [[s0 s1] s2]. destruct Hs as (H0 & H1 & H2). cbn [wrap_state fst snd] in *.
    repeat split; apply wrap_index_range; assumption.
Qed.

Lemma negative_indices_alias_witness :
  let T := {| dim_dist := 1; dim_top := 1; dim_bot := 2; cells := [1; 2; 3; 4] |} in
  state_ok T (0, 0, -1)%Z /\ index_ok n_actions (-1) /\
  choose_action (0, 0, -1)%Z T = choose_action (wrap_state T (0, 0, -1)%Z) T.
Proof.
  intros T.
  assert (Hs : state_ok T (0, 0, -1)%Z) by (unfold state_ok, index_ok, T; cbn; lia).
  assert (Ha : index_ok n_actions (-1)) by (unfold index_ok, n_actions; cbn; lia).
  split; [exact Hs|]. split; [exact Ha|].
  exact (proj1 (negative_indices_alias T (0, 0, -1)%Z (0, 0, -1)%Z (-1) 0 0 0 Hs Hs Ha)).
Defined.




(** ** More on policy evaluation and improvement *)

Lemma argmax_from_first (l pre : list Q) (bi : nat) (b : Q) :
  pre !! bi = Some b -> (forall x, x ∈ pre -> x <= b) ->
  (forall j x, (j < bi)%nat -> pre !! j = Some x -> x < b) ->
  exists v, (pre ++ l) !! argmax_from bi b (length pre) l = Some v /\
            (forall j x, (j < argmax_from bi b (length pre) l)%nat ->
               (pre ++ l) !! j = Some x -> x < v).
Proof.
  revert pre bi b. induction l as [|y l IH]; intros pre bi b Hb Hub Hfirst; simpl.
  - exists b. rewrite app_nil_r. split; assumption.
  - assert (Hlen : S (length pre) = length (pre ++ [y])) by (rewrite length_app; simpl; lia).
    rewrite cons_middle, app_assoc, Hlen.
    destruct (Qgtb y b) eqn:E.
    + apply Qltb_lt in E. apply IH.
      * rewrite lookup_app_r by lia. replace (length pre - length pre)%nat with 0%nat by lia.
        reflexivity.
      * intros x Hx. apply elem_of_app in Hx as [Hx | Hx].
        -- apply Qlt_le_weak. eapply Qle_lt_trans; [apply Hub; exact Hx | exact E].
        -- apply list_elem_of_singleton in Hx. subst. apply Qle_refl.
      * intros j x Hj Hx. rewrite lookup_app_l in Hx by exact Hj.
        eapply Qle_lt_trans; [apply Hub; eapply list_elem_of_lookup_2; exact Hx | exact E].
    + apply Qltb_ge in E. apply IH.
      * rewrite lookup_app_l by (eapply lookup_lt_Some; exact Hb). exact Hb.
      * intros x Hx. apply elem_of_app in Hx as [Hx | Hx].
        -- apply Hub. exact Hx.
        -- apply list_elem_of_singleton in Hx. subst. exact E.
      * intros j x Hj Hx. apply (Hfirst j x Hj).
        rewrite lookup_app_l in Hx; [exact Hx|].
        apply lookup_lt_Some in Hb. lia.
Qed.

Lemma np_argmax_first (l : list Q) (i : nat) (v : Q) :
  np_argmax l = Some i -> l !! i = Some v ->
  forall j x, (j < i)%nat -> l !! j = Some x -> x < v.
Proof.
  destruct l as [|a rest]; [discriminate|]. simpl. intros [= <-] Hv.
  destruct (argmax_from_first rest [a] 0 a eq_refl) as (v' & Hv' & Hfirst).
  - intros x Hx. apply list_elem_of_singleton in Hx. subst. apply Qle_refl.
  - intros j x Hj. lia.
  - simpl in Hv', Hfirst. rewrite Hv in Hv'. inversion Hv'; subst v'. exact Hfirst.
Qed.

Lemma run_compute_action_value env s vf gamma :
  wf_env env = true -> (s < nS env)%nat -> length vf = nS env ->
  run env (compute_action_value s vf gamma) = inr (action_values env gamma vf s).
Proof.
  intros Hwf Hs Hlen. unfold run.
  rewrite (compute_action_value_spec (start env) s vf gamma Hwf Hs Hlen). reflexivity.
Qed.

(** X15. [policy_improvement] is greedy with ties to the smallest action:
    in every state the chosen action has an action value, as computed by
    [compute_action_value], at least that of every action and strictly
    above that of every action listed before it. *)
Theorem policy_improvement_greedy_first (env : Env) (vf : list Q) (gamma : Q) :
  wf_env env = true -> length vf = nS env -> (0 < nA env)%nat ->
  exists pol, run env (policy_improvement vf gamma) = inr pol /\
    length pol = nS env /\
    forall s, (s < nS env)%nat ->
      exists a av qa, pol !! s = Some a /\
        run env (compute_action_value s vf gamma) = inr av /\
        length av = nA env /\ av !! a = Some qa /\
        (forall b qb, av !! b = Some qb -> qb <= qa) /\
        (forall b qb, (b < a)%nat -> av !! b = Some qb -> qb < qa).
Proof.
  intros Hwf Hlen HnA. exists (greedy env gamma vf). split; [|split].
  - unfold run.
    rewrite (policy_improvement_spec (start env) vf gamma Hwf Hlen (fun _ => HnA)).
    reflexivity.
  - apply greedy_length.
  - intros s Hs.
    destruct (np_argmax_spec (action_values env gamma vf s)
                (action_values_nonempty env gamma vf s HnA)) as (a & qa & Harg & Hqa & Hub).
    exists a, (action_values env gamma vf s), qa. split; [|split; [|split; [|split; [|split]]]].
    + rewrite greedy_lookup by exact Hs. rewrite Harg. reflexivity.
    + apply run_compute_action_value; assumption.
    + apply action_values_length.
    + exact Hqa.
    + intros b qb Hb. apply Hub. eapply list_elem_of_lookup_2. exact Hb.
    + intros b qb Hlt Hb. eapply np_argmax_first; eassumption.
Qed.

Lemma policy_improvement_greedy_first_witness :
  wf_env corridor_env = true /\ length [1; 1; 0] = nS corridor_env /\
  (0 < nA corridor_env)%nat /\
  exists pol, run corridor_env (policy_improvement [1; 1; 0] 1) = inr pol /\
              length pol = nS corridor_env.
Proof.
  split; [reflexivity|]. split; [reflexivity|]. split; [simpl; lia|].
  destruct (policy_improvement_greedy_first corridor_env [1; 1; 0] 1 eq_refl eq_refl
              ltac:(simpl; lia)) as (pol & Hrun & Hlen & _).
  exists pol. split; assumption.
Defined.

(** X16. [policy_evaluation] iterates the Bellman backup from zero: with no
    sweep it returns the zero vector, and each further sweep gives, in every
    state, the sum over the transitions of the policy's action of
    [p * (r + gamma * v[s'])] taken on the previous result. *)
Theorem policy_evaluation_bellman (env : Env) (policy : list nat) (gamma : Q) (n : nat) :
  wf_env env = true -> valid_policy env policy = true ->
  run env (policy_evaluation policy gamma 0) = inr (np_zeros (nS env)) /\
  exists v v',
    run env (policy_evaluation policy gamma n) = inr v /\
    run env (policy_evaluation policy gamma (S n)) = inr v' /\
    length v = nS env /\ length v' = nS env /\
    forall s a, policy !! s = Some a ->
      v' !! s = Some (backup_val gamma v (transitions_of env s a) 0).
Proof.
  intros Hwf Hpol. pose proof (valid_policy_inv _ _ Hpol) as [Hplen _].
  unfold run.
  rewrite !(policy_evaluation_spec (start env) policy gamma _ Hwf Hpol).
  split; [reflexivity|].
  exists (eval_iter env policy gamma n), (eval_iter env policy gamma (S n)).
  split; [reflexivity|]. split; [reflexivity|].
  split; [apply eval_iter_length; exact Hplen|].
  split; [apply eval_iter_length; exact Hplen|].
  intros s a Ha. change (eval_iter env policy gamma (S n))
    with (bellman env policy gamma (eval_iter env policy gamma n)).
  apply bellman_lookup. exact Ha.
Qed.

Lemma policy_evaluation_bellman_witness :
  wf_env detour_env = true /\ valid_policy detour_env [0; 0; 0]%nat = true /\
  run detour_env (policy_evaluation [0; 0; 0]%nat 1 0) = inr (np_zeros (nS detour_env)).
Proof.
  split; [reflexivity|]. split; [reflexivity|].
  exact (proj1 (policy_evaluation_bellman detour_env [0; 0; 0]%nat 1 0 eq_refl eq_refl)).
Defined.

Lemma table_entry_forall env s a (f : transition -> bool) :
  forallb (forallb (forallb f)) (P env) = true ->
  Forall (fun t => f t = true) (transitions_of env s a).
Proof.
  unfold transitions_of. intros Hall.
  destruct (P env !! s) as [row|] eqn:Erow; simpl; [|constructor].
  destruct (row !! a) as [trs|] eqn:Etrs; simpl; [|constructor].
  rewrite forallb_forall in Hall.
  assert (Hrow : In row (P env)) by (apply list_elem_of_In; eapply list_elem_of_lookup_2; eauto).
  apply Hall in Hrow. rewrite forallb_forall in Hrow.
  assert (Htrs : In trs row) by (apply list_elem_of_In; eapply list_elem_of_lookup_2; eauto).
  apply Hrow in Htrs. rewrite forallb_forall in Htrs.
  apply Forall_forall. intros t Ht. apply Htrs. apply list_elem_of_In. exact Ht.
Qed.

Lemma stochastic_sum env s a :
  wf_env env = true -> stochastic env = true -> (s < nS env)%nat -> (a < nA env)%nat ->
  prob_sum (transitions_of env s a) == 1.
Proof.
  intros Hwf Hst Hs Ha. unfold stochastic in Hst. apply andb_prop in Hst as [_ Hsum].
  destruct (wf_env_lookup env s a Hwf Hs Ha) as (row & trs & Hrow & Htrs & _).
  unfold transitions_of. rewrite Hrow. simpl. rewrite Htrs. simpl.
  rewrite forallb_forall in Hsum.
  assert (Hin : In row (P env)) by (apply list_elem_of_In; eapply list_elem_of_lookup_2; eauto).
  apply Hsum in Hin. rewrite forallb_forall in Hin.
  assert (Hin' : In trs row) by (apply list_elem_of_In; eapply list_elem_of_lookup_2; eauto).
  apply Hin in Hin'. apply Qeq_bool_iff. exact Hin'.
Qed.

Lemma backup_val_bounds gamma vf rlo rhi lo hi trs x0 :
  0 <= gamma ->
  Forall (fun t : transition => let '(p, _, r, _) := t in 0 <= p /\ rlo <= r /\ r <= rhi) trs ->
  (forall ns, lo <= default 0 (vf !! ns) /\ default 0 (vf !! ns) <= hi) ->
  x0 + prob_sum trs * (rlo + gamma * lo) <= backup_val gamma vf trs x0 /\
  backup_val gamma vf trs x0 <= x0 + prob_sum trs * (rhi + gamma * hi).
Proof.
  intros Hg Htrs Hvf. revert x0.
  induction Htrs as [|[[[p ns] r] d] trs (Hp & Hr0 & Hr1) Htrs IH]; intros x0; simpl.
  - split; lra.
  - destruct (IH (x0 + p * (r + gamma * default 0 (vf !! ns)))) as [IH1 IH2].
    destruct (Hvf ns) as [Hv0 Hv1].
    set (v := default 0 (vf !! ns)) in *. set (S := prob_sum trs) in *.
    set (B := backup_val gamma vf trs (x0 + p * (r + gamma * v))) in *.
    assert (H1 : gamma * lo <= gamma * v) by nra.
    assert (H2 : gamma * v <= gamma * hi) by nra.
    assert (H3 : p * (rlo + gamma * lo) <= p * (r + gamma * v)) by nra.
    assert (H4 : p * (r + gamma * v) <= p * (rhi + gamma * hi)) by nra.
    split; nra.
Qed.

Lemma transitions_bounded env rlo rhi s a :
  nonneg_probs env = true -> rewards_within rlo rhi env = true ->
  Forall (fun t : transition => let '(p, _, r, _) := t in 0 <= p /\ rlo <= r /\ r <= rhi)
         (transitions_of env s a).
Proof.
  intros Hp Hr.
  pose proof (nonneg_probs_transitions env s a Hp) as H1.
  pose proof (table_entry_forall env s a _ Hr) as H2.
  rewrite Forall_forall in H1, H2. apply Forall_forall. intros [[[p ns] r] d] Ht.
  specialize (H1 _ Ht). specialize (H2 _ Ht). simpl in H1, H2.
  apply andb_prop in H2 as [Ha Hb]. apply Qle_bool_iff in Ha, Hb. auto.
Qed.

(** X17. On a stochastic table with rewards in [[rlo, rhi]] around zero and
    a discount in [[0, 1]], the value function after [n] sweeps lies, in
    every state, between [n * rlo] and [n * rhi]. *)
Theorem policy_evaluation_bounded
    (env : Env) (policy : list nat) (gamma rlo rhi : Q) (n : nat) :
  wf_env env = true -> valid_policy env policy = true -> stochastic env = true ->
  rewards_within rlo rhi env = true ->
  rlo <= 0 -> 0 <= rhi -> 0 <= gamma -> gamma <= 1 ->
  exists v, run env (policy_evaluation policy gamma n) = inr v /\
    Forall (fun x => inject_Z (Z.of_nat n) * rlo <= x /\ x <= inject_Z (Z.of_nat n) * rhi) v.
Proof.
  intros Hwf Hpol Hst Hrw Hlo Hhi Hg0 Hg1.
  pose proof (valid_policy_inv _ _ Hpol) as [Hplen Hact].
  assert (Hnn : nonneg_probs env = true) by (unfold stochastic in Hst; apply andb_prop in Hst; tauto).
  exists (eval_iter env policy gamma n). split.
  { unfold run. rewrite (policy_evaluation_spec (start env) policy gamma n Hwf Hpol).
    reflexivity. }
  induction n as [|n IH].
  - change (eval_iter env policy gamma 0) with (replicate (nS env) 0).
    change (inject_Z (Z.of_nat 0)) with 0. apply Forall_replicate. split; lra.
  - change (eval_iter env policy gamma (S n))
      with (bellman env policy gamma (eval_iter env policy gamma n)).
    set (v := eval_iter env policy gamma n) in *.
    apply Forall_lookup. intros s x Hx.
    apply bellman_lookup_inv in Hx as (a & Ha & ->).
    assert (Hs : (s < nS env)%nat) by (rewrite <- Hplen; eapply lookup_lt_Some; exact Ha).
    pose proof (stochastic_sum env s a Hwf Hst Hs (Hact _ _ Ha)) as Hsum.
    set (L := inject_Z (Z.of_nat n) * rlo) in *. set (U := inject_Z (Z.of_nat n) * rhi) in *.
    assert (Hn : 0 <= inject_Z (Z.of_nat n)).
    { change 0 with (inject_Z 0). rewrite <- Zle_Qle. lia. }
    assert (Hvf : forall ns, L <= default 0 (v !! ns) /\ default 0 (v !! ns) <= U).
    { intros ns. destruct (v !! ns) as [y|] eqn:Ey; simpl.
      - apply (Forall_lookup_1 _ _ _ _ IH Ey).
      - unfold L, U. split; nra. }
    destruct (backup_val_bounds gamma v rlo rhi L U (transitions_of env s a) 0 Hg0
                (transitions_bounded env rlo rhi s a Hnn Hrw) Hvf) as [B1 B2].
    unfold q_val. set (B := backup_val gamma v (transitions_of env s a) 0) in *.
    rewrite Hsum in B1, B2.
    rewrite Nat2Z.inj_succ. unfold Z.succ. rewrite inject_Z_plus.
    change (inject_Z 1) with 1. fold L. 
    assert (HL : L <= 0) by (unfold L; nra).
    assert (HU : 0 <= U) by (unfold U; nra).
    assert (H1 : L <= gamma * L) by nra.
    assert (H2 : gamma * U <= U) by nra.
    unfold L, U in *. split; nra.
Qed.

Lemma policy_evaluation_bounded_witness :
  (wf_env corridor_env = true /\ valid_policy corridor_env [0; 1; 0]%nat = true /\
   stochastic corridor_env = true /\ rewards_within 0 1 corridor_env = true) /\
  (0 <= 0 /\ 0 <= 1 /\ 0 <= 1 /\ 1 <= 1) /\
  exists v, run corridor_env (policy_evaluation [0; 1; 0]%nat 1 100) = inr v /\
    Forall (fun x => inject_Z (Z.of_nat 100) * 0 <= x /\ x <= inject_Z (Z.of_nat 100) * 1) v.
Proof.
  assert (H00 : 0 <= 0) by (vm_compute; intro Hc; discriminate Hc).
  assert (H01 : 0 <= 1) by (vm_compute; intro Hc; discriminate Hc).
  assert (H11 : 1 <= 1) by (vm_compute; intro Hc; discriminate Hc).
  split; [repeat split; reflexivity|]. split; [repeat split; assumption|].
  exact (policy_evaluation_bounded corridor_env [0; 1; 0]%nat 1 0 1 100
           eq_refl eq_refl eq_refl eq_refl H00 H01 H01 H11).
Defined.

(** X18. Once a round returns the policy it started from, policy iteration
    has settled: every larger [max_iter] returns that same value function
    and policy. *)
Theorem policy_iteration_settles
    (env : Env) (policy0 : list nat) (i k : nat)
    (vprev : option (list Q)) (pol : list nat) (v : list Q) :
  wf_env env = true -> valid_policy env policy0 = true ->
  run env (policy_iteration_loop policy0 i) = inr (vprev, pol) ->
  run env (policy_iteration policy0 (S i)) = inr (v, pol) ->
  run env (policy_iteration policy0 (S i + k)) = inr (v, pol).
Proof.
  intros Hwf Hpol0 Hloop Hrun.
  apply (run_loop_inv env policy0 i _ Hwf Hpol0) in Hloop.
  rewrite (run_policy_iteration_S env policy0 i Hwf Hpol0) in Hrun.
  rewrite <- Hloop in Hrun. cbn [snd] in Hrun.
  assert (Hv : eval_iter env pol 1 100 = v) by congruence.
  assert (Hg : greedy env 1 v = pol) by congruence.
  assert (Hfix : forall m, snd (Nat.iter (i + m) (pi_step env) (None, policy0)) = pol).
  { induction m as [|m IH].
    - rewrite Nat.add_0_r, <- Hloop. reflexivity.
    - rewrite Nat.add_succ_r.
      change (Nat.iter (S (i + m)) (pi_step env) (None, policy0))
        with (pi_step env (Nat.iter (i + m) (pi_step env) (None, policy0))).
      unfold pi_step at 1. cbn [snd]. rewrite IH, Hv, Hg. reflexivity. }
  change (S i + k)%nat with (S (i + k)).
  rewrite (run_policy_iteration_S env policy0 (i + k) Hwf Hpol0).
  rewrite (Hfix k), Hv, Hg. reflexivity.
Qed.

Lemma policy_iteration_settles_witness :
  (wf_env detour_env = true /\ valid_policy detour_env [0; 0; 0]%nat = true) /\
  run detour_env (policy_iteration_loop [0; 0; 0]%nat 1) = inr (Some [-6; -5; 0], [1; 0; 0]%nat) /\
  run detour_env (policy_iteration [0; 0; 0]%nat 2) = inr ([-1; -5; 0], [1; 0; 0]%nat) /\
  run detour_env (policy_iteration [0; 0; 0]%nat (2 + 3)) = inr ([-1; -5; 0], [1; 0; 0]%nat).
Proof.
  split; [split; reflexivity|].
  assert (H1 : run detour_env (policy_iteration_loop [0; 0; 0]%nat 1)
               = inr (Some [-6; -5; 0], [1; 0; 0]%nat)) by (vm_compute; reflexivity).
  assert (H2 : run detour_env (policy_iteration [0; 0; 0]%nat 2)
               = inr ([-1; -5; 0], [1; 0; 0]%nat)) by (vm_compute; reflexivity).
  split; [exact H1|]. split; [exact H2|].
  exact (policy_iteration_settles detour_env [0; 0; 0]%nat 1 3 _ _ _ eq_refl eq_refl H1 H2).
Defined.

(** ** Policies that do not fit the table *)

Lemma sweep_step_ok (w : World) gamma vf s a tmp :
  wf_env (w_env w) = true -> length vf = nS (w_env w) -> length tmp = nS (w_env w) ->
  (s < nS (w_env w))%nat -> (a < nA (w_env w))%nat ->
  exists tmp', (transitions <~ env_P s a ;; backup gamma vf s transitions tmp) w
                 = (inr tmp', w) /\ length tmp' = nS (w_env w).
Proof.
  intros Hwf Hlen Htmp Hs Ha.
  destruct (wf_env_lookup (w_env w) s a Hwf Hs Ha) as (row & trs & Hrow & Htrs & Hwt).
  destruct (env_P_ok w s a row trs Hrow Htrs) as [HP _].
  destruct (lookup_lt_is_Some_2 tmp s) as [x0 Hx0]; [lia|].
  eexists. split.
  - rewrite (bind_ok _ _ _ _ _ HP). apply (backup_spec w gamma vf s trs tmp x0 Hx0 Hwt Hlen).
  - rewrite length_insert. exact Htmp.
Qed.

Lemma sweep_step_missing (w : World) gamma vf s a tmp :
  wf_env (w_env w) = true -> ~ ((s < nS (w_env w))%nat /\ (a < nA (w_env w))%nat) ->
  (transitions <~ env_P s a ;; backup gamma vf s transitions tmp) w = (inl KeyError, w).
Proof.
  intros Hwf Hbad. unfold bind, env_P, get, lift_opt, bind, ret, raise.
  destruct (P (w_env w) !! s) as [row|] eqn:Erow; [|reflexivity].
  destruct (row !! a) as [trs|] eqn:Etrs; [|reflexivity].
  exfalso. apply Hbad.
  unfold wf_env in Hwf. apply andb_prop in Hwf as [Hl Hall].
  apply bool_decide_eq_true in Hl. split.
  - rewrite <- Hl. eapply lookup_lt_Some. exact Erow.
  - rewrite forallb_forall in Hall.
    assert (Hin : In row (P (w_env w)))
      by (apply list_elem_of_In; eapply list_elem_of_lookup_2; exact Erow).
    apply Hall in Hin. apply andb_prop in Hin as [Hr _].
    apply bool_decide_eq_true in Hr. rewrite <- Hr. eapply lookup_lt_Some. exact Etrs.
Qed.

Lemma sweep_pairs (w : World) gamma vf (pairs : list (nat * nat)) tmp :
  wf_env (w_env w) = true -> length vf = nS (w_env w) -> length tmp = nS (w_env w) ->
  let body := fun (sa : nat * nat) tmp =>
                let '(s, action) := sa in
                transitions <~ env_P s action ;; backup gamma vf s transitions tmp in
  (Forall (fun sa => (fst sa < nS (w_env w))%nat /\ (snd sa < nA (w_env w))%nat) pairs ->
   exists tmp', for_each pairs body tmp w = (inr tmp', w) /\ length tmp' = nS (w_env w)) /\
  (~ Forall (fun sa => (fst sa < nS (w_env w))%nat /\ (snd sa < nA (w_env w))%nat) pairs ->
   for_each pairs body tmp w = (inl KeyError, w)).
Proof.
  intros Hwf Hlen Htmp body. revert tmp Htmp.
  induction pairs as [|[s a] pairs IH]; intros tmp Htmp.
  - split; [intros _; exists tmp; split; [reflexivity | exact Htmp]|].
    intros Hbad. exfalso. apply Hbad. constructor.
  - destruct (decide ((s < nS (w_env w))%nat /\ (a < nA (w_env w))%nat)) as [[Hs Ha]|Hbad].
    + destruct (sweep_step_ok w gamma vf s a tmp Hwf Hlen Htmp Hs Ha) as (tmp1 & Hrun & Hl1).
      destruct (IH tmp1 Hl1) as [IHok IHbad]. split.
      * intros Hall. inversion Hall; subst.
        rewrite for_each_cons. unfold body at 1. rewrite Hrun. apply IHok. assumption.
      * intros Hnot. rewrite for_each_cons. unfold body at 1. rewrite Hrun. apply IHbad.
        intros Hall. apply Hnot. constructor; [split; assumption | exact Hall].
    + split.
      * intros Hall. inversion Hall; subst. contradiction.
      * intros _. rewrite for_each_cons. unfold body at 1.
        rewrite (sweep_step_missing w gamma vf s a tmp Hwf Hbad). reflexivity.
Qed.

Lemma enumerate_Forall (policy : list nat) (Pr : nat -> nat -> Prop) :
  Forall (fun sa => Pr (fst sa) (snd sa)) (enumerate policy) <->
  (forall s a, policy !! s = Some a -> Pr s a).
Proof.
  rewrite Forall_lookup. split.
  - intros H s a Ha. apply (H s (s, a)). apply enumerate_lookup. eauto.
  - intros H i [s a] Hi. apply enumerate_lookup in Hi as (a' & [= -> ->] & Ha).
    simpl. apply H. exact Ha.
Qed.

(** X19. On a well-formed table, [policy_evaluation] needs nothing of the
    policy but an entry of [env.P] for each listed (state, action) pair: a
    policy shorter than [nS] is accepted, while a pair without entry makes
    every run of at least one sweep raise [KeyError]; with zero sweeps the
    policy is not looked at. *)
Theorem policy_evaluation_missing_entry
    (env : Env) (policy : list nat) (gamma : Q) (n : nat) :
  wf_env env = true ->
  run env (policy_evaluation policy gamma 0) = inr (np_zeros (nS env)) /\
  ((forall s a, policy !! s = Some a -> (s < nS env)%nat /\ (a < nA env)%nat) ->
   exists v, run env (policy_evaluation policy gamma n) = inr v /\ length v = nS env) /\
  ((exists s a, policy !! s = Some a /\ ~ ((s < nS env)%nat /\ (a < nA env)%nat)) ->
   run env (policy_evaluation policy gamma (S n)) = inl KeyError).
Proof.
  intros Hwf. split; [reflexivity|]. split.
  - intros Hall. unfold run, policy_evaluation.
    rewrite (bind_ok _ _ _ _ _ (tick_run _ _)).
    rewrite (bind_ok _ _ _ _ _ (env_nS_run _)).
    change (w_env (add_trace (start env) [EvEvaluate n])) with env.
    destruct (for_each_inv
      (fun (_ : nat) (vf : list Q) (σ : World) => w_env σ = env /\ length vf = nS env)
      (seq 0 n)
      (fun (_ : nat) value_function => tick EvSweep ;;; sweep policy gamma value_function)
      (np_zeros (nS env)) (add_trace (start env) [EvEvaluate n]))
      as (v & σ & Hrun & _ & Hlen).
    + split; [reflexivity | apply length_replicate].
    + intros i x vf σ _ [Hσ Hvf].
      rewrite (bind_ok _ _ _ _ _ (tick_run _ _)). unfold sweep.
      destruct (sweep_pairs (add_trace σ [EvSweep]) gamma vf (enumerate policy)
                  (np_zeros (length vf))) as [Hok _].
      * simpl. rewrite Hσ. exact Hwf.
      * simpl. rewrite Hσ. exact Hvf.
      * simpl. rewrite Hσ. unfold np_zeros. rewrite length_replicate. exact Hvf.
      * destruct Hok as (tmp & Hsw & Hl).
        -- simpl. rewrite Hσ.
           apply (enumerate_Forall policy
                    (fun s a => (s < nS env)%nat /\ (a < nA env)%nat)). exact Hall.
        -- exists tmp, (add_trace σ [EvSweep]). split; [exact Hsw|].
           simpl in Hl. rewrite Hσ in Hl. split; [simpl; exact Hσ | exact Hl].
    + exists v. unfold for_range. rewrite Hrun. split; [reflexivity | exact Hlen].
  - intros (s & a & Ha & Hbad). unfold run, policy_evaluation.
    rewrite (bind_ok _ _ _ _ _ (tick_run _ _)).
    rewrite (bind_ok _ _ _ _ _ (env_nS_run _)).
    change (w_env (add_trace (start env) [EvEvaluate (S n)])) with env.
    unfold for_range. simpl seq. rewrite for_each_cons.
    rewrite (bind_ok _ _ _ _ _ (tick_run _ _)). unfold sweep.
    destruct (sweep_pairs (add_trace (add_trace (start env) [EvEvaluate (S n)]) [EvSweep])
                gamma (np_zeros (nS env)) (enumerate policy)
                (np_zeros (length (np_zeros (nS env))))) as [_ Hfail].
    + exact Hwf.
    + apply length_replicate.
    + unfold np_zeros. rewrite !length_replicate. reflexivity.
    + rewrite Hfail; [reflexivity|].
      intros Hall. apply Hbad.
      apply (proj1 (enumerate_Forall policy
                      (fun s a => (s < nS env)%nat /\ (a < nA env)%nat)) Hall s a Ha).
Qed.

Lemma policy_evaluation_missing_entry_witness :
  wf_env corridor_env = true /\
  run corridor_env (policy_evaluation [0; 2]%nat 1 (S 4)) = inl KeyError.
Proof.
  split; [reflexivity|].
  apply (proj2 (proj2 (policy_evaluation_missing_entry corridor_env [0; 2]%nat 1 4 eq_refl))).
  exists 1%nat, 2%nat. split; [reflexivity|]. simpl. lia.
Defined.

(** ** Printing a policy *)

Lemma arrows_of_spec (policy : list nat) :
  (Forall (fun a => (a < 4)%nat) policy ->
   exists arrows, arrows_of policy = inr arrows /\ length arrows = length policy /\
     forall i a, policy !! i = Some a -> arrows !! i = action_map a) /\
  (~ Forall (fun a => (a < 4)%nat) policy -> arrows_of policy = inl KeyError).
Proof.
  induction policy as [|p rest [IHok IHbad]].
  - split.
    + intros _. exists []. repeat split. intros i a Hi. rewrite lookup_nil in Hi. discriminate.
    + intros H. exfalso. apply H. constructor.
  - destruct (decide (p < 4)%nat) as [Hp|Hp].
    + assert (Hmap : exists arrow, action_map p = Some arrow).
      { destruct p as [|[|[|[|p]]]]; try (eexists; reflexivity). lia. }
      destruct Hmap as [arrow Harrow]. split.
      * intros Hall. inversion Hall; subst.
        destruct IHok as (arrows & Hrun & Hlen & Hlook); [assumption|].
        exists (arrow :: arrows). simpl. rewrite Harrow, Hrun.
        split; [reflexivity|]. split; [simpl; congruence|].
        intros [|i] a Hi; simpl in Hi |- *.
        -- inversion Hi; subst. symmetry. exact Harrow.
        -- apply Hlook. exact Hi.
      * intros Hnot. simpl. rewrite Harrow. rewrite IHbad; [reflexivity|].
        intros Hall. apply Hnot. constructor; assumption.
    + assert (Hmap : action_map p = None).
      { destruct p as [|[|[|[|p]]]]; try lia. reflexivity. }
      split.
      * intros Hall. inversion Hall; subst. contradiction.
      * intros _. simpl. rewrite Hmap. reflexivity.
Qed.

(** X20. [visualize_policy] prints a grid exactly for policies of 16
    actions all below 4, with the arrow of [policy[4 r + c]] in row [r],
    column [c]; an action outside the map raises [KeyError] whatever the
    length, and a policy of known actions but another length raises
    [ValueError]. *)
Theorem visualize_policy_outcomes (policy : list nat) :
  (Forall (fun a => (a < 4)%nat) policy -> length policy = 16%nat ->
   exists directions, visualize_policy policy = inr (lake_grid, directions) /\
     forall r c a, (r < 4)%nat -> (c < 4)%nat -> policy !! (4 * r + c)%nat = Some a ->
       directions !! r ≫= (fun row => row !! c) = action_map a) /\
  (~ Forall (fun a => (a < 4)%nat) policy -> visualize_policy policy = inl KeyError) /\
  (Forall (fun a => (a < 4)%nat) policy -> length policy <> 16%nat ->
   visualize_policy policy = inl ValueError).
Proof.
  destruct (arrows_of_spec policy) as [Hok Hbad]. unfold visualize_policy, reshape_4_4.
  split; [|split].
  - intros Hall Hlen. destruct (Hok Hall) as (arrows & Hrun & Hl & Hlook).
    rewrite Hrun. destruct (decide (length arrows = 16%nat)) as [_|Hne]; [|congruence].
    eexists. split; [reflexivity|].
    intros r c a Hr Hc Ha. rewrite <- (Hlook _ _ Ha).
    destruct r as [|[|[|[|r]]]]; try lia; simpl;
      rewrite lookup_take_lt by exact Hc; rewrite ?lookup_drop; reflexivity.
  - intros Hnot. rewrite (Hbad Hnot). reflexivity.
  - intros Hall Hlen. destruct (Hok Hall) as (arrows & Hrun & Hl & _).
    rewrite Hrun. destruct (decide (length arrows = 16%nat)) as [He|_]; [congruence|].
    reflexivity.
Qed.

(** ** The training loop *)

Lemma choose_action_frame s T : snd (choose_action s T) = T.
Proof.
  unfold choose_action, bind. pose proof (read_row_frame s T) as Hf.
  destruct (read_row s T) as [[e|[q0 q1]] T']; simpl in *; subst; reflexivity.
Qed.

Lemma update_Q_shape s s' a r alpha gamma T :
  same_shape (snd (update_Q s s' a r alpha gamma T)) T /\
  length (cells (snd (update_Q s s' a r alpha gamma T))) = length (cells T).
Proof.
  destruct (update_Q_cases s s' a r alpha gamma T) as [Hfail | Hok].
  - rewrite Hfail. simpl. unfold same_shape. tauto.
  - destruct Hok as (base & p & q0 & q1 & q_old & _ & _ & _ & _ & _ & Hrun).
    rewrite Hrun. simpl. unfold same_shape. simpl.
    rewrite length_insert. tauto.
Qed.

Lemma same_shape_wf T U :
  same_shape U T -> length (cells U) = length (cells T) -> wf_table T -> wf_table U.
Proof.
  unfold same_shape, wf_table, table_size. intros (-> & -> & ->) ->. tauto.
Qed.

Lemma in_play_row T g :
  in_play g -> same_shape T Q_init ->
  exists base, row_offset T (parse_state g) = Some base.
Proof.
  intros Hg (S0 & S1 & S2).
  pose proof (parse_state_bins g Hg) as Hb.
  destruct (parse_state g) as [[b0 b1] b2]. destruct Hb as (B0 & B1 & B2).
  destruct n_bins_values as (E0 & E1 & E2).
  change (dim_dist Q_init) with n_bins_dist in S0.
  change (dim_top Q_init) with n_bins_top in S1.
  change (dim_bot Q_init) with n_bins_bot in S2.
  rewrite E0 in S0. rewrite E1 in S1. rewrite E2 in S2.
  eexists. apply row_offset_inrange; rewrite ?S0, ?S1, ?S2; lia.
Qed.

Lemma inject_nat_nonneg (n : nat) : 0 <= inject_Z (Z.of_nat n).
Proof. unfold Qle, inject_Z. simpl. lia. Qed.

Lemma inject_nat_succ (a b : nat) :
  (a < b)%nat -> inject_Z (Z.of_nat a) + 1 <= inject_Z (Z.of_nat b).
Proof. intros H. unfold Qle, Qplus, inject_Z. simpl. lia. Qed.

Lemma inject_nat_le (a b : nat) :
  (a <= b)%nat -> inject_Z (Z.of_nat a) <= inject_Z (Z.of_nat b).
Proof. intros H. unfold Qle, inject_Z. simpl. lia. Qed.

Section TrainingFacts.

Context {G : Type} (ple : Game G).

Lemma table_kept_refl lo hi (σ : Trainer G) : table_kept lo hi σ σ.
Proof. unfold table_kept, same_shape. tauto. Qed.

Lemma table_kept_trans lo hi (σ1 σ2 σ3 : Trainer G) :
  table_kept lo hi σ1 σ2 -> table_kept lo hi σ2 σ3 -> table_kept lo hi σ1 σ3.
Proof.
  unfold table_kept, same_shape.
  intros ((A0 & A1 & A2) & AL & AW) ((B0 & B1 & B2) & BL & BW).
  split; [|split].
  - split; [|split]; congruence.
  - congruence.
  - intros H. apply BW, AW, H.
Qed.

Lemma keeps_ret {A} lo hi (a : A) : keeps (G := G) lo hi (ret a).
Proof. intros σ. apply table_kept_refl. Qed.

Lemma keeps_bind {A B} lo hi (m : M (Trainer G) A) (k : A -> M (Trainer G) B) :
  keeps lo hi m -> (forall a, keeps lo hi (k a)) -> keeps lo hi (bind m k).
Proof.
  intros Hm Hk σ. unfold bind. specialize (Hm σ).
  destruct (m σ) as [[e|a] σ1]; simpl in *; [exact Hm|].
  eapply table_kept_trans; [exact Hm | apply Hk].
Qed.

Lemma keeps_lift_opt {A} lo hi (e : exn) (o : option A) :
  keeps (G := G) lo hi (lift_opt e o).
Proof. intros σ. destruct o; apply table_kept_refl. Qed.

Lemma keeps_on_game {A} lo hi (f : G -> A * G) : keeps lo hi (on_game f).
Proof.
  intros σ. unfold on_game. destruct (f (t_game σ)) as [a g]. simpl.
  unfold table_kept, same_shape. simpl. tauto.
Qed.

Lemma keeps_on_table {A} lo hi (m : M QTable A) :
  (forall T, same_shape (snd (m T)) T /\
             length (cells (snd (m T))) = length (cells T) /\
             (within lo hi T -> within lo hi (snd (m T)))) ->
  keeps (G := G) lo hi (on_table m).
Proof.
  intros Hm σ. unfold on_table. specialize (Hm (t_Q σ)).
  destruct (m (t_Q σ)) as [res T]. simpl in *. exact Hm.
Qed.

Lemma keeps_choose_action lo hi s : keeps (G := G) lo hi (on_table (choose_action s)).
Proof.
  apply keeps_on_table. intros T. rewrite choose_action_frame.
  unfold same_shape. tauto.
Qed.

Lemma keeps_update_Q s s' a game_reward :
  keeps (G := G) (-10000) 100
    (on_table (update_Q s s' a (parse_reward game_reward) train_alpha train_gamma)).
Proof.
  apply keeps_on_table. intros T.
  destruct (update_Q_shape s s' a (parse_reward game_reward) train_alpha train_gamma T)
    as [Hs Hl].
  split; [exact Hs|]. split; [exact Hl|].
  destruct (parse_reward_range game_reward) as [Hr0 Hr1].
  apply (update_Q_within (-10000) 100 r_min r_max); try assumption;
    unfold train_alpha, train_gamma, r_min, r_max; try reflexivity; lra.
Qed.

Lemma keeps_episode_loop fuel s cumulative_reward :
  keeps (-10000) 100 (episode_loop ple fuel s cumulative_reward).
Proof.
  revert s cumulative_reward.
  induction fuel as [|fuel IH]; intros s c; simpl;
    (apply keeps_bind; [apply keeps_on_game|]); intros [|]; try apply keeps_ret.
  apply keeps_bind; [apply keeps_choose_action|]. intros action.
  apply keeps_bind; [apply keeps_lift_opt|]. intros key.
  apply keeps_bind; [apply keeps_on_game|]. intros game_reward.
  apply keeps_bind; [apply keeps_on_game|]. intros g.
  apply keeps_bind; [apply keeps_update_Q|]. intros _.
  apply IH.
Qed.

Lemma keeps_episode fuel : keeps (-10000) 100 (episode ple fuel).
Proof.
  unfold episode.
  apply keeps_bind; [apply keeps_on_game|]. intros _.
  apply keeps_bind; [apply keeps_on_game|]. intros g.
  apply keeps_bind; [apply keeps_episode_loop|]. intros [c|]; [|apply keeps_ret].
  apply keeps_bind; [apply keeps_on_game|]. intros score.
  intros σ. unfold bind, get, put, ret. simpl.
  unfold table_kept, same_shape. simpl. tauto.
Qed.

(** X21. Whatever the game does, and whether or not a run ends in an
    exception or out of fuel, training leaves the table with the shape and
    the number of cells it had; and if all entries were in [-10000, 100]
    (that is, between -100 / (1 - gamma) and 1 / (1 - gamma) for the
    notebook's gamma = 0.99) before, so they are afterwards. *)
Theorem train_keeps_table (n_epochs fuel : nat) (σ : Trainer G) :
  table_kept (-10000) 100 σ (snd (train ple n_epochs fuel σ)).
Proof.
  revert σ. change (keeps (-10000) 100 (train ple n_epochs fuel)).
  induction n_epochs as [|n IH]; simpl; [apply keeps_ret|].
  apply keeps_bind; [apply keeps_episode|]. intros [c|]; [exact IH | apply keeps_ret].
Qed.

Section Terminating.

Variable remaining : G -> nat.
Hypothesis Hplay : forall g, in_play (game_getGameState ple g).
Hypothesis Hzero : forall g, remaining g = 0%nat -> game_over ple g = true.
Hypothesis Hdec : forall key g, game_over ple g = false ->
  (remaining (snd (game_act ple key g)) < remaining g)%nat.

Lemma episode_loop_ok fuel : forall (σ : Trainer G) g0 cum,
  in_play g0 -> (remaining (t_game σ) <= fuel)%nat ->
  wf_table (t_Q σ) -> same_shape (t_Q σ) Q_init ->
  exists total σ',
    episode_loop ple fuel (parse_state g0) cum σ = (inr (Some total), σ') /\
    wf_table (t_Q σ') /\ same_shape (t_Q σ') Q_init /\
    t_scores σ' = t_scores σ /\ t_returns σ' = t_returns σ /\
    cum - 100 * inject_Z (Z.of_nat (remaining (t_game σ))) <= total /\
    total <= cum + inject_Z (Z.of_nat (remaining (t_game σ))).
Proof.
  induction fuel as [|fuel IH]; intros σ g0 cum Hg0 Hrem Hwf Hshape;
    pose proof (inject_nat_nonneg (remaining (t_game σ))) as Hk;
    simpl; unfold bind at 1; unfold ask_game at 1, on_game at 1;
    destruct (game_over ple (t_game σ)) eqn:Eo.
  - eexists _, _. split; [reflexivity|]. simpl. repeat (split; [assumption || reflexivity|]).
    split; lra.
  - rewrite Hzero in Eo by lia. discriminate.
  - eexists _, _. split; [reflexivity|]. simpl. repeat (split; [assumption || reflexivity|]).
    split; lra.
  - destruct (in_play_row (t_Q σ) g0 Hg0 Hshape) as [base Hb].
    destruct (read_row_ok _ _ _ Hwf Hb) as (q0 & q1 & _ & _ & Hrow).
    set (action := if Qgtb q0 q1 then 0%nat else 1%nat).
    assert (Hch : choose_action (parse_state g0) (t_Q σ) = (inr action, t_Q σ)).
    { unfold choose_action, bind. rewrite Hrow. reflexivity. }
    assert (Hact : exists key p, action_dict action = Some key /\
                     cell_offset (t_Q σ) (parse_state g0) (Z.of_nat action) = Some p).
    { unfold action. destruct (Qgtb q0 q1); eexists _, _; (split; [reflexivity|]).
      - apply cell_offset_0. exact Hb.
      - apply cell_offset_1. exact Hb. }
    destruct Hact as (key & p & Hkey & Hp).
    destruct (game_act ple key (t_game σ)) as [game_reward g1] eqn:Eact.
    set (g' := game_getGameState ple g1).
    destruct (in_play_row (t_Q σ) g' (Hplay g1) Hshape) as [base' Hb'].
    pose proof (update_Q_ok (t_Q σ) (parse_state g0) (parse_state g') (Z.of_nat action)
                  (parse_reward game_reward) train_alpha train_gamma base' p Hwf Hb' Hp) as Hup.
    destruct (update_Q_shape (parse_state g0) (parse_state g') (Z.of_nat action)
                (parse_reward game_reward) train_alpha train_gamma (t_Q σ)) as [Hs1 Hl1].
    destruct (update_Q (parse_state g0) (parse_state g') (Z.of_nat action)
                (parse_reward game_reward) train_alpha train_gamma (t_Q σ))
      as [res T1] eqn:Eup.
    simpl in Hup, Hs1, Hl1. subst res.
    set (σ1 := {| t_game := g1; t_Q := T1;
                  t_scores := t_scores σ; t_returns := t_returns σ |}).
    assert (Hlt : (remaining g1 < remaining (t_game σ))%nat).
    { pose proof (Hdec key _ Eo) as H. rewrite Eact in H. exact H. }
    assert (Hwf1 : wf_table (t_Q σ1)) by (eapply same_shape_wf; eassumption).
    assert (Hsh1 : same_shape (t_Q σ1) Q_init).
    { change (t_Q σ1) with T1. unfold same_shape in *.
      destruct Hs1 as (-> & -> & ->). exact Hshape. }
    destruct (IH σ1 g' (cum + parse_reward game_reward) (Hplay g1)
                ltac:(simpl; lia) Hwf1 Hsh1)
      as (total & σ' & Hrun & Hwf' & Hsh' & Hsc & Hre & Hlo & Hhi).
    exists total, σ'. split.
    { unfold bind, on_table, on_game, ask_game, lift_opt, ret. simpl.
      rewrite Hch, Hkey. simpl. rewrite Eact. simpl.
      fold g'. rewrite Eup. exact Hrun. }
    split; [exact Hwf'|]. split; [exact Hsh'|].
    split; [exact Hsc|]. split; [exact Hre|].
    simpl in Hlo, Hhi.
    pose proof (inject_nat_succ _ _ Hlt) as Hs.
    pose proof (inject_nat_nonneg (remaining g1)) as Hk1.
    destruct (parse_reward_range game_reward) as [Hr0 Hr1].
    unfold r_min, r_max in *.
    split; lra.
Qed.

Lemma episode_ok fuel (σ : Trainer G) :
  (forall g, remaining (game_init ple g) <= fuel)%nat ->
  wf_table (t_Q σ) -> same_shape (t_Q σ) Q_init ->
  exists total score σ',
    episode ple fuel σ = (inr (Some total), σ') /\
    wf_table (t_Q σ') /\ same_shape (t_Q σ') Q_init /\
    t_scores σ' = t_scores σ ++ [score] /\ t_returns σ' = t_returns σ ++ [total] /\
    - (100) * inject_Z (Z.of_nat fuel) <= total /\ total <= inject_Z (Z.of_nat fuel).
Proof.
  intros Hinit Hwf Hshape.
  set (σ0 := {| t_game := game_init ple (t_game σ); t_Q := t_Q σ;
                t_scores := t_scores σ; t_returns := t_returns σ |}).
  destruct (episode_loop_ok fuel σ0 (game_getGameState ple (t_game σ0)) 0
              (Hplay _) (Hinit _) Hwf Hshape)
    as (total & σ' & Hrun & Hwf' & Hsh' & Hsc & Hre & Hlo & Hhi).
  exists total, (game_score ple (t_game σ')).
  eexists. split.
  { subst σ0. cbn [t_game] in Hrun.
    unfold episode, bind, ask_game, on_game.
    cbn beta iota delta [t_game t_Q t_scores t_returns]. rewrite Hrun.
    unfold get, put, ret. reflexivity. }
  simpl. split; [exact Hwf'|]. split; [exact Hsh'|].
  rewrite Hsc, Hre. split; [reflexivity|]. split; [reflexivity|].
  pose proof (inject_nat_le _ _ (Hinit (t_game σ))) as Hle.
  pose proof (inject_nat_nonneg (remaining (game_init ple (t_game σ)))) as Hk.
  subst σ0. cbn [t_game] in Hlo, Hhi. split; lra.
Qed.

End Terminating.

(** X22. On a game that always shows a state in the range the bins are
    sized for and that ends within [fuel] passes of every start, training
    [n_epochs] games from a table of the shape of [Q_init] raises nothing
    and does not run out of fuel: it appends exactly one score and one
    return per game, and every return lies between [-100 * fuel] and
    [fuel]. *)
Theorem train_completes (remaining : G -> nat) (n_epochs fuel : nat) (σ : Trainer G) :
  (forall g, in_play (game_getGameState ple g)) ->
  (forall g, remaining g = 0%nat -> game_over ple g = true) ->
  (forall key g, game_over ple g = false ->
     (remaining (snd (game_act ple key g)) < remaining g)%nat) ->
  (forall g, remaining (game_init ple g) <= fuel)%nat ->
  wf_table (t_Q σ) -> same_shape (t_Q σ) Q_init ->
  exists new_scores new_returns,
    fst (train ple n_epochs fuel σ) = inr (Some tt) /\
    t_scores (snd (train ple n_epochs fuel σ)) = t_scores σ ++ new_scores /\
    t_returns (snd (train ple n_epochs fuel σ)) = t_returns σ ++ new_returns /\
    length new_scores = n_epochs /\ length new_returns = n_epochs /\
    Forall (fun r => - (100) * inject_Z (Z.of_nat fuel) <= r /\
                     r <= inject_Z (Z.of_nat fuel)) new_returns.
Proof.
  intros Hplay Hzero Hdec Hinit. revert σ.
  induction n_epochs as [|n IH]; intros σ Hwf Hshape.
  - exists [], []. simpl. rewrite !app_nil_r. repeat split. constructor.
  - destruct (episode_ok remaining Hplay Hzero Hdec fuel σ Hinit Hwf Hshape)
      as (ret & score & σ1 & Hrun & Hwf1 & Hsh1 & Hsc & Hre & Hlo & Hhi).
    destruct (IH σ1 Hwf1 Hsh1) as (ss & rs & Hok & Hss & Hrs & Ls & Lr & Hall).
    exists (score :: ss), (ret :: rs).
    simpl. unfold bind. rewrite Hrun.
    split; [exact Hok|]. rewrite Hss, Hrs, Hsc, Hre, <- !app_assoc. simpl.
    split; [reflexivity|]. split; [reflexivity|].
    split; [lia|]. split; [lia|].
    constructor; [split; assumption | exact Hall].
Qed.

End TrainingFacts.

Lemma train_completes_witness :
  let σ := {| t_game := 0%nat; t_Q := Q_init; t_scores := []; t_returns := [] |} in
  exists new_scores new_returns,
    fst (train countdown_game 2 3 σ) = inr (Some tt) /\
    t_scores (snd (train countdown_game 2 3 σ)) = t_scores σ ++ new_scores /\
    t_returns (snd (train countdown_game 2 3 σ)) = t_returns σ ++ new_returns /\
    length new_scores = 2%nat /\ length new_returns = 2%nat /\
    Forall (fun r => - (100) * inject_Z (Z.of_nat 3) <= r /\
                     r <= inject_Z (Z.of_nat 3)) new_returns.
Proof.
  intros σ.
  apply (train_completes countdown_game (fun n => n) 2 3 σ).
  - intros g. unfold in_play. simpl. repeat split; lra.
  - intros g ->. reflexivity.
  - intros key g H. simpl in *. destruct g; [discriminate | simpl; lia].
  - intros g. simpl. lia.
  - apply Q_init_wf.
  - unfold same_shape. tauto.
Defined.
